(** * Text_Sanitizer_Auto: a shallow embedding of [text_sanitizer_auto.py]

    The development follows the source file top-down: Python strings and
    the built-ins the program uses, the chunker ([chunk_text]), the rate
    limiter ([RateLimiter.__call__]), the retrying invoker
    ([clean_text_chunk] under its two decorators), the per-document state
    machine ([process_text_file]) and the batch aggregation of [main].
    Theorems come after the definitions. *)

From Stdlib Require Import Ascii String DecimalString.
From Stdlib Require Import ZArith NArith QArith Qminmax Qpower Lia Lqa Bool List.
From stdpp Require Import base list option gmap.

Local Open Scope Z_scope.

(** ** Python strings

    A Python [str] is a sequence of Unicode code points; [len] counts code
    points. *)

Definition char : Type := N.
Abbreviation str := (list char) (only parsing).

Definition NL : char := 10%N.

(** Literals, for examples: every character of the Rocq string becomes its
    code point. *)
Fixpoint lit (s : string) : str :=
  match s with
  | EmptyString => []
  | String a s' => N_of_ascii a :: lit s'
  end.

Arguments lit _%_string.

Definition len {A} (l : list A) : Z := Z.of_nat (length l).

(** Truth value of a sequence: empty is false. *)
Definition truthy {A} (l : list A) : bool :=
  match l with
  | [] => false
  | _ :: _ => true
  end.

(** [s.split('\n')]: never empty, [''.split('\n') == ['']]. *)
Fixpoint split_nl (s : str) : list str :=
  match s with
  | [] => [[]]
  | c :: s' =>
      if N.eqb c NL then [] :: split_nl s'
      else match split_nl s' with
           | l :: ls => (c :: l) :: ls
           | [] => [[c]]
           end
  end.

(** ['\n'.join(parts)]. *)
Fixpoint join_nl (parts : list str) : str :=
  match parts with
  | [] => []
  | p :: ps =>
      match ps with
      | [] => p
      | _ :: _ => p ++ NL :: join_nl ps
      end
  end.

(** The characters [str.strip()] removes: those for which [str.isspace]
    holds (U+0009..U+000D, U+001C..U+0020, U+0085, U+00A0, U+1680,
    U+2000..U+200A, U+2028, U+2029, U+202F, U+205F, U+3000). *)
Definition isspace (c : char) : bool :=
  (((9 <=? c) && (c <=? 13)) || ((28 <=? c) && (c <=? 32))
   || (c =? 133) || (c =? 160) || (c =? 5760)
   || ((8192 <=? c) && (c <=? 8202))
   || (c =? 8232) || (c =? 8233) || (c =? 8239) || (c =? 8287)
   || (c =? 12288))%N.

Fixpoint lstrip (s : str) : str :=
  match s with
  | [] => []
  | c :: s' => if isspace c then lstrip s' else s
  end.

Definition rstrip (s : str) : str := rev (lstrip (rev s)).

Definition strip (s : str) : str := rstrip (lstrip s).

(** [str(n)] for a non-negative integer, as f-strings render it. *)
Definition str_of_nat (n : nat) : str :=
  lit (DecimalString.NilEmpty.string_of_uint (Nat.to_uint n)).

(** [needle in hay] on strings. *)
Fixpoint starts_with (needle hay : str) : bool :=
  match needle, hay with
  | [], _ => true
  | _ :: _, [] => false
  | a :: needle', b :: hay' => N.eqb a b && starts_with needle' hay'
  end.

Fixpoint contains (needle hay : str) : bool :=
  starts_with needle hay ||
  match hay with
  | [] => false
  | _ :: hay' => contains needle hay'
  end.

(** [s.lower()] on the ASCII letters. Python also lowers cased letters
    outside ASCII. The program only asks whether the ASCII phrase
    ["content filtering"] occurs in the lowered text, and the only code
    points outside ASCII whose lower case holds an ASCII letter are U+0130
    (an [i] followed by U+0307) and U+212A (a [k]); neither can take part
    in an occurrence of the phrase, so the answer is the same. *)
Definition lower_char (c : char) : char :=
  if ((65 <=? c) && (c <=? 90))%N then (c + 32)%N else c.

Definition lower (s : str) : str := map lower_char s.

(** ** Chunker: [chunk_text] (source lines 94-113) *)

(** The three loop variables of [chunk_text]. *)
Record chunker : Type := Chunker {
  chunks : list str;
  current_chunk : list str;
  current_size : Z
}.

(** One iteration of [for line in text.split('\n')]. *)
Definition chunk_step (chunk_size : Z) (st : chunker) (line : str) : chunker :=
  let st1 :=
    if (current_size st + len line >? chunk_size) && truthy (current_chunk st)
    then Chunker (chunks st ++ [join_nl (current_chunk st)]) [] 0
    else st in
  Chunker (chunks st1) (current_chunk st1 ++ [line])
          (current_size st1 + (len line + 1)).

(** The chunk list before the [# Skip empty chunks] filter. *)
Definition chunk_text_raw (text : str) (chunk_size : Z) : list str :=
  let st := fold_left (chunk_step chunk_size) (split_nl text) (Chunker [] [] 0) in
  if truthy (current_chunk st)
  then chunks st ++ [join_nl (current_chunk st)]
  else chunks st.

Definition chunk_text (text : str) (chunk_size : Z) : list str :=
  List.filter (fun chunk => truthy (strip chunk)) (chunk_text_raw text chunk_size).

(** The default [chunk_size=200], the value [process_text_file] uses. *)
Definition default_chunk_size : Z := 200.

(** ** Exceptions

    Every class below derives from [Exception]; [anthropic.APIError]
    stands for the class and its subclasses. *)

Inductive exn : Type :=
  | APIError (msg : str)
  | ValueError (msg : str)
  | OSError (msg : str)
  | IndexError (msg : str)
  | UnboundLocalError (var : str)
  | RetryError (last_attempt : exn)
  | OtherException (msg : str).

(** [str(e)]. The text of a [tenacity.RetryError] holds the [repr] of a
    future object; only its shape is kept. *)
Fixpoint exn_str (e : exn) : str :=
  match e with
  | APIError msg | ValueError msg | OSError msg | IndexError msg
  | OtherException msg => msg
  | UnboundLocalError var =>
      lit "cannot access local variable '" ++ var
      ++ lit "' where it is not associated with a value"
  | RetryError last => lit "RetryError[" ++ exn_str last ++ lit "]"
  end.

(** ** The processing log ([log_data], a dict; a missing key is [None]) *)

Module Log.
Record chunk_info : Type := ChunkInfo {
  chunk_number : nat;
  original_length : Z;
  cleaned_length : Z;
  cleaned : bool
}.

Record t : Type := Make {
  file_name : str;
  start_time : Q;
  status : str;
  errors : list str;
  chunks_info : list chunk_info;
  total_chunks : option nat;
  end_time : option Q;
  processing_time : option Q;
  cleaned_chunks : option nat
}.

Definition set_status (v : str) (l : t) : t :=
  Make (file_name l) (start_time l) v (errors l) (chunks_info l)
       (total_chunks l) (end_time l) (processing_time l) (cleaned_chunks l).
Definition append_error (v : str) (l : t) : t :=
  Make (file_name l) (start_time l) (status l) (errors l ++ [v]) (chunks_info l)
       (total_chunks l) (end_time l) (processing_time l) (cleaned_chunks l).
Definition append_chunk_info (v : chunk_info) (l : t) : t :=
  Make (file_name l) (start_time l) (status l) (errors l) (chunks_info l ++ [v])
       (total_chunks l) (end_time l) (processing_time l) (cleaned_chunks l).
Definition set_total_chunks (v : nat) (l : t) : t :=
  Make (file_name l) (start_time l) (status l) (errors l) (chunks_info l)
       (Some v) (end_time l) (processing_time l) (cleaned_chunks l).
Definition set_end_time (v : Q) (l : t) : t :=
  Make (file_name l) (start_time l) (status l) (errors l) (chunks_info l)
       (total_chunks l) (Some v) (processing_time l) (cleaned_chunks l).
Definition set_processing_time (v : Q) (l : t) : t :=
  Make (file_name l) (start_time l) (status l) (errors l) (chunks_info l)
       (total_chunks l) (end_time l) (Some v) (cleaned_chunks l).
Definition set_cleaned_chunks (v : nat) (l : t) : t :=
  Make (file_name l) (start_time l) (status l) (errors l) (chunks_info l)
       (total_chunks l) (end_time l) (processing_time l) (Some v).
End Log.

(** ** Program state

    One worker's view of the world: the clock, the rate limiter's shared
    timestamp list, the files of the document it owns, and the local
    variables of [process_text_file] that outlive its [try] block. The
    [trace] is a record of what happened, kept for the statements. *)

Inductive event : Type :=
  | GateSleep (d : Q)       (* time.sleep in RateLimiter.wrapper *)
  | BackoffSleep (d : Q)    (* tenacity's wait between attempts *)
  | PauseSleep (d : Q)      (* time.sleep(5) in process_text_file *)
  | CallStart (t : Q).      (* the gated function starts at clock time t *)

Record state : Type := State {
  clock : Q;
  rl_calls : list Q;
  trace : list event;
  api_calls : nat;
  io_ops : nat;
  chunk_files : gmap nat str;
  output_file : option str;
  log_file : option Log.t;
  log_data : Log.t;
  var_chunks : option (list str);
  var_cleaned_chunks : option nat
}.

Definition set_clock (v : Q) (s : state) : state :=
  State v (rl_calls s) (trace s) (api_calls s) (io_ops s) (chunk_files s)
        (output_file s) (log_file s) (log_data s) (var_chunks s) (var_cleaned_chunks s).
Definition set_rl_calls (v : list Q) (s : state) : state :=
  State (clock s) v (trace s) (api_calls s) (io_ops s) (chunk_files s)
        (output_file s) (log_file s) (log_data s) (var_chunks s) (var_cleaned_chunks s).
Definition add_event (v : event) (s : state) : state :=
  State (clock s) (rl_calls s) (trace s ++ [v]) (api_calls s) (io_ops s) (chunk_files s)
        (output_file s) (log_file s) (log_data s) (var_chunks s) (var_cleaned_chunks s).
Definition set_api_calls (v : nat) (s : state) : state :=
  State (clock s) (rl_calls s) (trace s) v (io_ops s) (chunk_files s)
        (output_file s) (log_file s) (log_data s) (var_chunks s) (var_cleaned_chunks s).
Definition set_io_ops (v : nat) (s : state) : state :=
  State (clock s) (rl_calls s) (trace s) (api_calls s) v (chunk_files s)
        (output_file s) (log_file s) (log_data s) (var_chunks s) (var_cleaned_chunks s).
Definition set_chunk_files (v : gmap nat str) (s : state) : state :=
  State (clock s) (rl_calls s) (trace s) (api_calls s) (io_ops s) v
        (output_file s) (log_file s) (log_data s) (var_chunks s) (var_cleaned_chunks s).
Definition set_output_file (v : option str) (s : state) : state :=
  State (clock s) (rl_calls s) (trace s) (api_calls s) (io_ops s) (chunk_files s)
        v (log_file s) (log_data s) (var_chunks s) (var_cleaned_chunks s).
Definition set_log_file (v : option Log.t) (s : state) : state :=
  State (clock s) (rl_calls s) (trace s) (api_calls s) (io_ops s) (chunk_files s)
        (output_file s) v (log_data s) (var_chunks s) (var_cleaned_chunks s).
Definition set_log_data (v : Log.t) (s : state) : state :=
  State (clock s) (rl_calls s) (trace s) (api_calls s) (io_ops s) (chunk_files s)
        (output_file s) (log_file s) v (var_chunks s) (var_cleaned_chunks s).
Definition set_var_chunks (v : option (list str)) (s : state) : state :=
  State (clock s) (rl_calls s) (trace s) (api_calls s) (io_ops s) (chunk_files s)
        (output_file s) (log_file s) (log_data s) v (var_cleaned_chunks s).
Definition set_var_cleaned_chunks (v : option nat) (s : state) : state :=
  State (clock s) (rl_calls s) (trace s) (api_calls s) (io_ops s) (chunk_files s)
        (output_file s) (log_file s) (log_data s) (var_chunks s) v.

(** ** A state and exception monad

    [Raise] is a Python exception in flight. [OutOfFuel] is not a Python
    outcome: it marks a run of the model whose [while True] loop was cut
    short, and nothing catches it. *)

Inductive res (A : Type) : Type :=
  | Val (a : A)
  | Raise (e : exn)
  | OutOfFuel.
Arguments Val {A} a.
Arguments Raise {A} e.
Arguments OutOfFuel {A}.

Definition M (A : Type) : Type := state -> res A * state.

Definition ret {A} (a : A) : M A := fun s => (Val a, s).

Definition bind {A B} (m : M A) (k : A -> M B) : M B :=
  fun s =>
    match m s with
    | (Val a, s') => k a s'
    | (Raise e, s') => (Raise e, s')
    | (OutOfFuel, s') => (OutOfFuel, s')
    end.

Definition raise {A} (e : exn) : M A := fun s => (Raise e, s).

Definition out_of_fuel {A} : M A := fun s => (OutOfFuel, s).

Definition gets {A} (f : state -> A) : M A := fun s => (Val (f s), s).

Definition modify (f : state -> state) : M unit := fun s => (Val tt, f s).

(** [try: m except Exception as e: handler e]. *)
Definition try_except {A} (m : M A) (handler : exn -> M A) : M A :=
  fun s =>
    match m s with
    | (Raise e, s') => handler e s'
    | r => r
    end.

(** [try: m finally: fin]: [fin] runs on a normal exit and on an
    exception, whose propagation resumes after it unless [fin] raises. *)
Definition try_finally {A} (m : M A) (fin : M unit) : M A :=
  fun s =>
    match m s with
    | (OutOfFuel, s') => (OutOfFuel, s')
    | (r, s') =>
        match fin s' with
        | (Val _, s'') => (r, s'')
        | (Raise e, s'') => (Raise e, s'')
        | (OutOfFuel, s'') => (OutOfFuel, s'')
        end
    end.

Notation "'let*' x ':=' m 'in' k" := (bind m (fun x => k))
  (at level 10, x pattern, m at level 100, k at level 200).
Notation "m '>>' k" := (bind m (fun _ => k))
  (at level 90, right associativity).

(** [for x in xs: body x]. *)
Fixpoint for_each {A} (xs : list A) (body : A -> M unit) : M unit :=
  match xs with
  | [] => ret tt
  | x :: xs' => body x >> for_each xs' body
  end.

(** [enumerate(xs, start)]. *)
Fixpoint enumerate {A} (xs : list A) (start : nat) : list (nat * A) :=
  match xs with
  | [] => []
  | x :: xs' => (start, x) :: enumerate xs' (S start)
  end.

(** ** Time

    Clock readings and durations are rationals. Python has binary floating
    point; the two agree wherever the readings and their differences are
    representable, as the integers of the examples are. *)

Definition Qltb (a b : Q) : bool := negb (Qle_bool b a).

Definition time_time : M Q := gets clock.

(** [time.sleep(d)]: a negative length raises [ValueError]; otherwise the
    clock moves on by [d]. [why] tags the sleep in the trace. *)
Definition sleep (why : Q -> event) (d : Q) : M unit :=
  if Qltb d 0 then raise (ValueError (lit "sleep length must be non-negative"))
  else modify (fun s => add_event (why d) (set_clock (clock s + d)%Q s)).

(** Time passing outside the program: the clock reaches [t], unless it is
    already later. Used to describe when callers arrive. *)
Definition wait_until (t : Q) : M unit :=
  modify (fun s => set_clock (Qmax (clock s) t) s).

(** ** RateLimiter (source lines 21-43) *)

Record RateLimiter : Type := {
  max_calls : Z;
  period : Q
}.

(** [RateLimiter.__call__(func)] returns [wrapper]. [gate] is the suite
    under [with self.lock]; the sleep is part of it, so gate passages are
    serialized and the sequential reading below is the one every
    interleaving of the workers has. *)
Definition gate (self : RateLimiter) : M unit :=
  let* now := time_time in
  let* old := gets rl_calls in
  modify (set_rl_calls (List.filter (fun t => Qltb (now - t)%Q (period self)) old)) >>
  let* calls := gets rl_calls in
  (if len calls >=? max_calls self then
     match calls with
     | [] => raise (IndexError (lit "list index out of range"))
     | t0 :: _ =>
         let sleep_time := (period self - (now - t0))%Q in
         sleep GateSleep sleep_time
     end
   else ret tt) >>
  modify (fun s => set_rl_calls (rl_calls s ++ [now]) s).

(** [wrapper]: pass the gate, then return what [func] returns. The trace
    notes the clock at which the gated function starts. *)
Definition wrapper {A} (self : RateLimiter) (func : M A) : M A :=
  gate self >>
  let* started := time_time in
  modify (add_event (CallStart started)) >>
  func.

(** [rate_limiter = RateLimiter(max_calls=999, period=60)]. *)
Definition rate_limiter : RateLimiter := {| max_calls := 999; period := 60 |}.

(** ** The [tenacity] decorator (source line 115)

    [tenacity] is a library the program imports; what follows is the
    behaviour of [retry], [stop_after_attempt] and [wait_exponential] as
    the library defines them: attempts are numbered from 1; after a failed
    attempt the stop condition is asked first, and when it holds the loop
    ends with [RetryError]; otherwise the loop sleeps for the wait of that
    attempt number and calls again. *)

Definition stop_after_attempt (max_attempt_number attempt_number : nat) : bool :=
  (max_attempt_number <=? attempt_number)%nat.

(** [max(max(0, min), min(multiplier * 2 ** (attempt_number - 1), max))]. *)
Definition wait_exponential (multiplier min max : Q) (attempt_number : nat) : Q :=
  Qmax (Qmax 0 min) (Qmin (multiplier * 2 ^ (Z.of_nat attempt_number - 1)) max)%Q.

Fixpoint retry_loop {A} (stop : nat -> bool) (wait : nat -> Q)
    (fuel attempt_number : nat) (fn : M A) : M A :=
  match fuel with
  | O => out_of_fuel
  | S fuel' =>
      try_except fn (fun e =>
        if stop attempt_number then raise (RetryError e)
        else sleep BackoffSleep (wait attempt_number) >>
             retry_loop stop wait fuel' (S attempt_number) fn)
  end.

(** [@retry(stop=stop_after_attempt(3),
            wait=wait_exponential(multiplier=1, min=4, max=10))].
    Three rounds of the loop are all the stop condition allows. *)
Definition retry {A} (fn : M A) : M A :=
  retry_loop (stop_after_attempt 3) (wait_exponential 1 4 10) 3 1 fn.

(** ** The environment of one document

    What the outside world answers: what reading the source file gives
    under each encoding (the text [file.read()] returns, the file being
    opened in text mode), the outcome of the k-th call to the service, and
    whether the k-th file-system operation fails. *)

Inductive encoding : Type := utf_8 | latin_1 | ascii_enc | utf_16.

Inductive read_outcome : Type :=
  | Decoded (content : str)
  | UnicodeDecodeError
  | ReadRaises (e : exn).

Inductive service_outcome : Type :=
  | Response (content : list str)   (* the [.text] of response.content *)
  | ServiceRaises (e : exn).

Record env : Type := Env {
  file_path : str;
  base_name : str;
  open_read : encoding -> read_outcome;
  service : nat -> service_outcome;
  io_fault : nat -> option exn
}.

(** ** read_file_with_fallback_encoding (source lines 80-92) *)

Definition encodings : list encoding := [utf_8; latin_1; ascii_enc; utf_16].

(** The loop over [encodings]: the first encoding that decodes wins, an
    exception other than [UnicodeDecodeError] leaves the function at once,
    and [ValueError] is raised when the list is exhausted. *)
Fixpoint read_with (E : env) (encs : list encoding) : exn + str :=
  match encs with
  | [] => inl (ValueError (lit "Unable to read the file " ++ file_path E
                           ++ lit " with any of the attempted encodings"))
  | enc :: encs' =>
      match open_read E enc with
      | Decoded content => inr content
      | UnicodeDecodeError => read_with E encs'
      | ReadRaises e => inl e
      end
  end.

Definition read_file_with_fallback_encoding (E : env) : M str :=
  match read_with E encodings with
  | inr content => ret content
  | inl e => raise e
  end.

(** ** clean_text_chunk (source lines 115-169) *)

Definition content_filtering : str := lit "content filtering".

(** The function under the decorators. The k-th call of
    [client.messages.create] gets the environment's k-th answer. *)
Definition clean_text_chunk_body (E : env) (chunk : str)
    (chunk_number total_chunks : nat) : M (str * bool) :=
  let* k := gets api_calls in
  modify (set_api_calls (S k)) >>
  match service E k with
  | Response content =>
      match content with
      | [] => raise (IndexError (lit "list index out of range"))
      | text :: _ => ret (strip text, true)
      end
  | ServiceRaises e =>
      match e with
      | APIError msg =>
          if contains content_filtering (lower (exn_str e))
          then ret (chunk, false)
          else raise e
      | _ => raise e
      end
  end.

(** [@retry(...) @rate_limiter def clean_text_chunk]. *)
Definition clean_text_chunk (E : env) (chunk : str)
    (chunk_number total_chunks : nat) : M (str * bool) :=
  retry (wrapper rate_limiter (clean_text_chunk_body E chunk chunk_number total_chunks)).

(** ** Files

    The files of one document: its chunk files by chunk number, its
    cleaned output and its JSON log. A file holds the text last written
    to it. Every operation on the file system consults the environment,
    which may make it fail before anything is written.

    The files are opened in text mode with the default [newline=None].
    On a POSIX system writing leaves the text as it is; reading turns
    every line end, a carriage return followed by a newline or a carriage
    return alone, into a newline. *)

Definition CR : char := 13%N.

(** What [file.read()] makes of the characters of a file. *)
Fixpoint universal_newlines (s : str) : str :=
  match s with
  | [] => []
  | c :: s' =>
      if N.eqb c CR then
        match s' with
        | c' :: _ => if N.eqb c' NL then universal_newlines s'
                     else NL :: universal_newlines s'
        | [] => [NL]
        end
      else c :: universal_newlines s'
  end.

(** A text without carriage return: what reading in text mode gives, and
    what it gives back unchanged. *)
Definition no_cr (s : str) : Prop := CR ∉ s.

Definition io (E : env) : M unit :=
  let* k := gets io_ops in
  modify (set_io_ops (S k)) >>
  match io_fault E k with
  | Some e => raise e
  | None => ret tt
  end.

Definition write_chunk_file (E : env) (n : nat) (content : str) : M unit :=
  io E >>
  modify (fun s => set_chunk_files (<[n := content]> (chunk_files s)) s).

Definition read_chunk_file (E : env) (n : nat) : M str :=
  io E >>
  let* files := gets chunk_files in
  match files !! n with
  | Some content => ret (universal_newlines content)
  | None => raise (OSError (lit "No such file or directory"))
  end.

(** ** process_text_file (source lines 171-274) *)

Definition modify_log (f : Log.t -> Log.t) : M unit :=
  modify (fun s => set_log_data (f (log_data s)) s).

(** Reading a local variable that may not have been assigned yet. *)
Definition load_cleaned_chunks : M nat :=
  let* v := gets var_cleaned_chunks in
  match v with
  | Some n => ret n
  | None => raise (UnboundLocalError (lit "cleaned_chunks"))
  end.

Definition load_chunks : M (list str) :=
  let* v := gets var_chunks in
  match v with
  | Some l => ret l
  | None => raise (UnboundLocalError (lit "chunks"))
  end.

(** The separator written after every chunk result (line 221). *)
Definition separator : str := [NL; NL].

(** The [try] suite inside [while True] (lines 213-232), up to [break]. *)
Definition process_chunk (E : env) (chunk_number total : nat) : M unit :=
  let* chunk := read_chunk_file E chunk_number in
  let* result := clean_text_chunk E chunk chunk_number total in
  let cleaned_chunk := fst result in
  let was_cleaned := snd result in
  (if was_cleaned : bool
   then let* c := load_cleaned_chunks in modify (set_var_cleaned_chunks (Some (c + 1)%nat))
   else ret tt) >>
  write_chunk_file E chunk_number (cleaned_chunk ++ separator) >>
  modify_log (Log.append_chunk_info
                (Log.ChunkInfo chunk_number (len chunk) (len cleaned_chunk) was_cleaned)).

(** [while True] (lines 211-237): leave on [break], otherwise record the
    error, sleep 5 and go round again. *)
Fixpoint while_true (fuel : nat) (E : env) (chunk_number total : nat) : M unit :=
  match fuel with
  | O => out_of_fuel
  | S fuel' =>
      let* done :=
        try_except
          (process_chunk E chunk_number total >> ret true)
          (fun e =>
             modify_log (Log.append_error
                           (lit "Chunk " ++ str_of_nat chunk_number ++ lit ": " ++ exn_str e)) >>
             sleep PauseSleep 5 >>
             ret false) in
      if done : bool then ret tt else while_true fuel' E chunk_number total
  end.

(** Lines 241-247. *)
Fixpoint combine_chunks (E : env) (numbers : list nat) (cleaned_text : str) : M str :=
  match numbers with
  | [] => ret cleaned_text
  | i :: numbers' =>
      let* files := gets chunk_files in
      match files !! i with
      | Some _ =>
          let* content := read_chunk_file E i in
          combine_chunks E numbers' (cleaned_text ++ content)
      | None => combine_chunks E numbers' cleaned_text
      end
  end.

(** Lines 196-259: what the outer [try] suite does with the chunk list. *)
Definition process_chunks (E : env) (fuel : nat) (chunks : list str) : M unit :=
  for_each (enumerate chunks 1) (fun '(i, chunk) => write_chunk_file E i chunk) >>
  modify (set_var_cleaned_chunks (Some O)) >>
  for_each (seq 0 (length chunks))
           (fun i => while_true fuel E (i + 1) (length chunks)) >>
  let* cleaned_text := combine_chunks E (seq 1 (length chunks)) [] in
  io E >>
  modify (set_output_file (Some cleaned_text)) >>
  modify_log (Log.set_status (lit "completed")) >>
  let* t := time_time in
  modify_log (Log.set_end_time t) >>
  modify_log (fun l => Log.set_processing_time (t - Log.start_time l)%Q l) >>
  let* c := load_cleaned_chunks in
  modify_log (Log.set_cleaned_chunks c).

(** The outer [try] suite (lines 192-259). *)
Definition process_body (E : env) (fuel : nat) : M unit :=
  let* text := read_file_with_fallback_encoding E in
  let chunks := chunk_text text default_chunk_size in
  modify (set_var_chunks (Some chunks)) >>
  modify_log (Log.set_total_chunks (length chunks)) >>
  process_chunks E fuel chunks.

(** The [except Exception as e] suite (lines 261-264). *)
Definition process_except (e : exn) : M unit :=
  modify_log (Log.set_status (lit "failed")) >>
  modify_log (Log.append_error (exn_str e)).

(** The [finally] suite (lines 266-272). *)
Definition process_finally (E : env) : M unit :=
  let* t := time_time in
  modify_log (Log.set_end_time t) >>
  modify_log (fun l => Log.set_processing_time (t - Log.start_time l)%Q l) >>
  io E >>
  modify (fun s => set_log_file (Some (log_data s)) s).

Definition process_text_file (E : env) (fuel : nat) : M (nat * nat) :=
  (* a new frame: no local is bound yet *)
  modify (set_var_chunks None) >>
  modify (set_var_cleaned_chunks None) >>
  (* os.makedirs(chunk_folder, exist_ok=True) *)
  io E >>
  let* t0 := time_time in
  modify (set_log_data
            (Log.Make (base_name E) t0 (lit "processing") [] [] None None None None)) >>
  try_finally
    (try_except (process_body E fuel) process_except)
    (process_finally E) >>
  (* return cleaned_chunks, len(chunks) *)
  let* cleaned_chunks := load_cleaned_chunks in
  let* chunks := load_chunks in
  ret (cleaned_chunks, length chunks).

(** ** main (source lines 276-349): aggregation *)

Module Summary.
Record t : Type := Make {
  total_files : Z;
  successful_files : Z;
  failed_files : Z;
  total_chunks : Z;
  total_cleaned_chunks : Z;
  not_cleaned_chunks : Z
}.
End Summary.

(** The three counters of the [for future in as_completed(futures)] loop. *)
Record tally : Type := Tally {
  successful_files : Z;
  total_chunks : Z;
  total_cleaned_chunks : Z
}.

(** The loop of lines 291-297. [future.result()] re-raises what the
    worker raised, and nothing in [main] catches it. *)
Fixpoint collect (futures : list (res (nat * nat))) (acc : tally) : res tally :=
  match futures with
  | [] => Val acc
  | future :: futures' =>
      match future with
      | Val (cleaned, total) =>
          collect futures'
            (Tally (if Z.of_nat cleaned >? 0
                    then successful_files acc + 1 else successful_files acc)
                   (total_chunks acc + Z.of_nat total)
                   (total_cleaned_chunks acc + Z.of_nat cleaned))
      | Raise e => Raise e
      | OutOfFuel => OutOfFuel
      end
  end.

(** Lines 282-303, given the futures in the order they complete. *)
Definition summarize (futures : list (res (nat * nat))) : res Summary.t :=
  match collect futures (Tally 0 0 0) with
  | Val acc =>
      Val (Summary.Make (len futures)
             (successful_files acc)
             (len futures - successful_files acc)
             (total_chunks acc)
             (total_cleaned_chunks acc)
             (total_chunks acc - total_cleaned_chunks acc))
  | Raise e => Raise e
  | OutOfFuel => OutOfFuel
  end.

(** The state a worker starts from. *)
Definition initial_state : state :=
  State 0 [] [] O O ∅ None None
        (Log.Make [] 0 [] [] [] None None None None) None None.

(** One worker: [executor.submit(process_text_file, txt_file, ...)]. Each
    document has its own files. The workers share the rate limiter only,
    whose gate changes the clock, its timestamp list and the trace and
    nothing else, so every worker is run on a state of its own. *)
Definition run_worker (fuel : nat) (E : env) : res (nat * nat) * state :=
  process_text_file E fuel initial_state.

(** [main] on the documents listed in the order their workers complete
    ([get_user_input] returns at least one). The percentage and the
    durations of the report are left out. *)
Definition main (docs : list env) (fuel : nat) : res Summary.t :=
  summarize (map (fun E => fst (run_worker fuel E)) docs).

(** ** Notions the statements use *)

(** *** Chunker *)

Definition no_nl (l : str) : Prop := NL ∉ l.

(** The lines of a chunk list: every chunk split back into its lines. *)
Definition lines_of (cs : list str) : list str := concat (map split_nl cs).

(** The test of the filter in [chunk_text]. *)
Definition nonblank (chunk : str) : bool := truthy (strip chunk).

(** What the loop of [chunk_text] keeps true: the closed chunks followed
    by the open one hold exactly the lines read so far. *)
Definition chunker_inv (st : chunker) (seen : list str) : Prop :=
  lines_of (chunks st) ++ current_chunk st = seen /\ Forall no_nl (current_chunk st).

(** *** Rate limiter *)

(** A caller that reaches the gate at each of the given times (or as soon
    as its previous call lets it) and calls a gated function that returns
    at once. *)
Fixpoint gated_calls (self : RateLimiter) (arrivals : list Q) : M unit :=
  match arrivals with
  | [] => ret tt
  | t :: arrivals' =>
      wait_until t >> wrapper self (ret tt) >> gated_calls self arrivals'
  end.

Fixpoint call_starts (tr : list event) : list Q :=
  match tr with
  | [] => []
  | CallStart t :: tr' => t :: call_starts tr'
  | _ :: tr' => call_starts tr'
  end.

Fixpoint backoff_sleeps (tr : list event) : list Q :=
  match tr with
  | [] => []
  | BackoffSleep d :: tr' => d :: backoff_sleeps tr'
  | _ :: tr' => backoff_sleeps tr'
  end.

(** How many of [starts] fall in the trailing window [(t - width, t]]. *)
Definition starts_in_window (starts : list Q) (t width : Q) : nat :=
  length (List.filter (fun u => Qltb (t - width) u && Qle_bool u t) starts).

(** *** Frames *)

(** The state [s] with another clock, timestamp list and trace: what
    waiting changes and nothing else. *)
Definition retimed (clk : Q) (calls : list Q) (tr : list event) (s : state) : state :=
  State clk calls tr (api_calls s) (io_ops s) (chunk_files s) (output_file s)
        (log_file s) (log_data s) (var_chunks s) (var_cleaned_chunks s).

(** *** Service outcomes *)

(** The exceptions [clean_text_chunk] answers with the original chunk:
    an [APIError] whose lowered text holds ["content filtering"]. *)
Definition rejection (e : exn) : bool :=
  match e with
  | APIError msg => contains content_filtering (lower msg)
  | _ => false
  end.

(** *** Invariants of runs *)

(** From a state that satisfies [P], [m] leaves a state that satisfies
    [Q], whatever its outcome. *)
Definition leads (P Q : state -> Prop) {A} (m : M A) : Prop :=
  forall s, P s -> Q (snd (m s)).

(** [m] keeps [P]. *)
Definition stable (P : state -> Prop) {A} (m : M A) : Prop := leads P P m.

(** The persisted log, if there is one, records [n] chunks. *)
Definition log_counts (n : nat) (s : state) : Prop :=
  forall lg, log_file s = Some lg -> Log.total_chunks lg = Some n.

(** No log file is written yet. *)
Definition no_log (s : state) : Prop := log_file s = None.

(** The log in memory records [n] chunks and no log file is written yet. *)
Definition counted (n : nat) (s : state) : Prop :=
  Log.total_chunks (log_data s) = Some n /\ log_file s = None.

(** From a state that satisfies [P], [m] returns normally, with a value
    and a state that satisfy [Q]. *)
Definition returns {A} (P : state -> Prop) (m : M A) (Q : A -> state -> Prop) : Prop :=
  forall s, P s -> exists a s', m s = (Val a, s') /\ Q a s'.

(** [P] looks at the document only: not at the clock, the limiter, the
    trace or the two operation counters. *)
Definition about_document (P : state -> Prop) : Prop :=
  forall s clk calls tr api io,
    P s ->
    P (State clk calls tr api io (chunk_files s) (output_file s) (log_file s)
             (log_data s) (var_chunks s) (var_cleaned_chunks s)).

(** *** The rejected document *)

(** The environment never makes a file-system operation fail. *)
Definition no_io_fault (E : env) : Prop := forall k, io_fault E k = None.

(** Every call to the service is answered by a content-policy rejection. *)
Definition always_rejects (E : env) : Prop :=
  forall k, exists msg,
    service E k = ServiceRaises (APIError msg)
    /\ contains content_filtering (lower msg) = true.

(** The chunk files while the transform loop runs: chunk [j+1] holds the
    result with its separator when [j] is below [i], the chunk as
    persisted otherwise. Under rejection the result is the chunk. *)
Definition files_at (chunks : list str) (i : nat) (s : state) : Prop :=
  forall j c, chunks !! j = Some c ->
    chunk_files s !! S j = Some (if (j <? i)%nat then c ++ separator else c).

(** What the transform loop keeps when every chunk is rejected. *)
Definition doc_inv (chunks : list str) (s : state) : Prop :=
  var_chunks s = Some chunks
  /\ var_cleaned_chunks s = Some O
  /\ Log.total_chunks (log_data s) = Some (length chunks)
  /\ Log.errors (log_data s) = []
  /\ log_file s = None.

(** How the pipeline rejoins chunk results: each followed by the
    separator, concatenated in order. *)
Definition rejoin (results : list str) : str :=
  concat (map (fun r => r ++ separator) results).

(** The state right after chunking: the chunk list and its length are
    recorded, nothing has failed, no log file is written. *)
Definition chunked (chunks : list str) (s : state) : Prop :=
  var_chunks s = Some chunks
  /\ Log.total_chunks (log_data s) = Some (length chunks)
  /\ Log.errors (log_data s) = []
  /\ log_file s = None.

(** The state in which a rejected document leaves its [try] suite. *)
Definition rejected_done (chunks : list str) (s : state) : Prop :=
  var_chunks s = Some chunks
  /\ var_cleaned_chunks s = Some O
  /\ output_file s = Some (rejoin chunks)
  /\ log_file s = None
  /\ Log.status (log_data s) = lit "completed"
  /\ Log.cleaned_chunks (log_data s) = Some O
  /\ Log.total_chunks (log_data s) = Some (length chunks)
  /\ Log.errors (log_data s) = [].

(** *** Documents and limiters used as examples *)

(** A directory entry whose name ends in [.txt] and which [open] refuses:
    a directory, or a file without read permission. [get_user_input]
    lists it like any other. *)
Definition unopenable_doc : env :=
  Env (lit "d.txt") (lit "d")
      (fun _ => ReadRaises (OSError (lit "[Errno 13] Permission denied")))
      (fun _ => Response [lit "clean"])
      (fun _ => None).

(** A one-line document the service cleans. *)
Definition clean_doc (name text : str) : env :=
  Env (name ++ lit ".txt") name
      (fun _ => Decoded text)
      (fun _ => Response [lit "clean"])
      (fun _ => None).

(** A document the service rejects, chunk after chunk. *)
Definition rejected_doc (name text : str) : env :=
  Env (name ++ lit ".txt") name
      (fun _ => Decoded text)
      (fun _ => ServiceRaises (APIError (lit "Output blocked by content filtering policy")))
      (fun _ => None).

(** A document whose service calls keep failing with an overload error. *)
Definition overloaded_doc (name text : str) : env :=
  Env (name ++ lit ".txt") name
      (fun _ => Decoded text)
      (fun _ => ServiceRaises (APIError (lit "Overloaded")))
      (fun _ => None).

(** A document whose service calls fail, each time with another error: a
    rate limit, a dropped connection, then server errors. *)
Definition failing_doc (name text : str) : env :=
  Env (name ++ lit ".txt") name
      (fun _ => Decoded text)
      (fun k => match k with
                | O => ServiceRaises (APIError (lit "Rate limit exceeded"))
                | S O => ServiceRaises (OtherException (lit "Connection reset by peer"))
                | _ => ServiceRaises (APIError (lit "Internal server error"))
                end)
      (fun _ => None).

(** A readable document on a full disk: the first chunk file cannot be
    written (operation 0 is [os.makedirs], operation 1 the first write). *)
Definition disk_full_doc (name text : str) : env :=
  Env (name ++ lit ".txt") name
      (fun _ => Decoded text)
      (fun _ => Response [lit "clean"])
      (fun k => if (k =? 1)%nat then Some (OSError (lit "[Errno 28] No space left on device"))
                else None).

(** A text of three lines that makes two chunks at the default size: two
    lines that fit the size together, of 100 and 99 characters, and a
    third line that does not fit with them. *)
Definition two_chunk_text : str :=
  repeat 97%N 100 ++ NL :: repeat 98%N 99 ++ NL :: lit "the end".

(** [RateLimiter(max_calls=2, period=10)]. *)
Definition small_limiter : RateLimiter := {| max_calls := 2; period := 10 |}.

(** * Notions of the further properties *)

(** ** Chunker *)

(** What the loop of [chunk_text] keeps about sizes: a closed chunk
    longer than the target size holds no newline; the lines of the open
    chunk hold none; [current_size] is the length of the open chunk once
    joined, plus one; and an open chunk of two lines or more fits. *)
Definition sized (S : Z) (st : chunker) : Prop :=
  Forall (fun c => S < len c -> NL ∉ c) (chunks st)
  /\ Forall no_nl (current_chunk st)
  /\ current_size st
     = match current_chunk st with
       | [] => 0
       | _ :: _ => len (join_nl (current_chunk st)) + 1
       end
  /\ ((2 <= length (current_chunk st))%nat -> len (join_nl (current_chunk st)) <= S).

(** The characters of a text that are not white space, in order. *)
Definition nonspace (s : str) : str := List.filter (fun c => negb (isspace c)) s.

(** ** Invoker *)

(** The answers of the service that make one call of the function under
    the decorators raise: an exception that is not a rejection, and a
    response without a content block, whose [response.content[0]] raises
    [IndexError]. *)
Definition transient (o : service_outcome) : bool :=
  match o with
  | Response [] => true
  | Response (_ :: _) => false
  | ServiceRaises e => negb (rejection e)
  end.

(** What one call returns on the other answers: the stripped text of the
    first content block, marked cleaned, or the chunk itself, marked not
    cleaned, on a rejection. *)
Definition answer (chunk : str) (o : service_outcome) : str * bool :=
  match o with
  | Response (text :: _) => (strip text, true)
  | _ => (chunk, false)
  end.

(** A one-chunk document whose service fails twice, with an overload
    error and then with a response without content, before it answers. *)
Definition flaky_doc (name text : str) : env :=
  Env (name ++ lit ".txt") name
      (fun _ => Decoded text)
      (fun k => match k with
                | O => ServiceRaises (APIError (lit "Overloaded"))
                | S O => Response []
                | _ => Response [lit " clean "]
                end)
      (fun _ => None).

(** ** FileProcessor *)

(** A service that is down for good: every call fails with an error that
    is not a rejection. *)
Definition outage (E : env) : Prop := forall k, transient (service E k) = true.

(** From a state that satisfies [P], [m] uses up the rounds given to its
    loops, in a state that satisfies [Q]: it does not end. *)
Definition stalls (P : state -> Prop) {A} (m : M A) (Q : state -> Prop) : Prop :=
  forall s, P s -> exists s', m s = (OutOfFuel, s') /\ Q s'.

(** [P] looks at the written log file only. *)
Definition about_log_file (P : state -> Prop) : Prop :=
  forall s s', log_file s' = log_file s -> P s -> P s'.

(** From a state that satisfies [P], [m] leaves a state that satisfies
    the assertion of its outcome: [Qv] with the value when it returns,
    [Qe] with the exception when it raises, [Qo] when a loop did not
    end. *)
Definition triple {A} (P : state -> Prop) (m : M A)
    (Qv : A -> state -> Prop) (Qe : exn -> state -> Prop) (Qo : state -> Prop) : Prop :=
  forall s, P s ->
    match m s with
    | (Val a, s') => Qv a s'
    | (Raise e, s') => Qe e s'
    | (OutOfFuel, s') => Qo s'
    end.

(** How many entries of [chunks_info] are marked cleaned. *)
Definition cleaned_infos (l : Log.t) : nat :=
  length (List.filter Log.cleaned (Log.chunks_info l)).

(** The state right after [log_data] is created. *)
Definition started (s : state) : Prop :=
  log_file s = None /\ Log.chunks_info (log_data s) = [].

(** The state once the chunk list is recorded, before the chunks are
    written. *)
Definition recorded (chunks : list str) (s : state) : Prop :=
  log_file s = None
  /\ Log.chunks_info (log_data s) = []
  /\ var_chunks s = Some chunks
  /\ Log.total_chunks (log_data s) = Some (length chunks).

(** What the transform loop keeps, whatever fails: after [i] chunks
    [chunks_info] holds one entry for each of them, in order, and the
    counter [cleaned_chunks] is not below the number of entries marked
    cleaned, plus [pending] when the chunk in hand is counted and not yet
    recorded. *)
Definition transforming (chunks : list str) (i pending : nat) (s : state) : Prop :=
  log_file s = None
  /\ var_chunks s = Some chunks
  /\ Log.total_chunks (log_data s) = Some (length chunks)
  /\ map Log.chunk_number (Log.chunks_info (log_data s)) = seq 1 i
  /\ exists c, var_cleaned_chunks s = Some c
               /\ (cleaned_infos (log_data s) + pending <= c)%nat.

(** A log of a document that went through. *)
Definition log_completed (lg : Log.t) (chunks : list str) (c : nat) : Prop :=
  Log.status lg = lit "completed"
  /\ Log.cleaned_chunks lg = Some c
  /\ Log.total_chunks lg = Some (length chunks)
  /\ map Log.chunk_number (Log.chunks_info lg) = seq 1 (length chunks)
  /\ (cleaned_infos lg <= c)%nat.

(** The entries of [chunks_info] are numbered 1, 2, ... in order. *)
Definition log_numbered (lg : Log.t) : Prop :=
  exists i, map Log.chunk_number (Log.chunks_info lg) = seq 1 i.

(** A log of a document whose [try] suite raised. *)
Definition log_failed (lg : Log.t) : Prop :=
  Log.status lg = lit "failed" /\ Log.errors lg <> [] /\ log_numbered lg.

(** The state in which the [try] suite is left by an exception. *)
Definition failing (s : state) : Prop :=
  log_file s = None /\ log_numbered (log_data s).

(** The state in which the [try] statement is left for its [finally]
    suite: the suite went through, or the handler ran. *)
Definition tried (s : state) : Prop :=
  log_file s = None
  /\ ((exists chunks c,
         var_chunks s = Some chunks /\ var_cleaned_chunks s = Some c
         /\ output_file s <> None
         /\ log_completed (log_data s) chunks c)
      \/ log_failed (log_data s)).

(** The state after a [finally] suite that wrote the log. *)
Definition closed (s : state) : Prop :=
  exists lg,
    log_file s = Some lg
    /\ Log.end_time lg <> None /\ Log.processing_time lg <> None
    /\ ((exists chunks c,
           var_chunks s = Some chunks /\ var_cleaned_chunks s = Some c
           /\ output_file s <> None
           /\ log_completed lg chunks c)
        \/ log_failed lg).

(** What holds of the result and the written log when the worker returns. *)
Definition returned (r : nat * nat) (s : state) : Prop :=
  forall lg, log_file s = Some lg ->
    Log.end_time lg <> None /\ Log.processing_time lg <> None
    /\ ((exists chunks,
           r = (fst r, length chunks)
           /\ output_file s <> None
           /\ log_completed lg chunks (fst r))
        \/ log_failed lg).

(** What holds of the written log when the worker raises. *)
Definition raised (s : state) : Prop :=
  forall lg, log_file s = Some lg ->
    Log.end_time lg <> None /\ Log.processing_time lg <> None /\ log_failed lg.

(** *** The answered document *)

(** The service answers the first [n] calls: none of them fails with an
    error that is not a rejection. *)
Definition answers (E : env) (n : nat) : Prop :=
  forall k, (k < n)%nat -> transient (service E k) = false.

(** The result of every chunk when each call is answered: chunk [k + 1],
    as read back from its file, gets the answer of call [k]. *)
Definition results (E : env) (chunks : list str) : list (str * bool) :=
  imap (fun k chunk => answer (universal_newlines chunk) (service E k)) chunks.

(** What recombination reads: each result was written with the separator
    after it, and is read back in text mode. *)
Definition read_back (rs : list str) : str :=
  concat (map (fun r => universal_newlines (r ++ separator)) rs).

(** The entries of [chunks_info] that go with these results. *)
Definition chunk_infos (E : env) (chunks : list str) : list Log.chunk_info :=
  imap (fun k chunk =>
          Log.ChunkInfo (k + 1) (len (universal_newlines chunk))
            (len (fst (answer (universal_newlines chunk) (service E k))))
            (snd (answer (universal_newlines chunk) (service E k))))
       chunks.

(** How many results are marked cleaned. *)
Definition cleaned_count (rs : list (str * bool)) : nat :=
  length (List.filter snd rs).

(** [P] does not look at the clock, the limiter, the trace or the count
    of file operations; it may look at the count of service calls. *)
Definition about_calls (P : state -> Prop) : Prop :=
  forall s clk calls tr io,
    P s ->
    P (State clk calls tr (api_calls s) io (chunk_files s) (output_file s) (log_file s)
             (log_data s) (var_chunks s) (var_cleaned_chunks s)).

(** The transform loop of an answered document: [calls] calls are made,
    the results of the first [counted] chunks are counted, those of the
    first [written] are in the chunk files, those of the first
    [logged] are in the log. *)
Definition answering (E : env) (chunks : list str)
    (calls counted written logged : nat) (s : state) : Prop :=
  api_calls s = calls
  /\ var_chunks s = Some chunks
  /\ var_cleaned_chunks s = Some (cleaned_count (take counted (results E chunks)))
  /\ Log.total_chunks (log_data s) = Some (length chunks)
  /\ Log.errors (log_data s) = []
  /\ Log.chunks_info (log_data s) = take logged (chunk_infos E chunks)
  /\ log_file s = None
  /\ forall j c, chunks !! j = Some c ->
       chunk_files s !! S j
       = Some (if (j <? written)%nat
               then fst (answer (universal_newlines c) (service E j)) ++ separator
               else c).

(** The state in which an answered document leaves its [try] suite. *)
Definition answered_done (E : env) (chunks : list str) (s : state) : Prop :=
  api_calls s = length chunks
  /\ var_chunks s = Some chunks
  /\ var_cleaned_chunks s = Some (cleaned_count (results E chunks))
  /\ output_file s = Some (read_back (map fst (results E chunks)))
  /\ log_file s = None
  /\ Log.status (log_data s) = lit "completed"
  /\ Log.cleaned_chunks (log_data s) = Some (cleaned_count (results E chunks))
  /\ Log.total_chunks (log_data s) = Some (length chunks)
  /\ Log.errors (log_data s) = []
  /\ Log.chunks_info (log_data s) = chunk_infos E chunks.

(** The state of an answered document right after chunking: no call is
    made, the chunk list and its length are recorded, nothing has failed,
    no log file is written. *)
Definition answered_chunked (chunks : list str) (s : state) : Prop :=
  api_calls s = O
  /\ var_chunks s = Some chunks
  /\ Log.total_chunks (log_data s) = Some (length chunks)
  /\ Log.errors (log_data s) = []
  /\ Log.chunks_info (log_data s) = []
  /\ log_file s = None.

(** The state in which the worker of an answered document starts its
    [try] suite. *)
Definition answered_start (s : state) : Prop :=
  api_calls s = O
  /\ Log.errors (log_data s) = []
  /\ Log.chunks_info (log_data s) = []
  /\ log_file s = None.

(** What the log file of an answered document holds. *)
Definition answered_log (E : env) (chunks : list str) (lg : Log.t) : Prop :=
  Log.status lg = lit "completed"
  /\ Log.errors lg = []
  /\ Log.total_chunks lg = Some (length chunks)
  /\ Log.cleaned_chunks lg = Some (cleaned_count (results E chunks))
  /\ Log.chunks_info lg = chunk_infos E chunks.

(** A document of two blank lines. *)
Definition blank_doc (name : str) : env :=
  Env (name ++ lit ".txt") name
      (fun _ => Decoded (lit " " ++ [NL]))
      (fun _ => Response [lit "clean"])
      (fun _ => None).

(** A one-chunk document on a disk that refuses one write: the result of
    the first round of the loop cannot be written (operation 0 is
    [os.makedirs], 1 the write of the chunk, 2 its read, 3 the write of
    the result). *)
Definition write_fault_doc (name text : str) : env :=
  Env (name ++ lit ".txt") name
      (fun _ => Decoded text)
      (fun _ => Response [lit "clean"])
      (fun k => if (k =? 3)%nat then Some (OSError (lit "[Errno 5] Input/output error"))
                else None).

(** ** get_user_input (source lines 45-64)

    The paths are those of a POSIX system, where [os.path] is
    [posixpath]. The lines typed at the prompt are given as a list;
    [input()] raises [EOFError] when there is none left. *)

Definition SLASH : char := 47%N.

(** [s.endswith(suffix)]. *)
Definition endswith (suffix s : str) : bool := starts_with (rev suffix) (rev s).

(** [name.lower().endswith('.txt')]. As for the rejection test, lowering
    the ASCII letters is enough: no other character lowers to a dot, a
    [t] or an [x]. *)
Definition is_txt (name : str) : bool := endswith (lit ".txt") (lower name).

(** [os.path.join(a, b)]. *)
Definition path_join (a b : str) : str :=
  if starts_with [SLASH] b then b
  else if negb (truthy a) || endswith [SLASH] a then a ++ b
  else a ++ SLASH :: b.

Fixpoint lstrip_slash (s : str) : str :=
  match s with
  | [] => []
  | c :: s' => if N.eqb c SLASH then lstrip_slash s' else s
  end.

(** The part of a reversed path from its first slash on. *)
Fixpoint from_slash (s : str) : str :=
  match s with
  | [] => []
  | c :: s' => if N.eqb c SLASH then s else from_slash s'
  end.

(** [os.path.dirname(p)]: [p] up to its last slash, without the slashes
    that end it unless it is made of slashes only. *)
Definition dirname (p : str) : str :=
  let head := rev (from_slash (rev p)) in
  if truthy head && negb (forallb (N.eqb SLASH) head)
  then rev (lstrip_slash (rev head))
  else head.

(** What the file system answers to [os.path.isfile], [os.path.isdir]
    and [os.listdir]. *)
Record file_system : Type := FileSystem {
  isfile : str -> bool;
  isdir : str -> bool;
  listdir : str -> exn + list str
}.

(** The loop of [get_user_input]: one round for each line typed. *)
Fixpoint get_user_input (F : file_system) (inputs : list str) : exn + (list str * str) :=
  match inputs with
  | [] => inl (OtherException (lit "EOF when reading a line"))
  | line :: inputs' =>
      let path := strip line in
      if isfile F path && is_txt path then inr ([path], dirname path)
      else if isdir F path then
        match listdir F path with
        | inl e => inl e
        | inr names =>
            let txt_files := map (path_join path) (List.filter is_txt names) in
            if truthy txt_files then inr (txt_files, path)
            else get_user_input F inputs'
        end
      else get_user_input F inputs'
  end.

(** A file system with one folder, [docs], that holds a text file, a
    file of another kind and a folder whose name ends in [.TXT]. *)
Definition docs_fs : file_system :=
  FileSystem
    (fun p => bool_decide (p = lit "docs/a.txt"))
    (fun p => bool_decide (p = lit "docs"))
    (fun p => if bool_decide (p = lit "docs")
              then inr [lit "a.txt"; lit "notes.md"; lit "old.TXT"]
              else inl (OSError (lit "[Errno 2] No such file or directory"))).

(** *** Documents read under a fallback encoding *)




(** A document whose service answers with a text of two lines, the line
    end being a carriage return and a newline. *)
Definition crlf_doc (name text : str) : env :=
  Env (name ++ lit ".txt") name
      (fun _ => Decoded text)
      (fun _ => Response [lit "a" ++ CR :: NL :: lit "b"])
      (fun _ => None).

(** *** Chunk numbers *)

(** The chunk files that exist are those numbered 1 to [j]. *)
Definition files_numbered (j : nat) (s : state) : Prop :=
  forall k, is_Some (chunk_files s !! k) <-> (1 <= k <= j)%nat.

(** The chunk files that exist are those numbered 1 to some [j] between
    [lo] and [hi]. *)
Definition files_numbered_within (lo hi : nat) (s : state) : Prop :=
  exists j, (lo <= j <= hi)%nat /\ files_numbered j s.

(** The chunk files are the chunks, each under its number: the chunk at
    position [k] of the list in file [k + 1], and no other file. *)
Definition files_hold (chunks : list str) (s : state) : Prop :=
  forall k, chunk_files s !! k = match k with O => None | S k' => chunks !! k' end.

(** The counter [cleaned_chunks] is not bound yet (line 204 binds it,
    after the chunks are written). *)
Definition not_counting (s : state) : Prop := var_cleaned_chunks s = None.

(** Once the counter is bound, the chunk files that exist are those
    numbered 1 to [n]. *)
Definition files_written (n : nat) (s : state) : Prop :=
  not_counting s \/ files_numbered n s.

(** [P] looks at the chunk files and at the counter [cleaned_chunks]
    only. *)
Definition about_chunk_files (P : state -> Prop) : Prop :=
  forall s s',
    chunk_files s' = chunk_files s -> var_cleaned_chunks s' = var_cleaned_chunks s ->
    P s -> P s'.

(** * Theorems *)

(** ** Chunker *)

Lemma split_nl_not_nil (s : str) : split_nl s <> [].
Proof.
  induction s as [|c s IH]; simpl; [discriminate|].
  destruct (N.eqb c NL); [discriminate|].
  destruct (split_nl s); discriminate.
Qed.

Lemma split_nl_app (a b : str) :
  split_nl (a ++ NL :: b) = split_nl a ++ split_nl b.
Proof.
  induction a as [|c a IH]; simpl; [reflexivity|].
  destruct (N.eqb c NL); [by rewrite IH|].
  rewrite IH. pose proof (split_nl_not_nil a).
  destruct (split_nl a); [congruence | reflexivity].
Qed.

Lemma split_nl_line (l : str) : no_nl l -> split_nl l = [l].
Proof.
  unfold no_nl. induction l as [|c l IH]; intros Hl; simpl; [reflexivity|].
  destruct (N.eqb_spec c NL) as [->|Hc].
  - exfalso. apply Hl. left.
  - rewrite IH; [reflexivity|]. intros Hin. apply Hl. by right.
Qed.

Lemma split_nl_no_nl (s : str) : Forall no_nl (split_nl s).
Proof.
  induction s as [|c s IH]; simpl.
  - repeat constructor. unfold no_nl. by intros ?%elem_of_nil.
  - destruct (N.eqb_spec c NL) as [->|Hc].
    + constructor; [|exact IH]. unfold no_nl. by intros ?%elem_of_nil.
    + destruct (split_nl s) as [|l ls]; [repeat constructor|].
      * unfold no_nl. intros [?|?%elem_of_nil]%elem_of_cons; [congruence|done].
      * inversion IH as [|? ? Hl Hls]; subst. constructor; [|exact Hls].
        unfold no_nl in *. intros [?|?]%elem_of_cons; [congruence|done].
Qed.

Lemma split_join_lines (ls : list str) :
  ls <> [] -> Forall no_nl ls -> split_nl (join_nl ls) = ls.
Proof.
  induction ls as [|l ls IH]; [done|]. intros _ Hall.
  inversion Hall as [|? ? Hl Hls]; subst.
  destruct ls as [|l' ls]; simpl.
  - by apply split_nl_line.
  - rewrite split_nl_app, (split_nl_line l Hl).
    simpl in IH. rewrite IH; [reflexivity|discriminate|exact Hls].
Qed.

Lemma split_join_chunks (cs : list str) :
  cs <> [] -> split_nl (join_nl cs) = lines_of cs.
Proof.
  unfold lines_of.
  induction cs as [|c cs IH]; [done|]. intros _.
  destruct cs as [|c' cs]; simpl.
  - by rewrite app_nil_r.
  - rewrite split_nl_app. simpl in IH. rewrite IH; [reflexivity|discriminate].
Qed.

Lemma lines_of_app (xs ys : list str) : lines_of (xs ++ ys) = lines_of xs ++ lines_of ys.
Proof. unfold lines_of. by rewrite map_app, concat_app. Qed.

Lemma truthy_true {A} (l : list A) : truthy l = true <-> l <> [].
Proof. destruct l; simpl; split; congruence. Qed.

Lemma chunk_step_inv (size : Z) (st : chunker) (seen : list str) (line : str) :
  no_nl line -> chunker_inv st seen ->
  chunker_inv (chunk_step size st line) (seen ++ [line])
  /\ current_chunk (chunk_step size st line) <> [].
Proof.
  intros Hline [Hseen Hcur]. unfold chunk_step, chunker_inv.
  destruct ((current_size st + len line >? size) && truthy (current_chunk st)) eqn:Hc; simpl.
  - apply andb_true_iff in Hc as [_ Hne%truthy_true].
    split; [split|discriminate].
    + rewrite lines_of_app. unfold lines_of at 2. simpl.
      rewrite (split_join_lines _ Hne Hcur), app_nil_r. by rewrite Hseen.
    + by repeat constructor.
  - split; [split|].
    + by rewrite app_assoc, Hseen.
    + apply Forall_app. split; [done|by repeat constructor].
    + by destruct (current_chunk st).
Qed.

Lemma chunk_fold_inv (size : Z) (lines : list str) (st : chunker) (seen : list str) :
  Forall no_nl lines -> chunker_inv st seen ->
  chunker_inv (fold_left (chunk_step size) lines st) (seen ++ lines).
Proof.
  revert st seen. induction lines as [|l lines IH]; intros st seen Hall Hinv; simpl.
  - by rewrite app_nil_r.
  - inversion Hall as [|? ? Hl Hls]; subst.
    destruct (chunk_step_inv size st seen l Hl Hinv) as [Hinv' _].
    specialize (IH _ _ Hls Hinv'). by rewrite <- app_assoc in IH.
Qed.

(** Before the filter, the chunks hold every line of the text, once and
    in order. *)
Lemma chunk_text_raw_lines (text : str) (size : Z) :
  lines_of (chunk_text_raw text size) = split_nl text.
Proof.
  unfold chunk_text_raw.
  destruct (chunk_fold_inv size (split_nl text) (Chunker [] [] 0) [] (split_nl_no_nl text))
    as [Hseen Hcur].
  { split; [reflexivity|constructor]. }
  simpl in Hseen.
  set (st := fold_left (chunk_step size) (split_nl text) (Chunker [] [] 0)) in *.
  destruct (truthy (current_chunk st)) eqn:Ht.
  - apply truthy_true in Ht. rewrite lines_of_app, <- Hseen. f_equal.
    unfold lines_of. simpl. by rewrite (split_join_lines _ Ht Hcur), app_nil_r.
  - rewrite <- Hseen. destruct (current_chunk st); [by rewrite app_nil_r|discriminate].
Qed.

Lemma chunk_text_raw_not_nil (text : str) (size : Z) : chunk_text_raw text size <> [].
Proof.
  intros H. pose proof (chunk_text_raw_lines text size) as HL.
  rewrite H in HL. by apply (split_nl_not_nil text).
Qed.

(** *** Trimming *)

Lemma lstrip_nil (s : str) : lstrip s = [] <-> forallb isspace s = true.
Proof.
  induction s as [|c s IH]; simpl; [done|].
  destruct (isspace c); simpl; [exact IH|]. split; discriminate.
Qed.

Lemma lstrip_suffix (s : str) : exists p, s = p ++ lstrip s /\ forallb isspace p = true.
Proof.
  induction s as [|c s [p [Hp Hsp]]]; simpl.
  - by exists [].
  - destruct (isspace c) eqn:Hc.
    + exists (c :: p). simpl. rewrite Hc, Hsp. split; [by f_equal|done].
    + by exists [].
Qed.

Lemma forallb_rev {A} (f : A -> bool) (l : list A) : forallb f (rev l) = forallb f l.
Proof.
  induction l as [|x l IH]; simpl; [done|].
  rewrite forallb_app, IH. simpl. rewrite andb_true_r. apply andb_comm.
Qed.

(** [strip] leaves nothing exactly when every character is white space. *)
Lemma strip_nil (s : str) : strip s = [] <-> forallb isspace s = true.
Proof.
  unfold strip, rstrip. split.
  - intros H. apply (f_equal (@rev char)) in H. rewrite rev_involutive in H. simpl in H.
    apply lstrip_nil in H. rewrite forallb_rev in H.
    destruct (lstrip_suffix s) as [p [Hp Hsp]]. rewrite Hp, forallb_app, Hsp. exact H.
  - intros H. apply lstrip_nil in H. by rewrite H.
Qed.

Lemma nonblank_false (s : str) : nonblank s = false <-> forallb isspace s = true.
Proof.
  unfold nonblank. rewrite <- strip_nil. destruct (strip s); simpl; split; congruence.
Qed.

Lemma split_nl_blank (s : str) :
  forallb isspace s = true -> Forall (fun l => nonblank l = false) (split_nl s).
Proof.
  induction s as [|c s IH]; simpl; intros H.
  - by repeat constructor.
  - apply andb_true_iff in H as [Hc Hs]. specialize (IH Hs).
    destruct (N.eqb c NL); [by constructor|].
    destruct (split_nl s) as [|l ls]; [repeat constructor|].
    + apply nonblank_false. simpl. by rewrite Hc.
    + inversion IH as [|? ? Hl Hls]; subst. constructor; [|done].
      apply nonblank_false. simpl. rewrite Hc. by apply nonblank_false.
Qed.

Lemma filter_all_false {A} (f : A -> bool) (l : list A) :
  Forall (fun x => f x = false) l -> List.filter f l = [].
Proof. induction 1 as [|x l Hx _ IH]; simpl; [done|by rewrite Hx]. Qed.

Lemma filter_all_true {A} (f : A -> bool) (l : list A) :
  Forall (fun x => f x = true) l -> List.filter f l = l.
Proof. induction 1 as [|x l Hx _ IH]; simpl; [done|by rewrite Hx, IH]. Qed.

(** Dropping whitespace-only chunks removes lines but neither moves nor
    repeats any. *)
Lemma lines_of_filter_sublist (cs : list str) :
  lines_of (List.filter nonblank cs) `sublist_of` lines_of cs.
Proof.
  induction cs as [|c cs IH]; simpl; [done|].
  destruct (nonblank c).
  - change (lines_of (c :: ?l)) with (split_nl c ++ lines_of l). by apply sublist_app.
  - change (lines_of (c :: ?l)) with (split_nl c ++ lines_of l). by apply sublist_inserts_l.
Qed.

(** The lines that go are white space only. *)
Lemma lines_of_filter_nonblank (cs : list str) :
  List.filter nonblank (lines_of (List.filter nonblank cs))
  = List.filter nonblank (lines_of cs).
Proof.
  induction cs as [|c cs IH]; simpl; [done|].
  change (lines_of (c :: ?l)) with (split_nl c ++ lines_of l).
  destruct (nonblank c) eqn:Hc.
  - change (lines_of (c :: ?l)) with (split_nl c ++ lines_of l).
    by rewrite !List.filter_app, IH.
  - rewrite List.filter_app, IH.
    apply nonblank_false, split_nl_blank, filter_all_false in Hc. by rewrite Hc.
Qed.

(** *** What survives the filter *)

(** The lines of the retained chunks are lines of the text, in their
    order and none twice. *)
Lemma chunk_text_lines_sublist (T : str) (S : Z) :
  lines_of (chunk_text T S) `sublist_of` split_nl T.
Proof.
  rewrite <- (chunk_text_raw_lines T S). apply lines_of_filter_sublist.
Qed.

(** Every line with a character that is not white space is retained. *)
Lemma chunk_text_keeps_nonblank_lines (T : str) (S : Z) :
  List.filter nonblank (lines_of (chunk_text T S)) = List.filter nonblank (split_nl T).
Proof.
  rewrite <- (chunk_text_raw_lines T S). apply lines_of_filter_nonblank.
Qed.

(** Claim C4, as amended: for every text and every target size, when
    [chunk_text] drops no chunk as white space only, joining its chunks
    with a newline and splitting the result on newlines gives back the
    line sequence of the text. The chunk list is the value of a function
    of the text and the size, hence the same on every call. *)
Theorem chunk_text_roundtrip (T : str) (S : Z) :
  Forall (fun chunk => strip chunk <> []) (chunk_text_raw T S) ->
  split_nl (join_nl (chunk_text T S)) = split_nl T.
Proof.
  intros Hall. unfold chunk_text.
  change (fun chunk : str => truthy (strip chunk)) with nonblank.
  rewrite filter_all_true.
  - rewrite split_join_chunks; [apply chunk_text_raw_lines | apply chunk_text_raw_not_nil].
  - eapply Forall_impl; [exact Hall|]. intros c Hc. by apply truthy_true.
Qed.

(** The text ["ab\ncd"] at size 1: chunks ["ab"] and ["cd"], none dropped. *)
Lemma chunk_text_roundtrip_witness :
  Forall (fun chunk => strip chunk <> []) (chunk_text_raw (lit "ab" ++ NL :: lit "cd") 1)
  /\ split_nl (join_nl (chunk_text (lit "ab" ++ NL :: lit "cd") 1))
     = split_nl (lit "ab" ++ NL :: lit "cd").
Proof.
  assert (H : Forall (fun chunk => strip chunk <> [])
                     (chunk_text_raw (lit "ab" ++ NL :: lit "cd") 1)).
  { vm_compute. repeat constructor; discriminate. }
  split; [exact H | exact (chunk_text_roundtrip _ _ H)].
Defined.

(** Claim C4 as stated fails: the text ["ab\n\ncd"] at size 1 is cut into
    ["ab"], [""] and ["cd"], the empty chunk is dropped, and the rejoined
    chunks have two lines where the text has three. *)
Lemma chunk_text_loses_blank_line :
  split_nl (join_nl (chunk_text (lit "ab" ++ NL :: NL :: lit "cd") 1))
  <> split_nl (lit "ab" ++ NL :: NL :: lit "cd").
Proof. vm_compute. discriminate. Qed.

(** The same at the default size: a document that is one empty line
    followed by a newline has two lines, and no chunk. *)
Example chunk_text_blank_document :
  chunk_text [NL] default_chunk_size = []
  /\ split_nl (join_nl (chunk_text [NL] default_chunk_size)) = [[]]
  /\ split_nl [NL] = [[]; []].
Proof. repeat split. Qed.

(** The scenario of three short lines: one chunk, under the size. *)
Example chunk_text_three_lines :
  chunk_text (lit "Hello world" ++ NL :: lit "Page 7" ++ NL :: lit "Hello again" ++ [NL])
             default_chunk_size
  = [lit "Hello world" ++ NL :: lit "Page 7" ++ NL :: lit "Hello again" ++ [NL]].
Proof. reflexivity. Qed.

(** ** RateLimiter *)

(** *** The gate lets every call through *)

Lemma Qltb_true (a b : Q) : Qltb a b = true <-> (a < b)%Q.
Proof.
  unfold Qltb. rewrite negb_true_iff, <- not_true_iff_false, Qle_bool_iff.
  split; [apply Qnot_le_lt | apply Qlt_not_le].
Qed.

Lemma Qltb_false (a b : Q) : Qltb a b = false <-> (b <= a)%Q.
Proof. unfold Qltb. by rewrite negb_false_iff, Qle_bool_iff. Qed.

Lemma filter_head {A} (f : A -> bool) (l : list A) (x : A) (rest : list A) :
  List.filter f l = x :: rest -> f x = true.
Proof.
  intros H. assert (Hin : In x (List.filter f l)) by (rewrite H; by left).
  by apply filter_In in Hin as [_ ?].
Qed.

Lemma backoff_sleeps_app (tr tr' : list event) :
  backoff_sleeps (tr ++ tr') = backoff_sleeps tr ++ backoff_sleeps tr'.
Proof.
  induction tr as [|ev tr IH]; simpl; [done|].
  destruct ev; simpl; by rewrite IH.
Qed.

Lemma call_starts_app (tr tr' : list event) :
  call_starts (tr ++ tr') = call_starts tr ++ call_starts tr'.
Proof.
  induction tr as [|ev tr IH]; simpl; [done|].
  destruct ev; simpl; by rewrite IH.
Qed.

(** With a positive [max_calls] the gate raises nothing: when it sleeps,
    the oldest retained timestamp is younger than [period], so the sleep
    length is positive. It touches the clock, the timestamp list and the
    trace only. *)
Lemma gate_run (self : RateLimiter) (s : state) :
  0 < max_calls self ->
  exists clk calls tr,
    gate self s = (Val tt, retimed clk calls tr s)
    /\ backoff_sleeps tr = backoff_sleeps (trace s).
Proof.
  intros Hpos. destruct s as [clk calls tr api io files out logf logd vch vcl].
  unfold gate, bind, time_time, gets, modify, ret. simpl.
  destruct (len (List.filter (fun t => Qltb (clk - t) (period self)) calls) >=? max_calls self)
    eqn:Hfull.
  - destruct (List.filter (fun t => Qltb (clk - t) (period self)) calls) as [|t0 kept] eqn:Hkept.
    + exfalso. unfold len in Hfull. simpl in Hfull. apply Z.geb_le in Hfull. lia.
    + apply filter_head in Hkept as Hyoung. apply Qltb_true in Hyoung.
      unfold sleep.
      assert (Hs : Qltb (period self - (clk - t0)) 0 = false).
      { apply Qltb_false. lra. }
      rewrite Hs. unfold modify. simpl.
      eexists _, _, _. split; [reflexivity|]. simpl.
      rewrite backoff_sleeps_app. simpl. by rewrite app_nil_r.
  - simpl. eexists _, _, _. split; [reflexivity|done].
Qed.

Lemma rate_limiter_positive : 0 < max_calls rate_limiter.
Proof. reflexivity. Qed.

(** The gated function runs in a state that differs from the caller's in
    timing only. *)
Lemma wrapper_run {A} (func : M A) (s : state) :
  exists clk calls tr,
    wrapper rate_limiter func s = func (retimed clk calls tr s)
    /\ backoff_sleeps tr = backoff_sleeps (trace s).
Proof.
  destruct (gate_run rate_limiter s rate_limiter_positive) as (clk & calls & tr & Hg & Hb).
  unfold wrapper, bind. rewrite Hg. unfold time_time, gets, modify. simpl.
  eexists clk, calls, _. split; [reflexivity|].
  rewrite backoff_sleeps_app. simpl. by rewrite app_nil_r.
Qed.

(** *** The window *)

(** [RateLimiter(2, 10)], callers reaching the gate at 0, 1, 2, 11 and
    12: the third call finds two timestamps in the window and sleeps until
    10, but what the gate records for it is 2, the time before the sleep.
    At 11 and 12 the recorded 0, 1 and then 2 have left the window, so
    both calls pass: three calls start in the window (2, 12]. *)
Lemma small_limiter_run :
  fst (gated_calls small_limiter [0; 1; 2; 11; 12]%Q initial_state) = Val tt
  /\ call_starts (trace (snd (gated_calls small_limiter [0; 1; 2; 11; 12]%Q initial_state)))
     = [0; 1; 10; 11; 12]%Q
  /\ rl_calls (snd (gated_calls small_limiter [0; 1; 2]%Q initial_state)) = [0; 1; 2]%Q
  /\ starts_in_window [0; 1; 10; 11; 12]%Q 12 10 = 3%nat.
Proof. repeat split. Qed.

(** What does hold: a call that finds the window full sleeps, and for
    exactly the time the oldest retained timestamp needs to leave it. *)
Lemma gate_blocks_when_full (self : RateLimiter) (s : state) (t0 : Q) (kept : list Q) :
  List.filter (fun t => Qltb (clock s - t) (period self)) (rl_calls s) = t0 :: kept ->
  max_calls self <= len (t0 :: kept) ->
  exists s', gate self s = (Val tt, s')
             /\ (clock s' == t0 + period self)%Q
             /\ (clock s < clock s')%Q
             /\ rl_calls s' = t0 :: kept ++ [clock s].
Proof.
  intros Hkept Hfull. apply filter_head in Hkept as Hyoung. apply Qltb_true in Hyoung.
  destruct s as [clk calls tr api io files out logf logd vch vcl]. simpl in *.
  unfold gate, bind, time_time, gets, modify, ret. simpl. rewrite Hkept.
  apply Z.geb_le in Hfull. rewrite Hfull. unfold sleep.
  assert (Hs : Qltb (period self - (clk - t0)) 0 = false) by (apply Qltb_false; lra).
  rewrite Hs. unfold modify. simpl.
  eexists. split; [reflexivity|]. simpl. split; [ring|]. split; [lra|done].
Qed.

(** *** The limiter of the program, [RateLimiter(999, 60)] *)

Lemma Qmax_same (t : Q) : Qmax t t = t.
Proof. unfold Qmax, GenericMinMax.gmax. by destruct (t ?= t)%Q. Qed.

Lemma filter_repeat_true {A} (f : A -> bool) (x : A) (n : nat) :
  f x = true -> List.filter f (repeat x n) = repeat x n.
Proof. intros Hx. induction n as [|n IH]; simpl; [done|]. by rewrite Hx, IH. Qed.

Lemma filter_repeat_false {A} (f : A -> bool) (x : A) (n : nat) :
  f x = false -> List.filter f (repeat x n) = [].
Proof. intros Hx. induction n as [|n IH]; simpl; [done|]. by rewrite Hx. Qed.

Lemma repeat_snoc {A} (x : A) (n : nat) : repeat x n ++ [x] = repeat x (S n).
Proof. induction n as [|n IH]; simpl; [done|]. by rewrite IH. Qed.

Lemma gated_calls_app (self : RateLimiter) (l1 l2 : list Q) (s s1 : state) :
  gated_calls self l1 s = (Val tt, s1) ->
  gated_calls self (l1 ++ l2) s = gated_calls self l2 s1.
Proof.
  revert s. induction l1 as [|t l1 IH]; intros s; simpl.
  - unfold ret. by intros [= ->].
  - unfold bind. destruct (wait_until t s) as [[[]|e|] s']; [|discriminate..].
    destruct (wrapper self (ret tt) s') as [[[]|e|] s'']; [|discriminate..].
    apply IH.
Qed.

(** One call that finds [j < 999] timestamps, all equal to the present
    clock [t], passes at once and adds its own. *)
Lemma call_admitted (t : Q) (j : nat) (s : state) :
  clock s = t -> rl_calls s = repeat t j -> (j < 999)%nat ->
  exists s', gated_calls rate_limiter [t] s = (Val tt, s')
             /\ clock s' = t /\ rl_calls s' = repeat t (S j)
             /\ call_starts (trace s') = call_starts (trace s) ++ [t].
Proof.
  intros Hclk Hcalls Hj.
  destruct s as [clk calls tr api io files out logf logd vch vcl]. simpl in *. subst.
  assert (Hyoung : Qltb (t - t) (period rate_limiter) = true).
  { apply Qltb_true. simpl. lra. }
  assert (Hroom : (len (repeat t j) >=? max_calls rate_limiter) = false).
  { unfold len. rewrite repeat_length, Z.geb_leb. apply Z.leb_gt. simpl. lia. }
  unfold gated_calls, wrapper, gate, wait_until, bind, time_time, gets, modify, ret.
  cbn [clock set_clock rl_calls set_rl_calls add_event trace].
  rewrite Qmax_same.
  rewrite (filter_repeat_true (fun u => Qltb (t - u) (period rate_limiter)) t j Hyoung).
  rewrite Hroom. cbn [clock set_clock rl_calls set_rl_calls add_event trace].
  rewrite repeat_snoc.
  eexists. split; [reflexivity|]. cbn. split; [done|]. split; [done|].
  rewrite call_starts_app. simpl. done.
Qed.

Lemma burst_admitted (t : Q) (k j : nat) (s : state) :
  clock s = t -> rl_calls s = repeat t j -> (j + k <= 999)%nat ->
  exists s', gated_calls rate_limiter (repeat t k) s = (Val tt, s')
             /\ clock s' = t /\ rl_calls s' = repeat t (j + k)
             /\ call_starts (trace s') = call_starts (trace s) ++ repeat t k.
Proof.
  revert j s. induction k as [|k IH]; intros j s Hclk Hcalls Hjk.
  - exists s. simpl. rewrite Nat.add_0_r, app_nil_r. by repeat split.
  - destruct (call_admitted t j s Hclk Hcalls) as (s1 & Hrun1 & Hclk1 & Hcalls1 & Hst1); [lia|].
    destruct (IH (S j) s1 Hclk1 Hcalls1) as (s2 & Hrun2 & Hclk2 & Hcalls2 & Hst2); [lia|].
    exists s2. split; [|split; [done|split]].
    + change (repeat t (S k)) with ([t] ++ repeat t k).
      by rewrite (gated_calls_app _ _ _ _ _ Hrun1).
    + rewrite Hcalls2. f_equal. lia.
    + rewrite Hst2, Hst1, <- app_assoc. done.
Qed.

(** The call that finds 999 timestamps at clock 0 sleeps until 60 and
    records 0. *)
Lemma call_blocked (s : state) :
  clock s = 0%Q -> rl_calls s = repeat 0%Q 999 ->
  exists s', gated_calls rate_limiter [0%Q] s = (Val tt, s')
             /\ clock s' = 60%Q /\ rl_calls s' = repeat 0%Q 1000
             /\ call_starts (trace s') = call_starts (trace s) ++ [60%Q].
Proof.
  intros Hclk Hcalls.
  destruct s as [clk calls tr api io files out logf logd vch vcl].
  cbn [clock rl_calls] in Hclk, Hcalls. subst.
  unfold gated_calls, wrapper, gate, wait_until, bind, time_time, gets, modify, ret.
  cbn [clock set_clock rl_calls set_rl_calls add_event trace].
  rewrite Qmax_same.
  rewrite (filter_repeat_true (fun u => Qltb (0 - u) (period rate_limiter)) 0%Q 999 eq_refl).
  change (len (repeat 0%Q 999) >=? max_calls rate_limiter) with true.
  cbn iota. change (repeat 0%Q 999) with (0%Q :: repeat 0%Q 998) at 1. cbn iota beta.
  unfold sleep. change (Qltb (period rate_limiter - (0 - 0)) 0) with false. cbn iota.
  unfold modify. cbn [clock set_clock rl_calls set_rl_calls add_event trace].
  eexists. split; [reflexivity|]. cbn [clock rl_calls trace].
  split; [reflexivity|]. split; [apply (repeat_snoc 0%Q 999)|].
  cbn [clock set_clock rl_calls set_rl_calls add_event trace].
  rewrite !call_starts_app. simpl. rewrite app_nil_r. reflexivity.
Qed.

(** The next call, at clock 60, finds every recorded timestamp out of the
    window, the one of the call that started at 60 included. *)
Lemma call_after_block (s : state) :
  clock s = 60%Q -> rl_calls s = repeat 0%Q 1000 ->
  exists s', gated_calls rate_limiter [60%Q] s = (Val tt, s')
             /\ clock s' = 60%Q /\ rl_calls s' = repeat 60%Q 1
             /\ call_starts (trace s') = call_starts (trace s) ++ [60%Q].
Proof.
  intros Hclk Hcalls.
  destruct s as [clk calls tr api io files out logf logd vch vcl].
  cbn [clock rl_calls] in Hclk, Hcalls. subst.
  unfold gated_calls, wrapper, gate, wait_until, bind, time_time, gets, modify, ret.
  cbn [clock set_clock rl_calls set_rl_calls add_event trace].
  rewrite Qmax_same.
  rewrite (filter_repeat_false (fun u => Qltb (60 - u) (period rate_limiter)) 0%Q 1000 eq_refl).
  eexists. split; [reflexivity|]. cbn. split; [done|]. split; [done|].
  rewrite call_starts_app. simpl. done.
Qed.

(** A burst of 1000 calls at clock 0 followed by 999 calls at clock 60:
    the 1000th call is held until 60, and the 999 that follow all pass,
    so 1000 calls start at clock 60. *)
Lemma rate_limiter_burst :
  exists s', gated_calls rate_limiter (repeat 0%Q 1000 ++ repeat 60%Q 999) initial_state
             = (Val tt, s')
             /\ call_starts (trace s') = repeat 0%Q 999 ++ repeat 60%Q 1000.
Proof.
  destruct (burst_admitted 0 999 0 initial_state eq_refl eq_refl) as (s1 & R1 & C1 & L1 & T1);
    [lia|].
  destruct (call_blocked s1 C1 L1) as (s2 & R2 & C2 & L2 & T2).
  destruct (call_after_block s2 C2 L2) as (s3 & R3 & C3 & L3 & T3).
  destruct (burst_admitted 60 998 1 s3 C3 L3) as (s4 & R4 & C4 & L4 & T4); [lia|].
  exists s4. split.
  - rewrite <- (repeat_snoc 0%Q 999).
    change (repeat 60%Q 999) with ([60%Q] ++ repeat 60%Q 998).
    rewrite <- (app_assoc (repeat 0%Q 999)).
    rewrite (gated_calls_app _ _ _ _ _ R1), (gated_calls_app _ _ _ _ _ R2).
    by rewrite (gated_calls_app _ _ _ _ _ R3).
  - rewrite T4, T3, T2, T1. change (call_starts (trace initial_state)) with (@nil Q).
    rewrite app_nil_l, <- !app_assoc. reflexivity.
Qed.

Lemma window_of_burst :
  starts_in_window (repeat 0%Q 999 ++ repeat 60%Q 1000) 60 60 = 1000%nat.
Proof.
  unfold starts_in_window. rewrite List.filter_app.
  rewrite (filter_repeat_false (fun u => Qltb (60 - 60) u && Qle_bool u 60) 0%Q 999 eq_refl).
  rewrite (filter_repeat_true (fun u => Qltb (60 - 60) u && Qle_bool u 60) 60%Q 1000 eq_refl).
  apply repeat_length.
Qed.

(** Claim C7 (the code departs from it): more than [max_calls] gated
    calls can start within one window of length [period]. With
    [RateLimiter(2, 10)] and arrivals at 0, 1, 2, 11, 12, three calls
    start in (2, 12]. With the program's [RateLimiter(999, 60)], a burst
    of 1000 calls at clock 0 and 999 more at clock 60, 1000 calls start in
    (0, 60]. *)
Theorem rate_limiter_window_exceeded :
  (starts_in_window
     (call_starts (trace (snd (gated_calls small_limiter [0; 1; 2; 11; 12]%Q initial_state))))
     12 (period small_limiter) = 3%nat
   /\ max_calls small_limiter < 3)
  /\ (exists s', gated_calls rate_limiter (repeat 0%Q 1000 ++ repeat 60%Q 999) initial_state
                  = (Val tt, s')
                  /\ starts_in_window (call_starts (trace s')) 60 (period rate_limiter)
                     = 1000%nat
                  /\ max_calls rate_limiter < 1000).
Proof.
  split; [by split|].
  destruct rate_limiter_burst as (s' & Hrun & Hstarts).
  exists s'. split; [exact Hrun|]. rewrite Hstarts. split; [apply window_of_burst|done].
Qed.

(** ** RetryingInvoker *)

(** The outcome the source treats as a content-policy rejection: an
    [APIError] whose lowered text holds ["content filtering"]. *)
Lemma body_rejected (E : env) (chunk : str) (n total : nat) (s : state) (msg : str) :
  service E (api_calls s) = ServiceRaises (APIError msg) ->
  contains content_filtering (lower msg) = true ->
  clean_text_chunk_body E chunk n total s
  = (Val (chunk, false), set_api_calls (S (api_calls s)) s).
Proof.
  intros Hsvc Hcf. unfold clean_text_chunk_body, bind, gets, modify. simpl.
  rewrite Hsvc. simpl. by rewrite Hcf.
Qed.

Lemma body_transient (E : env) (chunk : str) (n total : nat) (s : state) (e : exn) :
  service E (api_calls s) = ServiceRaises e ->
  rejection e = false ->
  clean_text_chunk_body E chunk n total s
  = (Raise e, set_api_calls (S (api_calls s)) s).
Proof.
  intros Hsvc Hrej. unfold clean_text_chunk_body, bind, gets, modify. simpl.
  rewrite Hsvc. destruct e; try reflexivity.
  simpl in Hrej |- *. by rewrite Hrej.
Qed.

Lemma sleep_run (why : Q -> event) (d : Q) (s : state) :
  Qltb d 0 = false ->
  sleep why d s = (Val tt, retimed (clock s + d) (rl_calls s) (trace s ++ [why d]) s).
Proof. intros Hd. unfold sleep. rewrite Hd. by destruct s. Qed.

(** One attempt under the gate. *)
Lemma attempt_rejected (E : env) (chunk : str) (n total : nat) (s : state) (msg : str) :
  service E (api_calls s) = ServiceRaises (APIError msg) ->
  contains content_filtering (lower msg) = true ->
  exists clk calls tr,
    wrapper rate_limiter (clean_text_chunk_body E chunk n total) s
    = (Val (chunk, false), retimed clk calls tr (set_api_calls (S (api_calls s)) s))
    /\ backoff_sleeps tr = backoff_sleeps (trace s).
Proof.
  intros Hsvc Hcf.
  destruct (wrapper_run (clean_text_chunk_body E chunk n total) s) as (clk & calls & tr & Hw & Hb).
  exists clk, calls, tr. split; [|exact Hb].
  rewrite Hw. by rewrite (body_rejected E chunk n total _ msg).
Qed.

Lemma attempt_transient (E : env) (chunk : str) (n total : nat) (s : state) (e : exn) :
  service E (api_calls s) = ServiceRaises e ->
  rejection e = false ->
  exists clk calls tr,
    wrapper rate_limiter (clean_text_chunk_body E chunk n total) s
    = (Raise e, retimed clk calls tr (set_api_calls (S (api_calls s)) s))
    /\ backoff_sleeps tr = backoff_sleeps (trace s).
Proof.
  intros Hsvc Hrej.
  destruct (wrapper_run (clean_text_chunk_body E chunk n total) s) as (clk & calls & tr & Hw & Hb).
  exists clk, calls, tr. split; [|exact Hb].
  rewrite Hw. by rewrite (body_transient E chunk n total _ e).
Qed.

(** A rejection ends [clean_text_chunk] at its first attempt. *)
Lemma clean_text_chunk_rejected_run (E : env) (chunk : str) (n total : nat) (s : state)
    (msg : str) :
  service E (api_calls s) = ServiceRaises (APIError msg) ->
  contains content_filtering (lower msg) = true ->
  exists clk calls tr,
    clean_text_chunk E chunk n total s
    = (Val (chunk, false), retimed clk calls tr (set_api_calls (S (api_calls s)) s))
    /\ backoff_sleeps tr = backoff_sleeps (trace s).
Proof.
  intros Hsvc Hcf.
  destruct (attempt_rejected E chunk n total s msg Hsvc Hcf) as (clk & calls & tr & Hw & Hb).
  exists clk, calls, tr. split; [|exact Hb].
  unfold clean_text_chunk, retry. simpl. unfold try_except. by rewrite Hw.
Qed.

(** Claim C9: when the service answers a call with a content-policy
    rejection, [clean_text_chunk] returns the chunk it was given paired
    with [False]; it does so after that one call, with no backoff sleep,
    and returns normally, leaving the log untouched. *)
Theorem clean_text_chunk_rejection (E : env) (chunk : str) (n total : nat) (s : state)
    (msg : str) :
  service E (api_calls s) = ServiceRaises (APIError msg) ->
  contains content_filtering (lower msg) = true ->
  exists s',
    clean_text_chunk E chunk n total s = (Val (chunk, false), s')
    /\ api_calls s' = S (api_calls s)
    /\ backoff_sleeps (trace s') = backoff_sleeps (trace s)
    /\ log_data s' = log_data s.
Proof.
  intros Hsvc Hcf.
  destruct (clean_text_chunk_rejected_run E chunk n total s msg Hsvc Hcf)
    as (clk & calls & tr & Hrun & Hb).
  eexists. split; [exact Hrun|]. by destruct s.
Qed.

Lemma wait_1 : wait_exponential 1 4 10 1 = 4%Q.
Proof. reflexivity. Qed.

Lemma wait_2 : wait_exponential 1 4 10 2 = 4%Q.
Proof. reflexivity. Qed.

(** Claim C8, as amended: when the service keeps failing with an error
    that is not a rejection, [clean_text_chunk] calls it exactly 3 times
    and then raises [RetryError] around the last error, the one the third
    call raised; between the attempts it sleeps twice, 4 and 4 time
    units: the delays do not decrease and stay below the cap of 10. *)
Theorem clean_text_chunk_transient (E : env) (chunk : str) (n total : nat) (s : state) :
  (forall k, (k < 3)%nat ->
     exists e, service E (api_calls s + k) = ServiceRaises e /\ rejection e = false) ->
  exists e s' d1 d2,
    service E (api_calls s + 2) = ServiceRaises e
    /\ clean_text_chunk E chunk n total s = (Raise (RetryError e), s')
    /\ api_calls s' = (api_calls s + 3)%nat
    /\ backoff_sleeps (trace s') = backoff_sleeps (trace s) ++ [d1; d2]
    /\ d1 = 4%Q /\ d2 = 4%Q
    /\ (d1 <= d2)%Q /\ (d2 <= 10)%Q.
Proof.
  intros Hfail.
  destruct (Hfail 0%nat ltac:(lia)) as (e0 & H0 & R0).
  destruct (Hfail 1%nat ltac:(lia)) as (e1 & H1 & R1).
  destruct (Hfail 2%nat ltac:(lia)) as (e2 & H2 & R2). pose proof H2 as Hlast.
  rewrite Nat.add_0_r in H0. rewrite Nat.add_1_r in H1.
  replace (api_calls s + 2)%nat with (S (S (api_calls s))) in H2 by lia.
  destruct (attempt_transient E chunk n total s e0 H0 R0) as (c0 & l0 & t0 & W0 & B0).
  set (s1 := retimed c0 l0 t0 (set_api_calls (S (api_calls s)) s)) in *.
  pose proof (sleep_run BackoffSleep 4 s1 eq_refl) as Z1.
  set (s1' := retimed (clock s1 + 4) (rl_calls s1) (trace s1 ++ [BackoffSleep 4]) s1) in *.
  destruct (attempt_transient E chunk n total s1' e1) as (c1 & l1 & t1 & W1 & B1);
    [by destruct s | exact R1 |].
  set (s2 := retimed c1 l1 t1 (set_api_calls (S (api_calls s1')) s1')) in *.
  pose proof (sleep_run BackoffSleep 4 s2 eq_refl) as Z2.
  set (s2' := retimed (clock s2 + 4) (rl_calls s2) (trace s2 ++ [BackoffSleep 4]) s2) in *.
  destruct (attempt_transient E chunk n total s2' e2) as (c2 & l2 & t2 & W2 & B2);
    [by destruct s | exact R2 |].
  exists e2, (retimed c2 l2 t2 (set_api_calls (S (api_calls s2')) s2')), 4%Q, 4%Q.
  split; [exact Hlast|]. split; [|split; [|split; [|repeat split]]].
  - unfold clean_text_chunk, retry. cbn [retry_loop]. unfold try_except, bind.
    change (stop_after_attempt 3 1) with false.
    change (stop_after_attempt 3 2) with false.
    change (stop_after_attempt 3 3) with true.
    rewrite wait_1, wait_2.
    rewrite W0. cbv beta iota. rewrite Z1. cbv beta iota.
    rewrite W1. cbv beta iota. rewrite Z2. cbv beta iota.
    by rewrite W2.
  - destruct s. simpl. lia.
  - simpl. rewrite B2. subst s2'. simpl. rewrite backoff_sleeps_app, B1.
    subst s1'. simpl. rewrite backoff_sleeps_app, B0. simpl.
    by rewrite <- app_assoc.
  - discriminate.
  - discriminate.
Qed.

(** The three rounds given to the loop are enough: [retry] never runs out
    of them. *)
Lemma retry_never_out_of_fuel {A} (fn : M A) :
  (forall s, fst (fn s) <> OutOfFuel) -> forall s, fst (retry fn s) <> OutOfFuel.
Proof.
  intros Hfn s. unfold retry. cbn [retry_loop]. unfold try_except, bind.
  change (stop_after_attempt 3 1) with false.
  change (stop_after_attempt 3 2) with false.
  change (stop_after_attempt 3 3) with true.
  rewrite wait_1, wait_2.
  pose proof (Hfn s) as H1. destruct (fn s) as [[a|e|] s1]; [done| |done].
  rewrite (sleep_run BackoffSleep 4 s1 eq_refl).
  match goal with |- context [fn ?s2] => pose proof (Hfn s2) as H2; destruct (fn s2) as [[a|e'|] s3] end;
    [done| |done].
  rewrite (sleep_run BackoffSleep 4 s3 eq_refl).
  match goal with |- context [fn ?s4] => pose proof (Hfn s4) as H3; destruct (fn s4) as [[a|e''|] s5] end;
    done.
Qed.

(** *** Instances *)

(** A rejection at the first call. *)
Lemma clean_text_chunk_rejection_witness :
  service (rejected_doc (lit "a") (lit "a")) (api_calls initial_state)
  = ServiceRaises (APIError (lit "Output blocked by content filtering policy"))
  /\ contains content_filtering (lower (lit "Output blocked by content filtering policy")) = true
  /\ exists s',
       clean_text_chunk (rejected_doc (lit "a") (lit "a")) (lit "a") 1 1 initial_state
       = (Val (lit "a", false), s')
       /\ api_calls s' = 1%nat
       /\ backoff_sleeps (trace s') = [].
Proof.
  split; [reflexivity|]. split; [reflexivity|].
  destruct (clean_text_chunk_rejection (rejected_doc (lit "a") (lit "a")) (lit "a") 1 1
              initial_state _ eq_refl eq_refl) as (s' & Hrun & Hapi & Hb & _).
  exists s'. split; [exact Hrun|]. split; [exact Hapi|exact Hb].
Defined.

Lemma failing_doc_transient (name text : str) (k0 : nat) :
  forall k, (k < 3)%nat ->
    exists e, service (failing_doc name text) (k0 + k) = ServiceRaises e
              /\ rejection e = false.
Proof.
  intros k _. unfold failing_doc. cbn [service].
  destruct (k0 + k)%nat as [|[|m]]; eexists; split; reflexivity.
Qed.

(** A service that fails three times, each time with another error: the
    error that reaches the caller holds the third. *)
Lemma clean_text_chunk_transient_witness :
  (forall k, (k < 3)%nat ->
     exists e, service (failing_doc (lit "a") (lit "a")) (api_calls initial_state + k)
               = ServiceRaises e /\ rejection e = false)
  /\ exists s',
       clean_text_chunk (failing_doc (lit "a") (lit "a")) (lit "a") 1 1 initial_state
       = (Raise (RetryError (APIError (lit "Internal server error"))), s')
       /\ api_calls s' = 3%nat
       /\ backoff_sleeps (trace s') = [4; 4]%Q.
Proof.
  split; [apply failing_doc_transient|].
  destruct (clean_text_chunk_transient (failing_doc (lit "a") (lit "a")) (lit "a") 1 1
              initial_state (failing_doc_transient _ _ _))
    as (e & s' & d1 & d2 & Hlast & Hrun & Hapi & Hb & -> & -> & _).
  injection Hlast as <-.
  exists s'. split; [exact Hrun|]. split; [exact Hapi|exact Hb].
Defined.

(** Claim C8 as stated fails on its reading of the schedule: with a base
    delay of 4 that doubles, the second delay would be 8; the two delays
    are 4 and 4, because the doubling term 1, 2 lies below the minimum. *)
Lemma backoff_delays_do_not_double :
  fst (clean_text_chunk (overloaded_doc (lit "a") (lit "a")) (lit "a") 1 1 initial_state)
  = Raise (RetryError (APIError (lit "Overloaded")))
  /\ backoff_sleeps
       (trace (snd (clean_text_chunk (overloaded_doc (lit "a") (lit "a")) (lit "a") 1 1
                      initial_state)))
     = [4; 4]%Q
  /\ ~ (4 == 2 * 4)%Q.
Proof. split; [reflexivity|]. split; [reflexivity|]. discriminate. Qed.

(** *** The backoff schedule *)

(** Whatever the attempt number, the wait lies between 4 and 10 and does
    not decrease from one attempt to the next. *)
Lemma wait_exponential_schedule (n : nat) :
  (4 <= wait_exponential 1 4 10 n)%Q
  /\ (wait_exponential 1 4 10 n <= 10)%Q
  /\ (wait_exponential 1 4 10 n <= wait_exponential 1 4 10 (S n))%Q.
Proof.
  unfold wait_exponential. split; [|split].
  - eapply Qle_trans; [|apply Q.le_max_l]. apply Q.le_max_r.
  - apply Q.max_lub; [by apply Q.max_lub|apply Q.le_min_r].
  - apply Q.max_le_compat_l, Q.min_le_compat_r.
    apply Qmult_le_l; [done|]. apply Qpower_le_compat_l; [lia|done].
Qed.


(** ** FileProcessor: a document that cannot be read *)

Ltac run_monad :=
  unfold run_worker, process_text_file, try_finally, try_except, process_body,
    process_except, process_finally, read_file_with_fallback_encoding,
    load_cleaned_chunks, load_chunks, modify_log, io, bind, modify, gets,
    time_time, ret, raise.

(** Whatever the file system does, [process_text_file] leaves by an
    exception when the read fails. When the two file-system operations of
    that path succeed, the exception is the [UnboundLocalError] of the
    [return] statement, raised after the log was written. *)
Lemma read_failure_raises (E : env) (fuel : nat) (e : exn) :
  read_with E encodings = inl e ->
  exists e', fst (run_worker fuel E) = Raise e'.
Proof.
  intros Hread. run_monad. rewrite Hread. simpl.
  destruct (io_fault E 0) as [e0|]; simpl; [by eexists|].
  destruct (io_fault E 1) as [e1|]; simpl; by eexists.
Qed.

Lemma read_failure_run (E : env) (fuel : nat) (e : exn) :
  read_with E encodings = inl e ->
  io_fault E 0 = None -> io_fault E 1 = None ->
  exists s' lg,
    run_worker fuel E = (Raise (UnboundLocalError (lit "cleaned_chunks")), s')
    /\ log_file s' = Some lg
    /\ Log.status lg = lit "failed"
    /\ Log.errors lg = [exn_str e]
    /\ Log.total_chunks lg = None
    /\ output_file s' = None.
Proof.
  intros Hread H0 H1. run_monad. rewrite Hread. simpl. rewrite H0. simpl.
  rewrite H1. simpl. eexists _, _. repeat split.
Qed.

Lemma read_failure_log (E : env) (fuel : nat) (e : exn) (lg : Log.t) :
  read_with E encodings = inl e ->
  log_file (snd (run_worker fuel E)) = Some lg ->
  Log.status lg = lit "failed" /\ Log.errors lg = [exn_str e]
  /\ Log.total_chunks lg = None.
Proof.
  intros Hread. run_monad. rewrite Hread. simpl.
  destruct (io_fault E 0) as [e0|]; simpl; [discriminate|].
  destruct (io_fault E 1) as [e1|]; simpl; [discriminate|].
  intros [= <-]. repeat split.
Qed.


(** ** FileProcessor: what every run keeps *)

Section Stable.

Variable P : state -> Prop.

Lemma stable_ret {A} (a : A) : stable P (ret a).
Proof. by intros s Hs. Qed.

Lemma stable_raise {A} (e : exn) : stable P (@raise A e).
Proof. by intros s Hs. Qed.

Lemma stable_out_of_fuel {A} : stable P (@out_of_fuel A).
Proof. by intros s Hs. Qed.

Lemma stable_gets {A} (f : state -> A) : stable P (gets f).
Proof. by intros s Hs. Qed.

Lemma stable_modify (f : state -> state) :
  (forall s, P s -> P (f s)) -> stable P (modify f).
Proof. intros Hf s Hs. by apply Hf. Qed.

Lemma stable_bind {A B} (m : M A) (k : A -> M B) :
  stable P m -> (forall a, stable P (k a)) -> stable P (bind m k).
Proof.
  intros Hm Hk s Hs. unfold bind. specialize (Hm s Hs).
  destruct (m s) as [[a| e |] s']; simpl in *; [by apply Hk | done | done].
Qed.

Lemma stable_try_except {A} (m : M A) (h : exn -> M A) :
  stable P m -> (forall e, stable P (h e)) -> stable P (try_except m h).
Proof.
  intros Hm Hh s Hs. unfold try_except. specialize (Hm s Hs).
  destruct (m s) as [[a| e |] s']; simpl in *; [done | by apply Hh | done].
Qed.

Lemma stable_for_each {A} (xs : list A) (body : A -> M unit) :
  (forall x, stable P (body x)) -> stable P (for_each xs body).
Proof.
  intros Hb. induction xs as [|x xs IH]; simpl.
  - apply stable_ret.
  - apply stable_bind; [apply Hb | intros _; exact IH].
Qed.

Lemma stable_retry_loop {A} (stop : nat -> bool) (wait : nat -> Q) (fuel k : nat)
    (fn : M A) :
  (forall d, stable P (sleep BackoffSleep d)) ->
  stable P fn -> stable P (retry_loop stop wait fuel k fn).
Proof.
  intros Hsl Hfn. revert k. induction fuel as [|fuel IH]; intros k; simpl.
  - apply stable_out_of_fuel.
  - apply stable_try_except; [exact Hfn|]. intros e.
    destruct (stop k); [apply stable_raise|].
    apply stable_bind; [apply Hsl | intros _; apply IH].
Qed.

End Stable.

(** The total recorded in the log, once set, stays, and the log file is
    written by nothing but the [finally] suite. *)
Section Counted.

Variable n : nat.
Variable E : env.

Ltac stab :=
  repeat first
    [ solve [auto]
    | apply stable_ret | apply stable_raise | apply stable_out_of_fuel
    | apply stable_gets
    | apply stable_bind; [|intros ?]
    | apply stable_try_except; [|intros ?]
    | apply stable_modify; intros [] [? ?]; split; simpl in *; assumption
    | match goal with
      | |- stable _ (match ?x with _ => _ end) => destruct x
      end ].

Lemma counted_io : stable (counted n) (io E).
Proof. unfold io. stab. Qed.

Lemma counted_write_chunk_file (i : nat) (content : str) :
  stable (counted n) (write_chunk_file E i content).
Proof. unfold write_chunk_file. pose proof counted_io. stab. Qed.

Lemma counted_read_chunk_file (i : nat) : stable (counted n) (read_chunk_file E i).
Proof. unfold read_chunk_file. pose proof counted_io. stab. Qed.

Lemma counted_sleep (why : Q -> event) (d : Q) : stable (counted n) (sleep why d).
Proof. unfold sleep. stab. Qed.

Lemma counted_gate (self : RateLimiter) : stable (counted n) (gate self).
Proof. unfold gate, time_time. pose proof (counted_sleep GateSleep). stab. Qed.

Lemma counted_clean_text_chunk (chunk : str) (i total : nat) :
  stable (counted n) (clean_text_chunk E chunk i total).
Proof.
  unfold clean_text_chunk, retry. apply stable_retry_loop; [apply counted_sleep|].
  unfold wrapper, time_time, clean_text_chunk_body. pose proof (counted_gate rate_limiter).
  stab.
Qed.

Lemma counted_process_chunk (i total : nat) : stable (counted n) (process_chunk E i total).
Proof.
  unfold process_chunk, load_cleaned_chunks, modify_log.
  pose proof counted_read_chunk_file. pose proof counted_clean_text_chunk.
  pose proof counted_write_chunk_file. stab.
Qed.

Lemma counted_while_true (fuel i total : nat) :
  stable (counted n) (while_true fuel E i total).
Proof.
  induction fuel as [|fuel IH]; simpl; [apply stable_out_of_fuel|].
  unfold modify_log. pose proof counted_process_chunk. pose proof counted_sleep. stab.
Qed.

Lemma counted_combine_chunks (numbers : list nat) (acc : str) :
  stable (counted n) (combine_chunks E numbers acc).
Proof.
  revert acc. induction numbers as [|i numbers IH]; intros acc; simpl.
  - apply stable_ret.
  - pose proof counted_read_chunk_file. stab.
Qed.

End Counted.

Section CountedBody.

Variable n : nat.
Variable E : env.

Ltac stab :=
  repeat first
    [ solve [auto]
    | apply stable_ret | apply stable_raise | apply stable_out_of_fuel
    | apply stable_gets
    | apply stable_bind; [|intros ?]
    | apply stable_try_except; [|intros ?]
    | apply stable_modify; intros [] [? ?]; split; simpl in *; assumption
    | match goal with
      | |- stable _ (match ?x with _ => _ end) => destruct x
      end ].

Lemma counted_process_chunks (fuel : nat) (chunks : list str) :
  stable (counted n) (process_chunks E fuel chunks).
Proof.
  unfold process_chunks, modify_log, time_time, load_cleaned_chunks.
  pose proof (counted_io n E). pose proof (counted_combine_chunks n E).
  assert (stable (counted n)
            (for_each (enumerate chunks 1) (fun '(i, chunk) => write_chunk_file E i chunk))).
  { apply stable_for_each. intros [i chunk]. apply counted_write_chunk_file. }
  assert (stable (counted n)
            (for_each (seq 0 (length chunks))
               (fun i => while_true fuel E (i + 1) (length chunks)))).
  { apply stable_for_each. intros i. apply counted_while_true. }
  stab.
Qed.

Lemma counted_process_except (e : exn) : stable (counted n) (process_except e).
Proof. unfold process_except, modify_log. stab. Qed.

End CountedBody.

(** Once the read has succeeded, the [try] statement ends, however it
    ends, with the chunk count in the log. *)
Lemma try_suite_counted (E : env) (fuel : nat) (text : str) (s : state) :
  read_with E encodings = inr text ->
  log_file s = None ->
  counted (length (chunk_text text default_chunk_size))
          (snd (try_except (process_body E fuel) process_except s)).
Proof.
  intros Hread Hlog.
  set (chunks := chunk_text text default_chunk_size).
  set (s1 := set_log_data (Log.set_total_chunks (length chunks) (log_data s))
               (set_var_chunks (Some chunks) s)).
  assert (H1 : counted (length chunks) s1) by (by destruct s).
  assert (Hbody : process_body E fuel s = process_chunks E fuel chunks s1).
  { unfold process_body, read_file_with_fallback_encoding. rewrite Hread. reflexivity. }
  unfold try_except. rewrite Hbody.
  pose proof (counted_process_chunks _ E fuel chunks s1 H1) as Hc.
  destruct (process_chunks E fuel chunks s1) as [[[]|e|] s2]; simpl in *;
    [done | by apply counted_process_except | done].
Qed.

Lemma leads_bind {A B} (P R Q : state -> Prop) (m : M A) (k : A -> M B) :
  leads P R m -> (forall s, R s -> Q s) -> (forall a, leads R Q (k a)) ->
  leads P Q (bind m k).
Proof.
  intros Hm HRQ Hk s Hs. unfold bind. specialize (Hm s Hs).
  destruct (m s) as [[a| e |] s']; simpl in *; [by apply Hk | by apply HRQ | by apply HRQ].
Qed.

Lemma leads_try_finally {A} (P R Q : state -> Prop) (m : M A) (fin : M unit) :
  leads P R m -> (forall s, R s -> Q s) -> leads R Q fin ->
  leads P Q (try_finally m fin).
Proof.
  intros Hm HRQ Hfin s Hs. unfold try_finally. specialize (Hm s Hs).
  destruct (m s) as [[a| e |] s']; simpl in *; [| |by apply HRQ];
    specialize (Hfin s' Hm); by destruct (fin s') as [[[]|e'|] s''].
Qed.

Lemma no_log_counts (n : nat) (s : state) : no_log s -> log_counts n s.
Proof. unfold no_log, log_counts. intros -> lg. discriminate. Qed.

Lemma counted_counts (n : nat) (s : state) : counted n s -> log_counts n s.
Proof. intros [_ H]. by apply no_log_counts. Qed.

(** The [finally] suite writes the log as it stands. *)
Lemma finally_counts (n : nat) (E : env) : leads (counted n) (log_counts n) (process_finally E).
Proof.
  intros s [Htotal Hnone]. unfold process_finally, modify_log, io, bind, time_time, gets,
    modify, ret, raise, log_counts. cbn.
  destruct (io_fault E (io_ops s)); cbn.
  - rewrite Hnone. discriminate.
  - intros lg [= <-]. cbn. exact Htotal.
Qed.

(** Claim C6, as amended: on every path of [process_text_file] on which
    the document was read, completed or failed, the log that is written
    records as [total_chunks] the number of chunks of the document. *)
Theorem log_total_chunks_after_chunking (E : env) (fuel : nat) (text : str) (lg : Log.t) :
  read_with E encodings = inr text ->
  log_file (snd (run_worker fuel E)) = Some lg ->
  Log.total_chunks lg = Some (length (chunk_text text default_chunk_size)).
Proof.
  intros Hread. set (n := length (chunk_text text default_chunk_size)).
  revert lg. change (log_counts n (snd (run_worker fuel E))).
  assert (Hno : forall f, (forall s, no_log s -> no_log (f s)) -> stable no_log (modify f)).
  { intros f Hf. by apply stable_modify. }
  assert (Hlead : leads no_log (log_counts n) (process_text_file E fuel)).
  { unfold process_text_file.
    apply (leads_bind _ no_log); [by apply Hno; intros [] | apply no_log_counts | intros _].
    apply (leads_bind _ no_log); [by apply Hno; intros [] | apply no_log_counts | intros _].
    apply (leads_bind _ no_log); [|apply no_log_counts | intros _].
    { unfold io. apply stable_bind; [apply stable_gets|intros k].
      apply stable_bind; [by apply Hno; intros []|intros _].
      destruct (io_fault E k); [apply stable_raise|apply stable_ret]. }
    apply (leads_bind _ no_log); [apply stable_gets | apply no_log_counts | intros t0].
    apply (leads_bind _ no_log); [by apply Hno; intros [] | apply no_log_counts | intros _].
    apply (leads_bind _ (log_counts n)); [|done|].
    { apply (leads_try_finally _ (counted n)).
      - intros s Hs. by apply (try_suite_counted E fuel text).
      - apply counted_counts.
      - apply finally_counts. }
    intros _. unfold load_cleaned_chunks, load_chunks.
    apply stable_bind; [|intros c].
    { apply stable_bind; [apply stable_gets|intros [c|]; [apply stable_ret|apply stable_raise]]. }
    apply stable_bind; [|intros c'; apply stable_ret].
    apply stable_bind; [apply stable_gets|intros [c'|]; [apply stable_ret|apply stable_raise]]. }
  by apply Hlead.
Qed.

(** A failure after chunking: the first chunk file cannot be written. The
    log is written with status [failed] and the chunk count 1. *)
Lemma log_total_chunks_after_chunking_witness :
  read_with (disk_full_doc (lit "a") (lit "a")) encodings = inr (lit "a")
  /\ exists lg, log_file (snd (run_worker 1 (disk_full_doc (lit "a") (lit "a")))) = Some lg
                /\ Log.status lg = lit "failed"
                /\ Log.total_chunks lg = Some (length (chunk_text (lit "a") default_chunk_size)).
Proof.
  split; [reflexivity|].
  destruct (log_file (snd (run_worker 1 (disk_full_doc (lit "a") (lit "a")))))
    as [lg|] eqn:Hlg; [|by vm_compute in Hlg].
  exists lg. split; [reflexivity|]. split.
  - vm_compute in Hlg. by injection Hlg as <-.
  - by apply (log_total_chunks_after_chunking (disk_full_doc (lit "a") (lit "a")) 1 (lit "a")).
Defined.

(** Claim C6 as stated fails on a failure before chunking: the log of the
    document that cannot be opened is written, with status [failed], and
    holds no chunk count at all. *)
Lemma unreadable_log_has_no_total :
  exists lg, log_file (snd (run_worker 1 unopenable_doc)) = Some lg
             /\ Log.status lg = lit "failed"
             /\ forall n, Log.total_chunks lg <> Some n.
Proof.
  destruct (log_file (snd (run_worker 1 unopenable_doc))) as [lg|] eqn:Hlg;
    [|by vm_compute in Hlg].
  exists lg. split; [reflexivity|].
  vm_compute in Hlg. injection Hlg as <-. split; [reflexivity|]. intros n. discriminate.
Qed.

(** ** Files: reading back what was written *)

Lemma universal_newlines_id (s : str) : no_cr s -> universal_newlines s = s.
Proof.
  unfold no_cr. induction s as [|c s IH]; intros Hs; [done|]. cbn [universal_newlines].
  destruct (N.eqb_spec c CR) as [->|Hc].
  - exfalso. apply Hs. left.
  - rewrite IH; [done|]. intros Hin. apply Hs. by right.
Qed.

Lemma universal_newlines_no_cr (s : str) : no_cr (universal_newlines s).
Proof.
  unfold no_cr. induction s as [|c s IH]; [by intros ?%elem_of_nil|].
  cbn [universal_newlines]. destruct (N.eqb_spec c CR) as [->|Hc].
  - destruct s as [|c' s']; [by intros [=]%list_elem_of_singleton|].
    destruct (N.eqb c' NL); [exact IH|].
    intros [[=]|Hin]%elem_of_cons. by apply IH.
  - intros [Heq|Hin]%elem_of_cons; [by apply Hc|by apply IH].
Qed.

Lemma no_cr_app (a b : str) : no_cr a -> no_cr b -> no_cr (a ++ b).
Proof. unfold no_cr. intros Ha Hb [?|?]%elem_of_app; tauto. Qed.

Lemma no_cr_separator : no_cr separator.
Proof. unfold no_cr, separator. intros Hin. by repeat apply elem_of_cons in Hin as [[=]|Hin]; apply elem_of_nil in Hin. Qed.

Lemma elem_of_split_nl (s l : str) (c : char) : l ∈ split_nl s -> c ∈ l -> c ∈ s.
Proof.
  revert l. induction s as [|x s IH]; intros l; simpl.
  - intros ->%list_elem_of_singleton. by intros ?%elem_of_nil.
  - destruct (N.eqb x NL).
    + intros [->|Hl]%elem_of_cons Hc; [by apply elem_of_nil in Hc|].
      right. by apply (IH l).
    + pose proof (split_nl_not_nil s) as Hne.
      destruct (split_nl s) as [|l0 ls]; [done|].
      intros [->|Hl]%elem_of_cons Hc.
      * apply elem_of_cons in Hc as [->|Hc]; [left|]. right. apply (IH l0); [left|done].
      * right. apply (IH l); [by right|done].
Qed.

Lemma elem_of_join_nl (ls : list str) (c : char) :
  c ∈ join_nl ls -> c = NL \/ exists l, l ∈ ls /\ c ∈ l.
Proof.
  induction ls as [|l ls IH]; [by intros ?%elem_of_nil|].
  destruct ls as [|l' ls'].
  - simpl. intros Hc. right. exists l. split; [left|done].
  - change (join_nl (l :: l' :: ls')) with (l ++ NL :: join_nl (l' :: ls')).
    intros [Hc|[->|Hc]%elem_of_cons]%elem_of_app.
    + right. exists l. split; [left|done].
    + by left.
    + destruct (IH Hc) as [->|(l0 & Hl0 & Hc0)]; [by left|].
      right. exists l0. split; [by right|done].
Qed.

Lemma join_split (s : str) : join_nl (split_nl s) = s.
Proof.
  induction s as [|c s IH]; simpl; [done|].
  pose proof (split_nl_not_nil s) as Hne.
  destruct (N.eqb_spec c NL) as [->|Hc].
  - destruct (split_nl s) as [|l ls]; [done|]. simpl in *. by rewrite IH.
  - destruct (split_nl s) as [|l ls]; [done|]. simpl in *.
    destruct ls; simpl in *; by rewrite <- IH.
Qed.

(** The chunks of a text hold no character the text does not hold, the
    newline apart. *)
Lemma chunk_text_chars (T : str) (S : Z) (chunk : str) (c : char) :
  chunk ∈ chunk_text T S -> c ∈ chunk -> c = NL \/ c ∈ T.
Proof.
  intros Hchunk Hc. unfold chunk_text in Hchunk.
  apply list_elem_of_In, filter_In in Hchunk as [Hraw _].
  rewrite <- (join_split chunk) in Hc.
  destruct (elem_of_join_nl _ _ Hc) as [->|(l & Hl & Hcl)]; [by left|]. right.
  apply (elem_of_split_nl T l); [|done].
  rewrite <- (chunk_text_raw_lines T S). unfold lines_of.
  apply list_elem_of_In, in_concat. exists (split_nl chunk).
  split; [by apply in_map|by apply list_elem_of_In].
Qed.

Lemma chunk_text_no_cr (T : str) (S : Z) : no_cr T -> Forall no_cr (chunk_text T S).
Proof.
  intros HT. apply Forall_forall. intros chunk Hchunk Hcr.
  destruct (chunk_text_chars T S chunk CR Hchunk Hcr) as [[=]|Hin]. by apply HT.
Qed.


(** ** FileProcessor: a document whose every chunk is rejected *)

Lemma returns_ret {A} (P : state -> Prop) (a : A) (Q : A -> state -> Prop) :
  (forall s, P s -> Q a s) -> returns P (ret a) Q.
Proof. intros H s Hs. exists a, s. split; [done|by apply H]. Qed.

Lemma returns_gets {A} (P : state -> Prop) (f : state -> A) (Q : A -> state -> Prop) :
  (forall s, P s -> Q (f s) s) -> returns P (gets f) Q.
Proof. intros H s Hs. exists (f s), s. split; [done|by apply H]. Qed.

Lemma returns_modify (P : state -> Prop) (f : state -> state) (Q : unit -> state -> Prop) :
  (forall s, P s -> Q tt (f s)) -> returns P (modify f) Q.
Proof. intros H s Hs. exists tt, (f s). split; [done|by apply H]. Qed.

Lemma returns_bind {A B} (P : state -> Prop) (R : A -> state -> Prop)
    (Q : B -> state -> Prop) (m : M A) (k : A -> M B) :
  returns P m R -> (forall a, returns (R a) (k a) Q) -> returns P (bind m k) Q.
Proof.
  intros Hm Hk s Hs. destruct (Hm s Hs) as (a & s1 & Hrun & HR).
  destruct (Hk a s1 HR) as (b & s2 & Hrun2 & HQ).
  exists b, s2. split; [|done]. unfold bind. by rewrite Hrun.
Qed.

Lemma returns_weaken {A} (P P' : state -> Prop) (Q Q' : A -> state -> Prop) (m : M A) :
  returns P' m Q' -> (forall s, P s -> P' s) -> (forall a s, Q' a s -> Q a s) ->
  returns P m Q.
Proof.
  intros Hm HP HQ s Hs. destruct (Hm s (HP s Hs)) as (a & s' & Hrun & Hq).
  exists a, s'. split; [done|by apply HQ].
Qed.

Lemma returns_try_except {A} (P : state -> Prop) (Q : A -> state -> Prop) (m : M A)
    (h : exn -> M A) :
  returns P m Q -> returns P (try_except m h) Q.
Proof.
  intros Hm s Hs. destruct (Hm s Hs) as (a & s' & Hrun & Hq).
  exists a, s'. split; [|done]. unfold try_except. by rewrite Hrun.
Qed.

Lemma returns_try_finally {A} (P : state -> Prop) (R Q : A -> state -> Prop) (m : M A)
    (fin : M unit) :
  returns P m R -> (forall a, returns (R a) fin (fun _ => Q a)) ->
  returns P (try_finally m fin) Q.
Proof.
  intros Hm Hfin s Hs. destruct (Hm s Hs) as (a & s1 & Hrun & HR).
  destruct (Hfin a s1 HR) as ([] & s2 & Hrun2 & HQ).
  exists a, s2. split; [|done]. unfold try_finally. by rewrite Hrun, Hrun2.
Qed.

Section Rejected.

Variable E : env.
Hypothesis Hio : no_io_fault E.
Hypothesis Hrej : always_rejects E.

Lemma returns_io (P : state -> Prop) :
  about_document P -> returns P (io E) (fun _ => P).
Proof.
  intros HP s Hs. unfold io, bind, gets, modify. simpl. rewrite Hio.
  eexists tt, _. split; [reflexivity|].
  destruct s as [c r t a i f o lf ld vc vcl].
  exact (HP (State c r t a i f o lf ld vc vcl) c r t a (S i) Hs).
Qed.

Lemma returns_clean_text_chunk (P : state -> Prop) (chunk : str) (i total : nat) :
  about_document P ->
  returns P (clean_text_chunk E chunk i total) (fun r s => r = (chunk, false) /\ P s).
Proof.
  intros HP s Hs. destruct (Hrej (api_calls s)) as (msg & Hsvc & Hcf).
  destruct (clean_text_chunk_rejected_run E chunk i total s msg Hsvc Hcf)
    as (clk & calls & tr & Hrun & _).
  eexists _, _. split; [exact Hrun|]. split; [done|].
  destruct s as [c r t a i0 f o lf ld vc vcl].
  exact (HP (State c r t a i0 f o lf ld vc vcl) clk calls tr (S a) i0 Hs).
Qed.

Lemma about_files_at (chunks : list str) (i : nat) :
  about_document (fun s => files_at chunks i s /\ doc_inv chunks s).
Proof. by intros []. Qed.

Lemma returns_pure {A} (phi : Prop) (P : state -> Prop) (m : M A) (Q : A -> state -> Prop) :
  (phi -> returns P m Q) -> returns (fun s => phi /\ P s) m Q.
Proof. intros H s [Hphi Hs]. by apply H. Qed.

Lemma returns_read_chunk_file (P : state -> Prop) (i : nat) (c : str) :
  about_document P -> (forall s, P s -> chunk_files s !! i = Some c) ->
  returns P (read_chunk_file E i) (fun r s => r = universal_newlines c /\ P s).
Proof.
  intros HP Hfile. unfold read_chunk_file.
  eapply returns_bind; [by apply returns_io|]. intros ?.
  eapply returns_bind; [apply (returns_gets _ _ (fun f s => f = chunk_files s /\ P s)); by intros|].
  intros files s [Heq Hs]. subst files. rewrite (Hfile s Hs).
  by exists (universal_newlines c), s.
Qed.

Lemma returns_write_chunk_file (P Q : state -> Prop) (i : nat) (c : str) :
  about_document P ->
  (forall s, P s -> Q (set_chunk_files (<[i := c]> (chunk_files s)) s)) ->
  returns P (write_chunk_file E i c) (fun _ => Q).
Proof.
  intros HP HQ. unfold write_chunk_file.
  eapply returns_bind; [by apply returns_io|]. intros ?.
  apply returns_modify. intros s Hs. by apply HQ.
Qed.

(** One chunk of the transform loop: read, rejected, written back with
    the separator, recorded. *)
Lemma returns_process_chunk (chunks : list str) (i : nat) (c : str) :
  chunks !! i = Some c -> no_cr c ->
  returns (fun s => files_at chunks i s /\ doc_inv chunks s)
          (process_chunk E (i + 1) (length chunks))
          (fun _ s => files_at chunks (S i) s /\ doc_inv chunks s).
Proof.
  intros Hc Hcr. unfold process_chunk.
  eapply returns_bind.
  { apply (returns_read_chunk_file _ (i + 1) c); [apply about_files_at|].
    intros s [Hf _]. specialize (Hf i c Hc). rewrite Nat.ltb_irrefl in Hf.
    by rewrite Nat.add_1_r. }
  intros chunk. apply returns_pure. intros ->. rewrite (universal_newlines_id c Hcr).
  eapply returns_bind; [apply returns_clean_text_chunk, about_files_at|].
  intros result. apply returns_pure. intros ->. simpl.
  apply (returns_bind _ (fun _ s => files_at chunks i s /\ doc_inv chunks s));
    [by apply returns_ret|]. intros ?.
  eapply returns_bind.
  { apply (returns_write_chunk_file _ (fun s => files_at chunks (S i) s /\ doc_inv chunks s));
      [apply about_files_at|].
    intros s [Hf Hd]. split; [|by destruct s].
    intros j c' Hj. cbn [chunk_files set_chunk_files]. rewrite Nat.add_1_r.
    destruct (decide (j = i)) as [Heq|Hne].
    - subst j. rewrite lookup_insert_eq.
      pose proof (eq_trans (eq_sym Hc) Hj) as Hcc. injection Hcc as <-.
      by rewrite (proj2 (Nat.ltb_lt i (S i))) by lia.
    - rewrite lookup_insert_ne by lia.
      replace (j <? S i)%nat with (j <? i)%nat; [exact (Hf j c' Hj)|].
      destruct (Nat.ltb_spec j i), (Nat.ltb_spec j (S i)); try done; lia. }
  intros ?. apply returns_modify. intros s [Hf Hd]. split; [by destruct s|].
  destruct s; unfold doc_inv in *; simpl in *. done.
Qed.

Lemma returns_while_true (chunks : list str) (fuel i : nat) (c : str) :
  chunks !! i = Some c -> no_cr c ->
  returns (fun s => files_at chunks i s /\ doc_inv chunks s)
          (while_true (S fuel) E (i + 1) (length chunks))
          (fun _ s => files_at chunks (S i) s /\ doc_inv chunks s).
Proof.
  intros Hc Hcr. simpl.
  eapply returns_bind.
  { apply returns_try_except. eapply returns_bind; [by apply (returns_process_chunk chunks i c)|].
    intros ?. apply (returns_ret _ _ (fun b s => b = true /\ files_at chunks (S i) s /\ doc_inv chunks s)).
    by intros. }
  intros b. apply returns_pure. intros ->. by apply returns_ret.
Qed.

Lemma returns_transform_loop (chunks : list str) (fuel m i : nat) :
  Forall no_cr chunks ->
  (i + m = length chunks)%nat ->
  returns (fun s => files_at chunks i s /\ doc_inv chunks s)
          (for_each (seq i m) (fun i => while_true (S fuel) E (i + 1) (length chunks)))
          (fun _ s => files_at chunks (i + m) s /\ doc_inv chunks s).
Proof.
  intros Hcr. revert i. induction m as [|m IH]; intros i Hlen; simpl.
  - apply returns_ret. intros s. by rewrite Nat.add_0_r.
  - destruct (lookup_lt_is_Some_2 chunks i) as [c Hc]; [lia|].
    eapply returns_bind.
    { apply (returns_while_true chunks fuel i c Hc).
      rewrite Forall_forall in Hcr. by apply Hcr, (list_elem_of_lookup_2 _ i). }
    intros ?. replace (i + S m)%nat with (S i + m)%nat by lia. apply IH. lia.
Qed.

Lemma returns_persist (F : state -> Prop) (l : list str) (k : nat) (m0 : gmap nat str) :
  about_document F -> (forall s files, F s -> F (set_chunk_files files s)) ->
  returns (fun s => F s /\ chunk_files s = m0)
          (for_each (enumerate l k) (fun '(i, chunk) => write_chunk_file E i chunk))
          (fun _ s => F s
                      /\ (forall j c, l !! j = Some c -> chunk_files s !! (k + j)%nat = Some c)
                      /\ (forall i, (i < k)%nat -> chunk_files s !! i = m0 !! i)).
Proof.
  intros HF Hset. revert k m0. induction l as [|x l IH]; intros k m0; simpl.
  - apply returns_ret. intros s [Hs <-]. split; [done|]. split; [|done].
    intros j c Hj. by rewrite lookup_nil in Hj.
  - eapply returns_bind.
    { apply (returns_write_chunk_file _ (fun s => F s /\ chunk_files s = <[k := x]> m0)).
      - intros s clk calls tr api io [Hs Hm]. split; [by apply HF|exact Hm].
      - intros s [Hs <-]. split; [by apply Hset|done]. }
    intros ?. eapply returns_weaken; [apply (IH (S k) (<[k := x]> m0))|done|].
    intros ? s (Hs & Hl & Hk). split; [done|]. split.
    + intros [|j] c Hj; simpl in Hj.
      * injection Hj as <-. rewrite Nat.add_0_r, Hk by lia. apply lookup_insert_eq.
      * replace (k + S j)%nat with (S k + j)%nat by lia. by apply Hl.
    + intros i Hi. rewrite Hk by lia. apply lookup_insert_ne. lia.
Qed.

Lemma rejoin_cons (c : str) (cs : list str) : rejoin (c :: cs) = (c ++ separator) ++ rejoin cs.
Proof. reflexivity. Qed.

Lemma returns_combine (chunks : list str) (m i : nat) (acc : str) :
  Forall no_cr chunks ->
  (i + m = length chunks)%nat ->
  returns (fun s => files_at chunks (length chunks) s /\ doc_inv chunks s)
          (combine_chunks E (seq (S i) m) acc)
          (fun r s => r = acc ++ rejoin (take m (drop i chunks))
                      /\ files_at chunks (length chunks) s /\ doc_inv chunks s).
Proof.
  intros Hcr. revert i acc. induction m as [|m IH]; intros i acc Hlen; simpl.
  - apply returns_ret. intros s Hs. split; [|done]. unfold rejoin. simpl. by rewrite app_nil_r.
  - destruct (lookup_lt_is_Some_2 chunks i) as [c Hc]; [lia|].
    assert (Hback : universal_newlines (c ++ separator) = c ++ separator).
    { apply universal_newlines_id, no_cr_app; [|apply no_cr_separator].
      rewrite Forall_forall in Hcr. by apply Hcr, (list_elem_of_lookup_2 _ i). }
    assert (Hfile : forall s, files_at chunks (length chunks) s /\ doc_inv chunks s ->
                              chunk_files s !! S i = Some (c ++ separator)).
    { intros s [Hf _]. rewrite (Hf i c Hc). by rewrite (proj2 (Nat.ltb_lt i (length chunks))) by lia. }
    assert (Hstep : returns (fun s => files_at chunks (length chunks) s /\ doc_inv chunks s)
                      (let* content := read_chunk_file E (S i) in
                       combine_chunks E (seq (S (S i)) m) (acc ++ content))
                      (fun r s => r = acc ++ rejoin (take (S m) (drop i chunks))
                                  /\ files_at chunks (length chunks) s /\ doc_inv chunks s)).
    { eapply returns_bind.
      { apply (returns_read_chunk_file _ (S i) (c ++ separator));
          [apply about_files_at|exact Hfile]. }
      intros content. apply returns_pure. intros ->. rewrite Hback.
      eapply returns_weaken; [apply (IH (S i)); lia|done|].
      intros r s [-> Hs]. split; [|done].
      rewrite (drop_S _ _ _ Hc). rewrite firstn_cons, rejoin_cons.
      by rewrite <- (app_assoc acc). }
    intros s Hs. unfold bind at 1. unfold gets at 1. cbv beta iota.
    rewrite (Hfile s Hs). exact (Hstep s Hs).
Qed.

(** Lines 196-259 when nothing fails and every chunk is rejected. *)
Lemma returns_process_chunks (chunks : list str) (fuel : nat) (m0 : gmap nat str) :
  Forall no_cr chunks ->
  returns (fun s => chunked chunks s /\ chunk_files s = m0)
          (process_chunks E (S fuel) chunks)
          (fun _ s => rejected_done chunks s).
Proof.
  intros Hcr. unfold process_chunks.
  eapply returns_bind.
  { apply (returns_persist (chunked chunks) chunks 1 m0); by intros []. }
  intros ?. eapply returns_bind.
  { apply (returns_modify _ _ (fun _ s => files_at chunks 0 s /\ doc_inv chunks s)).
    intros s ((Hv & Ht & He & Hl) & Hfiles & _). split.
    - intros j c Hj. specialize (Hfiles j c Hj). by destruct s.
    - by destruct s. }
  intros ?.
  eapply returns_bind; [apply (returns_transform_loop chunks fuel (length chunks) 0 Hcr); lia|].
  intros ?. simpl.
  eapply returns_bind; [apply (returns_combine chunks (length chunks) 0 [] Hcr); lia|].
  intros cleaned_text. apply returns_pure. intros ->.
  rewrite drop_0, firstn_all. simpl.
  eapply returns_bind; [apply returns_io, about_files_at|].
  intros ?. intros s [_ (Hv & Hc & Ht & He & Hl)].
  destruct s as [clk rl tr api io fs out lf ld vc vcl]. simpl in *. subst.
  unfold bind, modify, modify_log, time_time, gets, load_cleaned_chunks, ret. simpl.
  eexists tt, _. split; [reflexivity|]. unfold rejected_done. simpl. by repeat split.
Qed.

Lemma returns_process_body (fuel : nat) (text : str) (m0 : gmap nat str) :
  read_with E encodings = inr text -> no_cr text ->
  returns (fun s => Log.errors (log_data s) = [] /\ log_file s = None /\ chunk_files s = m0)
          (process_body E (S fuel))
          (fun _ s => rejected_done (chunk_text text default_chunk_size) s).
Proof.
  intros Hread Hcr. unfold process_body, read_file_with_fallback_encoding. rewrite Hread.
  eapply returns_bind; [apply (returns_ret _ _ (fun t s =>
      t = text /\ Log.errors (log_data s) = [] /\ log_file s = None /\ chunk_files s = m0));
    by intros|].
  intros t. apply returns_pure. intros ->. cbv zeta.
  set (chunks := chunk_text text default_chunk_size).
  eapply returns_bind; [|intros ?; eapply returns_bind;
                          [|intros ?; apply (returns_process_chunks chunks fuel m0);
                            by apply chunk_text_no_cr]].
  - apply (returns_modify _ _ (fun _ s => var_chunks s = Some chunks
      /\ Log.errors (log_data s) = [] /\ log_file s = None /\ chunk_files s = m0)).
    by intros [].
  - apply returns_modify. intros s (Hv & He & Hl & Hm). by destruct s.
Qed.

Lemma returns_process_finally (chunks : list str) :
  returns (rejected_done chunks) (process_finally E)
          (fun _ s => rejected_done chunks (set_log_file None s)
                      /\ exists lg, log_file s = Some lg
                           /\ Log.cleaned_chunks lg = Some O
                           /\ Log.status lg = lit "completed"
                           /\ Log.total_chunks lg = Some (length chunks)
                           /\ Log.errors lg = []).
Proof.
  intros s Hs. unfold process_finally, modify_log, io, bind, time_time, gets, modify. simpl.
  rewrite Hio. eexists tt, _. split; [reflexivity|].
  destruct s as [clk rl tr api io fs out lf ld vc vcl].
  destruct Hs as (Hv & Hc & Ho & Hl & Hst & Hcl & Ht & He). simpl in *.
  split; [by repeat split|]. eexists. split; [reflexivity|]. by repeat split.
Qed.

(** The whole of [process_text_file] on a rejected document. *)
Lemma returns_process_text_file (fuel : nat) (text : str) (m0 : gmap nat str) :
  read_with E encodings = inr text -> no_cr text ->
  returns (fun s => log_file s = None /\ chunk_files s = m0)
          (process_text_file E (S fuel))
          (fun r s =>
             r = (O, length (chunk_text text default_chunk_size))
             /\ output_file s = Some (rejoin (chunk_text text default_chunk_size))
             /\ exists lg, log_file s = Some lg
                  /\ Log.cleaned_chunks lg = Some O
                  /\ Log.status lg = lit "completed"
                  /\ Log.total_chunks lg = Some (length (chunk_text text default_chunk_size))
                  /\ Log.errors lg = []).
Proof.
  intros Hread Hcr. set (chunks := chunk_text text default_chunk_size).
  unfold process_text_file.
  apply (returns_bind _ (fun _ s => log_file s = None /\ chunk_files s = m0));
    [apply returns_modify; by intros []|intros ?].
  apply (returns_bind _ (fun _ s => log_file s = None /\ chunk_files s = m0));
    [apply returns_modify; by intros []|intros ?].
  apply (returns_bind _ (fun _ s => log_file s = None /\ chunk_files s = m0));
    [apply returns_io; by intros []|intros ?].
  apply (returns_bind _ (fun _ s => log_file s = None /\ chunk_files s = m0));
    [by apply returns_gets|intros t0].
  apply (returns_bind _ (fun _ s =>
           Log.errors (log_data s) = [] /\ log_file s = None /\ chunk_files s = m0));
    [apply returns_modify; by intros []|intros ?].
  eapply returns_bind.
  { eapply returns_try_finally.
    - apply returns_try_except. by apply (returns_process_body fuel text m0).
    - intros ?. apply (returns_process_finally chunks). }
  intros ?. intros s [Hd (lg & Hlg & Hfacts)].
  destruct Hd as (Hv & Hc & Ho & _).
  destruct s as [clk rl tr api io fs out lf ld vc vcl]. simpl in *. subst.
  unfold load_cleaned_chunks, load_chunks, bind, gets, ret. simpl.
  eexists _, _. split; [reflexivity|]. split; [done|]. split; [done|]. by exists lg.
Qed.

End Rejected.

(** On a readable document whose every chunk the service rejects, with a
    file system that does not fail, one round of each [while True] loop is
    enough: the worker returns [(0, number of chunks)], the cleaned output
    is every chunk followed by the separator, and the log says
    [completed] with [cleaned_chunks = 0]. The text, read in text mode,
    holds no carriage return, so every chunk is read back as written. *)
Lemma rejected_document_run (E : env) (fuel : nat) (text : str) :
  no_io_fault E -> always_rejects E -> read_with E encodings = inr text ->
  no_cr text ->
  exists s' lg,
    run_worker (S fuel) E = (Val (O, length (chunk_text text default_chunk_size)), s')
    /\ output_file s' = Some (rejoin (chunk_text text default_chunk_size))
    /\ log_file s' = Some lg
    /\ Log.cleaned_chunks lg = Some O
    /\ Log.status lg = lit "completed"
    /\ Log.total_chunks lg = Some (length (chunk_text text default_chunk_size))
    /\ Log.errors lg = [].
Proof.
  intros Hio Hrej Hread Hcr.
  destruct (returns_process_text_file E Hio Hrej fuel text ∅ Hread Hcr initial_state)
    as (r & s' & Hrun & -> & Hout & lg & Hlg & Hfacts); [done|].
  exists s', lg. unfold run_worker. by rewrite Hrun.
Qed.


(** ** Claims about the FileProcessor *)

(** Claim C1 (the code departs from it): a document whose read fails makes
    [process_text_file] raise instead of returning a pair. The [except]
    and [finally] suites run, and the [return] statement then reads
    [cleaned_chunks], which was never assigned. *)
Theorem process_text_file_raises_when_unreadable (E : env) (fuel : nat) (e : exn) :
  read_with E encodings = inl e ->
  (exists e', fst (run_worker fuel E) = Raise e')
  /\ (io_fault E 0 = None -> io_fault E 1 = None ->
      fst (run_worker fuel E) = Raise (UnboundLocalError (lit "cleaned_chunks"))).
Proof.
  intros Hread. split; [by apply (read_failure_raises E fuel e)|].
  intros H0 H1.
  destruct (read_failure_run E fuel e Hread H0 H1) as (s' & lg & Hrun & _).
  by rewrite Hrun.
Qed.

(** A file [open] refuses. *)
Lemma process_text_file_raises_when_unreadable_witness :
  read_with unopenable_doc encodings = inl (OSError (lit "[Errno 13] Permission denied"))
  /\ fst (run_worker 1 unopenable_doc) = Raise (UnboundLocalError (lit "cleaned_chunks")).
Proof.
  split; [reflexivity|].
  exact (proj2 (process_text_file_raises_when_unreadable unopenable_doc 1 _ eq_refl)
               eq_refl eq_refl).
Defined.

(** And on a readable document whose first chunk file cannot be written:
    [chunks] is bound by then, [cleaned_chunks] is not. *)
Example disk_full_raises :
  fst (run_worker 1 (disk_full_doc (lit "a") (lit "a")))
  = Raise (UnboundLocalError (lit "cleaned_chunks")).
Proof. reflexivity. Qed.

(** *** The batch *)

Lemma collect_val (futures : list (res (nat * nat))) (acc t : tally) :
  collect futures acc = Val t -> Forall (fun f => exists r, f = Val r) futures.
Proof.
  revert acc. induction futures as [|f futures IH]; intros acc H; [constructor|].
  simpl in H. destruct f as [[cleaned total]|e|]; [|discriminate|discriminate].
  constructor; [by eexists|]. by eapply IH.
Qed.

Lemma summarize_val (futures : list (res (nat * nat))) (s : Summary.t) :
  summarize futures = Val s -> Forall (fun f => exists r, f = Val r) futures.
Proof.
  unfold summarize. destruct (collect futures (Tally 0 0 0)) eqn:Hc; [|discriminate..].
  intros _. by eapply collect_val.
Qed.

(** A batch with a document whose read raises produces no summary at
    all, in whatever order the workers complete; the log of that
    document, where it was written, says [failed] and holds the error. *)
Lemma failed_read_leaves_no_summary (docs : list env) (B : env) (fuel : nat) (e : exn) :
  B ∈ docs ->
  read_with B encodings = inl e ->
  (forall summary, main docs fuel <> Val summary)
  /\ (forall lg, log_file (snd (run_worker fuel B)) = Some lg ->
                 Log.status lg = lit "failed" /\ Log.errors lg <> []).
Proof.
  intros Hin Hread. split.
  - intros summary Hmain. unfold main in Hmain. apply summarize_val in Hmain.
    rewrite Forall_forall in Hmain.
    destruct (Hmain (fst (run_worker fuel B))) as [r Hr].
    { apply list_elem_of_fmap. by exists B. }
    destruct (read_failure_raises B fuel e Hread) as [e' He']. congruence.
  - intros lg Hlg. destruct (read_failure_log B fuel e lg Hread Hlg) as (Hst & Herr & _).
    split; [done|]. by rewrite Herr.
Qed.

(** A batch of three with a document that [open] refuses. *)
Example batch_with_unopenable_document_run :
  main [clean_doc (lit "a") (lit "Hello world"); unopenable_doc;
        clean_doc (lit "c") (lit "Hello again")] 1
  = Raise (UnboundLocalError (lit "cleaned_chunks"))
  /\ (Log.status <$> log_file (snd (run_worker 1 unopenable_doc))) = Some (lit "failed")
  /\ (Log.errors <$> log_file (snd (run_worker 1 unopenable_doc)))
     = Some [lit "[Errno 13] Permission denied"].
Proof. repeat split. Qed.

(** *** A document that is cleaned *)

(** Three short lines, one chunk, one call to the service, one record in
    the log, numbered 1. *)
Example three_lines_run :
  let E := clean_doc (lit "a")
             (lit "Hello world" ++ NL :: lit "Page 7" ++ NL :: lit "Hello again" ++ [NL]) in
  fst (run_worker 1 E) = Val (1%nat, 1%nat)
  /\ api_calls (snd (run_worker 1 E)) = 1%nat
  /\ (map Log.chunk_number <$> (Log.chunks_info <$> log_file (snd (run_worker 1 E))))
     = Some [1%nat]
  /\ output_file (snd (run_worker 1 E)) = Some (lit "clean" ++ separator).
Proof. repeat split. Qed.

(** *** The rejected document *)

Lemma rejected_doc_rejects (name text : str) : always_rejects (rejected_doc name text).
Proof. intros k. eexists. split; reflexivity. Qed.

Lemma rejected_doc_no_fault (name text : str) : no_io_fault (rejected_doc name text).
Proof. by intros k. Qed.

(** Claim C3: the cleaned output of a document whose every chunk is
    rejected is byte for byte its original text chunked and rejoined the
    way the pipeline rejoins results, each original chunk followed by the
    blank-line separator, in order; and the log records
    [cleaned_chunks = 0]. The text is what reading in text mode gave, so
    it holds no carriage return. *)
Theorem rejected_document_output (E : env) (fuel : nat) (text : str) :
  no_io_fault E -> always_rejects E -> read_with E encodings = inr text ->
  no_cr text ->
  output_file (snd (run_worker (S fuel) E))
  = Some (rejoin (chunk_text text default_chunk_size))
  /\ exists lg, log_file (snd (run_worker (S fuel) E)) = Some lg
                /\ Log.cleaned_chunks lg = Some O.
Proof.
  intros Hio Hrej Hread Hcr.
  destruct (rejected_document_run E fuel text Hio Hrej Hread Hcr)
    as (s' & lg & Hrun & Hout & Hlg & Hcl & _).
  rewrite Hrun. simpl. split; [done|]. by exists lg.
Qed.

(** A document of two chunks, the first of two lines. *)
Lemma rejected_document_output_witness :
  no_io_fault (rejected_doc (lit "a") two_chunk_text)
  /\ always_rejects (rejected_doc (lit "a") two_chunk_text)
  /\ read_with (rejected_doc (lit "a") two_chunk_text) encodings = inr two_chunk_text
  /\ no_cr two_chunk_text
  /\ length (chunk_text two_chunk_text default_chunk_size) = 2%nat
  /\ output_file (snd (run_worker 1 (rejected_doc (lit "a") two_chunk_text)))
     = Some (rejoin (chunk_text two_chunk_text default_chunk_size))
  /\ exists lg, log_file (snd (run_worker 1 (rejected_doc (lit "a") two_chunk_text))) = Some lg
                /\ Log.cleaned_chunks lg = Some O.
Proof.
  assert (Hcr : no_cr two_chunk_text).
  { unfold no_cr. rewrite list_elem_of_In. by vm_compute; intuition discriminate. }
  split; [apply rejected_doc_no_fault|]. split; [apply rejected_doc_rejects|].
  split; [reflexivity|]. split; [exact Hcr|]. split; [by vm_compute|].
  exact (rejected_document_output _ 0 two_chunk_text
           (rejected_doc_no_fault _ _) (rejected_doc_rejects _ _) eq_refl Hcr).
Defined.

(** The blank-line separator is part of the rejoined text: the output of
    the rejected one-chunk document ["a"] is ["a\n\n"]. *)
Example rejected_one_chunk_output :
  output_file (snd (run_worker 1 (rejected_doc (lit "a") (lit "a"))))
  = Some (lit "a" ++ [NL; NL]).
Proof. reflexivity. Qed.

(** *** Counting successful files *)

Lemma filter_partition_len (results : list (nat * nat)) :
  len (List.filter (fun r => (0 <? fst r)%nat) results)
  + len (List.filter (fun r => (fst r =? 0)%nat) results) = len results.
Proof.
  unfold len. induction results as [|[cleaned total] results IH]; simpl; [done|].
  destruct cleaned; simpl; lia.
Qed.

Lemma collect_results (results : list (nat * nat)) (acc : tally) :
  exists t, collect (map Val results) acc = Val t
            /\ successful_files t
               = successful_files acc
                 + len (List.filter (fun r => (0 <? fst r)%nat) results).
Proof.
  revert acc. induction results as [|[cleaned total] results IH]; intros acc; simpl.
  - exists acc. split; [done|]. unfold len. simpl. lia.
  - edestruct IH as (t & Ht & Hs). exists t. split; [exact Ht|]. rewrite Hs. simpl.
    unfold len. destruct cleaned; simpl; lia.
Qed.

(** Claim C10: when every worker returns its pair, [main] counts as
    successful exactly the documents whose cleaned-chunk count is
    positive, and as failed exactly those whose count is 0, whatever
    their log says. *)
Theorem successful_iff_cleaned_positive (docs : list env) (fuel : nat)
    (results : list (nat * nat)) :
  map (fun E => fst (run_worker fuel E)) docs = map Val results ->
  exists s, main docs fuel = Val s
            /\ Summary.successful_files s
               = len (List.filter (fun r => (0 <? fst r)%nat) results)
            /\ Summary.failed_files s
               = len (List.filter (fun r => (fst r =? 0)%nat) results).
Proof.
  intros Hres. unfold main, summarize. rewrite Hres.
  destruct (collect_results results (Tally 0 0 0)) as (t & Ht & Hs). rewrite Ht.
  eexists. split; [reflexivity|]. simpl in *. split; [lia|].
  pose proof (filter_partition_len results) as Hp.
  assert (Hlen : len (map (@Val (nat * nat)) results) = len results).
  { unfold len. by rewrite length_map. }
  lia.
Qed.

(** A cleaned document and a rejected one: one successful, one failed. *)
Lemma successful_iff_cleaned_positive_witness :
  map (fun E => fst (run_worker 1 E))
      [clean_doc (lit "a") (lit "Hello world"); rejected_doc (lit "c") (lit "Hello again")]
  = map Val [(1, 1)%nat; (0, 1)%nat]
  /\ exists s,
       main [clean_doc (lit "a") (lit "Hello world");
             rejected_doc (lit "c") (lit "Hello again")] 1 = Val s
       /\ Summary.successful_files s = 1
       /\ Summary.failed_files s = 1.
Proof.
  split; [reflexivity|].
  exact (successful_iff_cleaned_positive
           [clean_doc (lit "a") (lit "Hello world");
            rejected_doc (lit "c") (lit "Hello again")] 1
           [(1, 1)%nat; (0, 1)%nat] eq_refl).
Defined.

(** * Further properties *)

(** ** Chunker: sizes and counts *)

Lemma join_nl_snoc (ls : list str) (l : str) :
  ls <> [] -> join_nl (ls ++ [l]) = join_nl ls ++ NL :: l.
Proof.
  induction ls as [|x ls IH]; [done|]. intros _.
  destruct ls as [|y ls]; [done|].
  change (join_nl ((x :: y :: ls) ++ [l])) with (x ++ NL :: join_nl ((y :: ls) ++ [l])).
  rewrite IH by done. change (join_nl (x :: y :: ls)) with (x ++ NL :: join_nl (y :: ls)).
  by rewrite <- app_assoc.
Qed.

Lemma len_app {A} (a b : list A) : len (a ++ b) = len a + len b.
Proof. unfold len. rewrite length_app. lia. Qed.

Lemma len_cons {A} (x : A) (a : list A) : len (x :: a) = len a + 1.
Proof. unfold len. simpl. lia. Qed.

Lemma len_nonneg {A} (a : list A) : 0 <= len a.
Proof. unfold len. lia. Qed.

Lemma chunk_step_sized (S : Z) (st : chunker) (line : str) :
  no_nl line -> sized S st -> sized S (chunk_step S st line).
Proof.
  intros Hline (Hchunks & Hcur & Hsize & Hfit). unfold chunk_step, sized.
  destruct ((current_size st + len line >? S) && truthy (current_chunk st)) eqn:Hc;
    cbn [chunks current_chunk current_size].
  - apply andb_true_iff in Hc as [_ Hne%truthy_true].
    split; [|split; [|split]].
    + apply Forall_app. split; [done|]. constructor; [|constructor].
      intros Hbig. destruct (current_chunk st) as [|l [|l' rest]] eqn:Hcc; [done| |].
      * simpl. by inversion Hcur.
      * exfalso. specialize (Hfit ltac:(simpl; lia)). lia.
    + by repeat constructor.
    + simpl. lia.
    + simpl. lia.
  - split; [done|]. split; [|split].
    + apply Forall_app. split; [done|by repeat constructor].
    + destruct (current_chunk st) as [|l rest] eqn:Hcc.
      * simpl. rewrite Hsize. lia.
      * rewrite join_nl_snoc by done. rewrite len_app, len_cons.
        destruct (join_nl (l :: rest) ++ NL :: line) eqn:Hj; [by destruct (join_nl (l :: rest))|].
        destruct ((l :: rest) ++ [line]) eqn:Hk; [done|]. lia.
    + intros Hlen. destruct (current_chunk st) as [|l rest] eqn:Hcc; [simpl in Hlen; lia|].
      rewrite join_nl_snoc by done. rewrite len_app, len_cons.
      rewrite andb_true_r, Z.gtb_ltb in Hc. apply Z.ltb_ge in Hc.
      lia.
Qed.

Lemma chunk_fold_sized (S : Z) (lines : list str) (st : chunker) :
  Forall no_nl lines -> sized S st -> sized S (fold_left (chunk_step S) lines st).
Proof.
  revert st. induction lines as [|l lines IH]; intros st Hall Hst; simpl; [done|].
  inversion Hall as [|? ? Hl Hls]; subst. apply IH; [done|]. by apply chunk_step_sized.
Qed.

(** Property X1.

    The target size is a soft one, but only a chunk made of a single line
    goes beyond it. *)
Theorem chunk_text_oversize_is_one_line (T : str) (S : Z) (chunk : str) :
  chunk ∈ chunk_text T S -> S < len chunk -> NL ∉ chunk.
Proof.
  intros Hin Hbig. unfold chunk_text in Hin.
  apply list_elem_of_In, filter_In in Hin as [Hin _]. apply list_elem_of_In in Hin.
  unfold chunk_text_raw in Hin.
  destruct (chunk_fold_sized S (split_nl T) (Chunker [] [] 0) (split_nl_no_nl T))
    as (Hchunks & Hcur & Hsize & Hfit).
  { split; [constructor|]. split; [constructor|]. split; [done|]. simpl. lia. }
  set (st := fold_left (chunk_step S) (split_nl T) (Chunker [] [] 0)) in *.
  assert (Hlast : truthy (current_chunk st) = true -> S < len (join_nl (current_chunk st)) ->
                  NL ∉ join_nl (current_chunk st)).
  { intros _ Hb. destruct (current_chunk st) as [|l [|l' rest]] eqn:Hcc; [by intros ?%elem_of_nil| |].
    - simpl. by inversion Hcur.
    - exfalso. specialize (Hfit ltac:(simpl; lia)). lia. }
  rewrite Forall_forall in Hchunks.
  destruct (truthy (current_chunk st)) eqn:Ht.
  - apply elem_of_app in Hin as [Hin|Hin]; [by apply Hchunks|].
    apply list_elem_of_singleton in Hin as ->. by apply Hlast.
  - by apply Hchunks.
Qed.

Lemma join_nl_prefix_len (a b : list str) : len (join_nl a) <= len (join_nl (a ++ b)).
Proof.
  induction b as [|x b IH] using rev_ind; [rewrite app_nil_r; lia|].
  rewrite app_assoc. destruct (a ++ b) as [|y ab] eqn:Hab.
  - apply app_eq_nil in Hab as [-> _]. apply len_nonneg.
  - rewrite join_nl_snoc by done. rewrite len_app, len_cons.
    pose proof (len_nonneg x). lia.
Qed.

Lemma chunk_fold_fits (S : Z) (ls cur : list str) (cs : Z) :
  cs = match cur with [] => 0 | _ :: _ => len (join_nl cur) + 1 end ->
  len (join_nl (cur ++ ls)) <= S ->
  exists cs', fold_left (chunk_step S) ls (Chunker [] cur cs) = Chunker [] (cur ++ ls) cs'.
Proof.
  revert cur cs. induction ls as [|l ls IH]; intros cur cs Hcs Hfit; simpl.
  - exists cs. by rewrite app_nil_r.
  - assert (Hstep : chunk_step S (Chunker [] cur cs) l
                    = Chunker [] (cur ++ [l]) (cs + (len l + 1))).
    { unfold chunk_step. cbn [chunks current_chunk current_size].
      destruct cur as [|c cur']; [by rewrite andb_false_r|].
      replace (cs + len l >? S) with false; [done|].
      symmetry. rewrite Z.gtb_ltb. apply Z.ltb_ge.
      pose proof (join_nl_prefix_len ((c :: cur') ++ [l]) ls) as Hp.
      replace (((c :: cur') ++ [l]) ++ ls) with ((c :: cur') ++ l :: ls) in Hp
        by (by rewrite <- app_assoc).
      rewrite join_nl_snoc, len_app, len_cons in Hp by done. lia. }
    rewrite Hstep.
    destruct (IH (cur ++ [l]) (cs + (len l + 1))) as [cs' Hfold].
    + destruct cur as [|c cur'].
      * subst cs. simpl. lia.
      * rewrite join_nl_snoc, len_app, len_cons by done.
        destruct ((c :: cur') ++ [l]) eqn:Hk; [done|]. lia.
    + by rewrite <- app_assoc.
    + exists cs'. by rewrite Hfold, <- app_assoc.
Qed.

(** Property X2.

    A text no longer than the target size is not cut: it is the only
    chunk, unchanged, unless it is blank, in which case there is no chunk. *)
Theorem chunk_text_short_text_is_one_chunk (T : str) (S : Z) :
  len T <= S -> chunk_text T S = if nonblank T then [T] else [].
Proof.
  intros Hfit. unfold chunk_text, chunk_text_raw.
  destruct (chunk_fold_fits S (split_nl T) [] 0 eq_refl) as [cs' ->].
  { simpl. by rewrite join_split. }
  simpl. pose proof (split_nl_not_nil T) as Hne.
  destruct (split_nl T) as [|l ls] eqn:Hs; [done|]. cbn [truthy].
  rewrite <- Hs, join_split. simpl. unfold nonblank. by destruct (truthy (strip T)).
Qed.

Lemma chunk_text_short_text_is_one_chunk_witness :
  len (lit "ab" ++ NL :: lit "cd") <= default_chunk_size
  /\ chunk_text (lit "ab" ++ NL :: lit "cd") default_chunk_size
     = if nonblank (lit "ab" ++ NL :: lit "cd") then [lit "ab" ++ NL :: lit "cd"] else [].
Proof.
  split; [by vm_compute|].
  apply (chunk_text_short_text_is_one_chunk (lit "ab" ++ NL :: lit "cd") default_chunk_size).
  by vm_compute.
Defined.

Lemma forallb_join_nl (f : char -> bool) (ls : list str) :
  f NL = true -> Forall (fun l => forallb f l = true) ls -> forallb f (join_nl ls) = true.
Proof.
  intros Hnl. induction 1 as [|l ls Hl Hls IH]; [done|].
  destruct ls as [|l' ls']; [done|].
  change (join_nl (l :: l' :: ls')) with (l ++ NL :: join_nl (l' :: ls')).
  rewrite forallb_app. cbn [forallb]. by rewrite Hl, Hnl, IH.
Qed.

Lemma chunk_text_blank (T : str) (S : Z) :
  forallb isspace T = true -> chunk_text T S = [].
Proof.
  intros Hblank. unfold chunk_text. apply filter_all_false.
  apply Forall_forall. intros c Hc. apply nonblank_false.
  rewrite <- (join_split c). apply forallb_join_nl; [done|].
  apply Forall_forall. intros l Hl.
  assert (Hin : l ∈ split_nl T).
  { rewrite <- (chunk_text_raw_lines T S). unfold lines_of.
    apply list_elem_of_In, in_concat. exists (split_nl c).
    split; [apply in_map|]; by apply list_elem_of_In. }
  pose proof (split_nl_blank T Hblank) as Hall. rewrite Forall_forall in Hall.
  by apply nonblank_false, Hall.
Qed.

(** Property X3.

    A text of white space only, the empty text included, gives no chunk
    at all, whatever the target size. *)
Theorem chunk_text_blank_text_no_chunk (T : str) (S : Z) :
  forallb isspace T = true -> chunk_text T S = [].
Proof. apply chunk_text_blank. Qed.

Lemma chunk_text_blank_text_no_chunk_witness :
  forallb isspace (lit "  " ++ NL :: lit " ") = true
  /\ chunk_text (lit "  " ++ NL :: lit " ") 1 = [].
Proof.
  split; [by vm_compute|].
  apply (chunk_text_blank_text_no_chunk (lit "  " ++ NL :: lit " ") 1). by vm_compute.
Defined.

Lemma length_lines_of (cs : list str) : (length cs <= length (lines_of cs))%nat.
Proof.
  unfold lines_of. induction cs as [|c cs IH]; simpl; [lia|].
  rewrite length_app. pose proof (split_nl_not_nil c).
  destruct (split_nl c); [done|]. simpl. lia.
Qed.

(** Property X4.

    Chunks are cut at line ends only, so a text never gives more chunks
    than it has lines. *)
Theorem chunk_text_count_le_lines (T : str) (S : Z) :
  (length (chunk_text T S) <= length (split_nl T))%nat.
Proof.
  rewrite <- (chunk_text_raw_lines T S). unfold chunk_text.
  pose proof (List.filter_length_le (fun chunk => truthy (strip chunk)) (chunk_text_raw T S)).
  pose proof (length_lines_of (chunk_text_raw T S)). lia.
Qed.

Lemma nonspace_app (a b : str) : nonspace (a ++ b) = nonspace a ++ nonspace b.
Proof. unfold nonspace. apply List.filter_app. Qed.

Lemma nonspace_join_nl (ls : list str) : nonspace (join_nl ls) = nonspace (concat ls).
Proof.
  induction ls as [|l ls IH]; [done|].
  destruct ls as [|l' ls'].
  - simpl. by rewrite app_nil_r.
  - change (join_nl (l :: l' :: ls')) with (l ++ NL :: join_nl (l' :: ls')).
    change (concat (l :: l' :: ls')) with (l ++ concat (l' :: ls')).
    rewrite !nonspace_app. f_equal. exact IH.
Qed.

Lemma nonspace_blank (s : str) : nonblank s = false -> nonspace s = [].
Proof.
  intros H%nonblank_false. unfold nonspace. apply filter_all_false.
  apply Forall_forall. intros c Hc%list_elem_of_In.
  rewrite forallb_forall in H. by rewrite (H c Hc).
Qed.

Lemma nonspace_concat_filter (ls : list str) :
  nonspace (concat (List.filter nonblank ls)) = nonspace (concat ls).
Proof.
  induction ls as [|l ls IH]; [done|]. simpl.
  destruct (nonblank l) eqn:Hl; simpl; rewrite !nonspace_app, ?IH; [done|].
  by rewrite (nonspace_blank l Hl).
Qed.

Lemma nonspace_lines_of (cs : list str) :
  nonspace (concat (lines_of cs)) = nonspace (concat cs).
Proof.
  unfold lines_of. induction cs as [|c cs IH]; [done|]. simpl.
  rewrite concat_app, !nonspace_app, IH. f_equal.
  by rewrite <- nonspace_join_nl, join_split.
Qed.

(** Property X5.

    Chunking loses white space only: the characters of the chunks that
    are not white space are those of the text, in the same order. *)
Theorem chunk_text_keeps_nonspace (T : str) (S : Z) :
  nonspace (concat (chunk_text T S)) = nonspace T.
Proof.
  rewrite <- nonspace_lines_of, <- nonspace_concat_filter.
  rewrite chunk_text_keeps_nonblank_lines, nonspace_concat_filter.
  by rewrite <- nonspace_join_nl, join_split.
Qed.

Lemma chunk_text_oversize_is_one_line_witness :
  lit "abcdef" ∈ chunk_text (lit "abcdef" ++ NL :: lit "gh") 3
  /\ 3 < len (lit "abcdef")
  /\ NL ∉ lit "abcdef".
Proof.
  assert (Hin : lit "abcdef" ∈ chunk_text (lit "abcdef" ++ NL :: lit "gh") 3)
    by (vm_compute; left).
  assert (Hbig : 3 < len (lit "abcdef")) by (by vm_compute).
  split; [exact Hin|]. split; [exact Hbig|].
  exact (chunk_text_oversize_is_one_line _ 3 _ Hin Hbig).
Defined.

(** ** Reader: the order of the encodings *)

Lemma read_with_decoded (E : env) (encs : list encoding) (content : str) :
  read_with E encs = inr content
  <-> exists tried enc rest,
        encs = tried ++ enc :: rest
        /\ Forall (fun enc' => open_read E enc' = UnicodeDecodeError) tried
        /\ open_read E enc = Decoded content.
Proof.
  split.
  - induction encs as [|enc encs IH]; simpl; [discriminate|].
    destruct (open_read E enc) as [c| |e] eqn:Henc; intros H.
    + injection H as <-. by exists [], enc, encs.
    + destruct (IH H) as (tried & enc' & rest & -> & Htried & Hdec).
      exists (enc :: tried), enc', rest. split; [done|]. split; [by constructor|done].
    + discriminate.
  - intros (tried & enc & rest & -> & Htried & Hdec).
    induction Htried as [|enc' tried Henc' _ IH]; simpl.
    + by rewrite Hdec.
    + by rewrite Henc'.
Qed.

(** Property X6.

    The reader returns a text exactly when some encoding of its list
    decodes the file and every encoding before it fails to decode: the
    text is the decoding under the first encoding that works, and the
    encodings after it are not looked at. The reader changes nothing. *)
Theorem read_returns_first_decoding (E : env) (s s' : state) (content : str) :
  read_file_with_fallback_encoding E s = (Val content, s')
  <-> s' = s
      /\ exists tried enc rest,
           encodings = tried ++ enc :: rest
           /\ Forall (fun enc' => open_read E enc' = UnicodeDecodeError) tried
           /\ open_read E enc = Decoded content.
Proof.
  rewrite <- read_with_decoded. unfold read_file_with_fallback_encoding.
  destruct (read_with E encodings) as [e|c]; unfold ret, raise; split.
  - discriminate.
  - by intros [_ ?].
  - intros [= -> ->]. done.
  - intros [-> [= ->]]. done.
Qed.

(** Property X7.

    The reader raises in two cases only: an open or a read raised
    something other than a decoding error, which leaves the reader at once
    with that exception, the later encodings untried; or every encoding
    failed to decode, and the exception is the reader's own ValueError. *)
Theorem read_raises_first_failure (E : env) (s s' : state) (e : exn) :
  read_file_with_fallback_encoding E s = (Raise e, s')
  <-> s' = s
      /\ ((exists tried enc rest,
             encodings = tried ++ enc :: rest
             /\ Forall (fun enc' => open_read E enc' = UnicodeDecodeError) tried
             /\ open_read E enc = ReadRaises e)
          \/ (Forall (fun enc' => open_read E enc' = UnicodeDecodeError) encodings
              /\ e = ValueError (lit "Unable to read the file " ++ file_path E
                                 ++ lit " with any of the attempted encodings"))).
Proof.
  assert (Hgen : forall encs,
    read_with E encs = inl e
    <-> (exists tried enc rest,
           encs = tried ++ enc :: rest
           /\ Forall (fun enc' => open_read E enc' = UnicodeDecodeError) tried
           /\ open_read E enc = ReadRaises e)
        \/ (Forall (fun enc' => open_read E enc' = UnicodeDecodeError) encs
            /\ e = ValueError (lit "Unable to read the file " ++ file_path E
                               ++ lit " with any of the attempted encodings"))).
  { induction encs as [|enc encs IH]; simpl.
    - split.
      + intros [= <-]. right. by split.
      + intros [(tried & enc & rest & Heq & _)|[_ ->]]; [by destruct tried|done].
    - destruct (open_read E enc) as [c| |e'] eqn:Henc.
      + split; [discriminate|].
        intros [(tried & enc' & rest & Heq & Htried & Hraise)|[Hall _]].
        * destruct tried as [|t tried]; simpl in Heq; injection Heq as <- ->.
          -- congruence.
          -- inversion Htried; congruence.
        * inversion Hall; congruence.
      + rewrite IH. split.
        * intros [(tried & enc' & rest & -> & Htried & Hraise)|[Hall ->]].
          -- left. exists (enc :: tried), enc', rest. split; [done|].
             split; [by constructor|done].
          -- right. split; [by constructor|done].
        * intros [(tried & enc' & rest & Heq & Htried & Hraise)|[Hall ->]].
          -- destruct tried as [|t tried]; simpl in Heq; injection Heq as <- ->.
             ++ congruence.
             ++ left. exists tried, enc', rest. split; [done|].
                split; [by inversion Htried|done].
          -- right. split; [by inversion Hall|done].
      + split.
        * intros [= <-]. left. by exists [], enc, encs.
        * intros [(tried & enc' & rest & Heq & Htried & Hraise)|[Hall _]].
          -- destruct tried as [|t tried]; simpl in Heq; injection Heq as <- ->.
             ++ congruence.
             ++ inversion Htried; congruence.
          -- inversion Hall; congruence. }
  rewrite <- Hgen. unfold read_file_with_fallback_encoding.
  destruct (read_with E encodings) as [e'|c]; unfold ret, raise; split.
  - intros [= -> ->]. done.
  - intros [-> [= ->]]. done.
  - discriminate.
  - by intros [_ ?].
Qed.

(** ** Rate limiter: delays and the degenerate limit *)

Lemma Forall_filter_keep {A} (P : A -> Prop) (f : A -> bool) (l : list A) :
  Forall P l -> Forall P (List.filter f l).
Proof.
  induction 1 as [|x l Hx _ IH]; simpl; [constructor|].
  destruct (f x); [by constructor|done].
Qed.

(** Property X8.

    A limiter with a positive limit and a period that is not negative
    delays a call by one period at most, and never raises, as long as no
    recorded timestamp lies in the future; this holds again once the gate
    is passed. *)
Theorem gate_delay_at_most_period (self : RateLimiter) (s : state) :
  0 < max_calls self ->
  (0 <= period self)%Q ->
  Forall (fun t => (t <= clock s)%Q) (rl_calls s) ->
  exists s',
    gate self s = (Val tt, s')
    /\ (clock s <= clock s')%Q
    /\ (clock s' <= clock s + period self)%Q
    /\ Forall (fun t => (t <= clock s')%Q) (rl_calls s').
Proof.
  intros Hpos Hper Hpast.
  destruct s as [clk calls tr api io files out logf logd vch vcl]. simpl in Hpast.
  unfold gate, bind, time_time, gets, modify, ret. simpl.
  pose proof (Forall_filter_keep _ (fun t => Qltb (clk - t) (period self)) _ Hpast) as Hkeptpast.
  destruct (len (List.filter (fun t => Qltb (clk - t) (period self)) calls) >=? max_calls self)
    eqn:Hfull.
  - destruct (List.filter (fun t => Qltb (clk - t) (period self)) calls) as [|t0 kept] eqn:Hkept.
    + exfalso. unfold len in Hfull. simpl in Hfull. apply Z.geb_le in Hfull. lia.
    + apply filter_head in Hkept as Hyoung. apply Qltb_true in Hyoung.
      assert (Ht0 : (t0 <= clk)%Q) by (by inversion Hkeptpast).
      unfold sleep.
      assert (Hs : Qltb (period self - (clk - t0)) 0 = false) by (apply Qltb_false; lra).
      rewrite Hs. unfold modify. simpl.
      eexists. split; [reflexivity|]. simpl.
      split; [lra|]. split; [lra|].
      change (t0 :: kept ++ [clk]) with ((t0 :: kept) ++ [clk]).
      apply Forall_app. split.
      * eapply Forall_impl; [exact Hkeptpast|]. simpl. intros t Ht. lra.
      * repeat constructor. lra.
  - simpl. eexists. split; [reflexivity|]. simpl.
    split; [lra|]. split; [lra|].
    apply Forall_app. split; [done|]. repeat constructor. lra.
Qed.

Lemma gate_delay_at_most_period_witness :
  0 < max_calls small_limiter
  /\ (0 <= period small_limiter)%Q
  /\ Forall (fun t => (t <= clock (set_clock 2 (set_rl_calls [0; 1]%Q initial_state)))%Q)
            (rl_calls (set_clock 2 (set_rl_calls [0; 1]%Q initial_state)))
  /\ exists s',
       gate small_limiter (set_clock 2 (set_rl_calls [0; 1]%Q initial_state)) = (Val tt, s')
       /\ (clock (set_clock 2 (set_rl_calls [0; 1]%Q initial_state)) <= clock s')%Q
       /\ (clock s' <= clock (set_clock 2 (set_rl_calls [0; 1]%Q initial_state))
                       + period small_limiter)%Q
       /\ Forall (fun t => (t <= clock s')%Q) (rl_calls s').
Proof.
  assert (Hpos : 0 < max_calls small_limiter) by (by vm_compute).
  assert (Hper : (0 <= period small_limiter)%Q) by (by vm_compute).
  assert (Hpast : Forall (fun t => (t <= clock (set_clock 2 (set_rl_calls [0; 1]%Q initial_state)))%Q)
                         (rl_calls (set_clock 2 (set_rl_calls [0; 1]%Q initial_state))))
    by (repeat constructor; by vm_compute).
  split; [exact Hpos|]. split; [exact Hper|]. split; [exact Hpast|].
  exact (gate_delay_at_most_period small_limiter _ Hpos Hper Hpast).
Defined.

(** Property X9.

    A limiter whose limit is zero or negative cannot let a first call
    through: with no timestamp retained, the test for a full window
    holds and the look-up of the oldest timestamp raises IndexError; the
    gated function is not called. *)
Theorem wrapper_without_capacity {A} (self : RateLimiter) (func : M A) (s : state) :
  max_calls self <= 0 ->
  List.filter (fun t => Qltb (clock s - t) (period self)) (rl_calls s) = [] ->
  wrapper self func s
  = (Raise (IndexError (lit "list index out of range")), set_rl_calls [] s).
Proof.
  intros Hmax Hkept.
  destruct s as [clk calls tr api io files out logf logd vch vcl]. simpl in Hkept.
  unfold wrapper, gate, bind, time_time, gets, modify, ret.
  cbn [clock rl_calls set_rl_calls]. rewrite Hkept. unfold len. change (Z.of_nat (length [])) with 0.
  destruct (0 >=? max_calls self) eqn:Hfull; [reflexivity|].
  exfalso. rewrite Z.geb_leb in Hfull. apply Z.leb_gt in Hfull. lia.
Qed.

Lemma wrapper_without_capacity_witness :
  max_calls {| max_calls := 0; period := 60 |} <= 0
  /\ List.filter (fun t => Qltb (clock initial_state - t) (period {| max_calls := 0; period := 60 |}))
                 (rl_calls initial_state) = []
  /\ wrapper {| max_calls := 0; period := 60 |} (ret tt) initial_state
     = (Raise (IndexError (lit "list index out of range")), set_rl_calls [] initial_state).
Proof.
  assert (Hmax : max_calls {| max_calls := 0; period := 60 |} <= 0) by (by vm_compute).
  split; [exact Hmax|]. split; [reflexivity|].
  exact (wrapper_without_capacity {| max_calls := 0; period := 60 |} (ret tt) initial_state
           Hmax eq_refl).
Defined.

(** ** Invoker: recovery within the three attempts *)

Lemma body_answer (E : env) (chunk : str) (n total : nat) (s : state) :
  transient (service E (api_calls s)) = false ->
  clean_text_chunk_body E chunk n total s
  = (Val (answer chunk (service E (api_calls s))), set_api_calls (S (api_calls s)) s).
Proof.
  intros Ht. unfold clean_text_chunk_body, bind, gets, modify. cbn beta iota.
  destruct (service E (api_calls s)) as [[|text more]|e]; simpl in Ht; [done|done|].
  apply negb_false_iff in Ht. destruct e; simpl in Ht; try discriminate.
  cbn [exn_str]. by rewrite Ht.
Qed.

Lemma body_fails (E : env) (chunk : str) (n total : nat) (s : state) :
  transient (service E (api_calls s)) = true ->
  exists e, clean_text_chunk_body E chunk n total s
            = (Raise e, set_api_calls (S (api_calls s)) s).
Proof.
  intros Ht. unfold clean_text_chunk_body, bind, gets, modify. cbn beta iota.
  destruct (service E (api_calls s)) as [[|text more]|e]; simpl in Ht; [by eexists|done|].
  apply negb_true_iff in Ht. exists e. destruct e; try reflexivity.
  simpl in Ht. cbn [exn_str]. by rewrite Ht.
Qed.

Lemma attempt_answer (E : env) (chunk : str) (n total : nat) (s : state) :
  transient (service E (api_calls s)) = false ->
  exists clk calls tr,
    wrapper rate_limiter (clean_text_chunk_body E chunk n total) s
    = (Val (answer chunk (service E (api_calls s))),
       retimed clk calls tr (set_api_calls (S (api_calls s)) s))
    /\ backoff_sleeps tr = backoff_sleeps (trace s).
Proof.
  intros Ht.
  destruct (wrapper_run (clean_text_chunk_body E chunk n total) s) as (clk & calls & tr & Hw & Hb).
  exists clk, calls, tr. split; [|exact Hb].
  rewrite Hw. rewrite body_answer by (by destruct s). by destruct s.
Qed.

Lemma attempt_fails (E : env) (chunk : str) (n total : nat) (s : state) :
  transient (service E (api_calls s)) = true ->
  exists e clk calls tr,
    wrapper rate_limiter (clean_text_chunk_body E chunk n total) s
    = (Raise e, retimed clk calls tr (set_api_calls (S (api_calls s)) s))
    /\ backoff_sleeps tr = backoff_sleeps (trace s).
Proof.
  intros Ht.
  destruct (wrapper_run (clean_text_chunk_body E chunk n total) s) as (clk & calls & tr & Hw & Hb).
  destruct (body_fails E chunk n total (retimed clk calls tr s)) as [e He]; [by destruct s|].
  exists e, clk, calls, tr. split; [|exact Hb].
  rewrite Hw, He. by destruct s.
Qed.

Lemma wait_first_attempts (a : nat) : (a <= 2)%nat -> wait_exponential 1 4 10 a = 4%Q.
Proof. intros Ha. destruct a as [|[|[|a]]]; [reflexivity..|lia]. Qed.

Lemma retry_loop_recovers (E : env) (chunk : str) (n total : nat) (j : nat) :
  forall (fuel a : nat) (s : state),
    (j < fuel)%nat -> (a + j <= 3)%nat ->
    (forall i, (i < j)%nat -> transient (service E (api_calls s + i)) = true) ->
    transient (service E (api_calls s + j)) = false ->
    exists clk calls tr,
      retry_loop (stop_after_attempt 3) (wait_exponential 1 4 10) fuel a
                 (wrapper rate_limiter (clean_text_chunk_body E chunk n total)) s
      = (Val (answer chunk (service E (api_calls s + j))),
         retimed clk calls tr (set_api_calls (api_calls s + j + 1) s))
      /\ backoff_sleeps tr = backoff_sleeps (trace s) ++ repeat 4%Q j.
Proof.
  induction j as [|j IH]; intros fuel a s Hfuel Ha Hfail Hok.
  - destruct fuel as [|fuel]; [lia|]. rewrite Nat.add_0_r in *.
    destruct (attempt_answer E chunk n total s Hok) as (clk & calls & tr & Hw & Hb).
    exists clk, calls, tr. cbn [retry_loop]. unfold try_except. rewrite Hw.
    rewrite Nat.add_1_r. split; [done|]. simpl. by rewrite app_nil_r.
  - destruct fuel as [|fuel]; [lia|].
    destruct (attempt_fails E chunk n total s) as (e & clk & calls & tr & Hw & Hb).
    { rewrite <- (Nat.add_0_r (api_calls s)). apply Hfail. lia. }
    set (s1 := retimed clk calls tr (set_api_calls (S (api_calls s)) s)) in *.
    pose proof (sleep_run BackoffSleep 4 s1 eq_refl) as Hz.
    set (s2 := retimed (clock s1 + 4) (rl_calls s1) (trace s1 ++ [BackoffSleep 4]) s1) in *.
    assert (Hapi : api_calls s2 = S (api_calls s)) by (by destruct s).
    destruct (IH fuel (S a) s2) as (clk' & calls' & tr' & Hr & Hb'); [lia|lia| | |].
    { intros i Hi. rewrite Hapi. replace (S (api_calls s) + i)%nat
        with (api_calls s + S i)%nat by lia. apply Hfail. lia. }
    { rewrite Hapi. by replace (S (api_calls s) + j)%nat with (api_calls s + S j)%nat by lia. }
    exists clk', calls', tr'. split.
    + cbn [retry_loop]. unfold try_except. rewrite Hw.
      replace (stop_after_attempt 3 a) with false
        by (symmetry; apply Nat.leb_gt; lia).
      rewrite wait_first_attempts by lia. unfold bind. rewrite Hz, Hr, Hapi.
      replace (S (api_calls s) + j)%nat with (api_calls s + S j)%nat by lia.
      destruct s as [clk0 calls0 tr0 api io files out logf logd vch vcl].
      unfold retimed, set_api_calls. simpl.
      by replace (api + S j + 1)%nat with (S api + j + 1)%nat by lia.
    + rewrite Hb'. subst s2 s1. destruct s. simpl. rewrite backoff_sleeps_app, Hb. simpl.
      by rewrite <- app_assoc.
Qed.

(** Property X10.

    When the service fails [j] times in a row, [j] being 0, 1 or 2, with
    errors that are not rejections (an empty response counts as one) and
    then answers, [clean_text_chunk] returns what that answer gives: the
    stripped text marked cleaned, or the chunk itself on a rejection. It
    has called the service [j + 1] times and slept 4 time units after each
    failure; the files and the log are untouched. *)
Theorem clean_text_chunk_recovers (E : env) (chunk : str) (n total j : nat) (s : state) :
  (j <= 2)%nat ->
  (forall i, (i < j)%nat -> transient (service E (api_calls s + i)) = true) ->
  transient (service E (api_calls s + j)) = false ->
  exists s',
    clean_text_chunk E chunk n total s
    = (Val (answer chunk (service E (api_calls s + j))), s')
    /\ api_calls s' = (api_calls s + j + 1)%nat
    /\ backoff_sleeps (trace s') = backoff_sleeps (trace s) ++ repeat 4%Q j
    /\ chunk_files s' = chunk_files s
    /\ log_data s' = log_data s.
Proof.
  intros Hj Hfail Hok.
  destruct (retry_loop_recovers E chunk n total j 3 1 s) as (clk & calls & tr & Hr & Hb);
    [lia|lia|done|done|].
  eexists. split; [exact Hr|]. by destruct s.
Qed.

Lemma clean_text_chunk_recovers_witness :
  (2 <= 2)%nat
  /\ (forall i, (i < 2)%nat ->
        transient (service (flaky_doc (lit "a") (lit "a")) (api_calls initial_state + i)) = true)
  /\ transient (service (flaky_doc (lit "a") (lit "a")) (api_calls initial_state + 2)) = false
  /\ exists s',
       clean_text_chunk (flaky_doc (lit "a") (lit "a")) (lit "a") 1 1 initial_state
       = (Val (lit "clean", true), s')
       /\ api_calls s' = 3%nat
       /\ backoff_sleeps (trace s') = [4; 4]%Q.
Proof.
  assert (Hfail : forall i, (i < 2)%nat ->
            transient (service (flaky_doc (lit "a") (lit "a")) (api_calls initial_state + i))
            = true).
  { intros [|[|i]] Hi; [reflexivity|reflexivity|lia]. }
  split; [lia|]. split; [exact Hfail|]. split; [reflexivity|].
  destruct (clean_text_chunk_recovers (flaky_doc (lit "a") (lit "a")) (lit "a") 1 1 2
              initial_state (le_n 2) Hfail eq_refl)
    as (s' & Hrun & Hapi & Hb & _).
  exists s'. split; [exact Hrun|]. split; [exact Hapi|exact Hb].
Defined.

(** ** Invoker: one to three calls, whatever the service does *)

Lemma body_step (E : env) (chunk : str) (n total : nat) (s : state) :
  (exists r, clean_text_chunk_body E chunk n total s
             = (Val r, set_api_calls (S (api_calls s)) s))
  \/ (exists e, clean_text_chunk_body E chunk n total s
                = (Raise e, set_api_calls (S (api_calls s)) s)).
Proof.
  destruct (transient (service E (api_calls s))) eqn:Ht.
  - right. by apply body_fails.
  - left. eexists. by apply body_answer.
Qed.

Lemma attempt_step (E : env) (chunk : str) (n total : nat) (s : state) :
  exists clk calls tr,
    (exists r, wrapper rate_limiter (clean_text_chunk_body E chunk n total) s
               = (Val r, retimed clk calls tr (set_api_calls (S (api_calls s)) s)))
    \/ (exists e, wrapper rate_limiter (clean_text_chunk_body E chunk n total) s
                  = (Raise e, retimed clk calls tr (set_api_calls (S (api_calls s)) s))).
Proof.
  destruct (wrapper_run (clean_text_chunk_body E chunk n total) s) as (clk & calls & tr & Hw & _).
  exists clk, calls, tr. rewrite Hw.
  destruct (body_step E chunk n total (retimed clk calls tr s)) as [[r Hr]|[e He]].
  - left. exists r. rewrite Hr. by destruct s.
  - right. exists e. rewrite He. by destruct s.
Qed.

Lemma retry_loop_calls (E : env) (chunk : str) (n total : nat) (fuel : nat) :
  forall (a : nat) (s : state),
    (1 <= a)%nat -> (a <= 3)%nat -> (3 - a < fuel)%nat ->
    exists r k clk calls tr,
      retry_loop (stop_after_attempt 3) (wait_exponential 1 4 10) fuel a
                 (wrapper rate_limiter (clean_text_chunk_body E chunk n total)) s
      = (r, retimed clk calls tr (set_api_calls (api_calls s + k) s))
      /\ r <> OutOfFuel
      /\ (1 <= k)%nat /\ (k <= 4 - a)%nat.
Proof.
  induction fuel as [|fuel IH]; intros a s Ha1 Ha3 Hfuel; [lia|].
  cbn [retry_loop]. unfold try_except.
  destruct (attempt_step E chunk n total s) as (clk & calls & tr & [[r Hr]|[e He]]).
  - rewrite Hr. exists (Val r), 1%nat, clk, calls, tr.
    rewrite Nat.add_1_r. split; [done|]. split; [done|]. lia.
  - rewrite He. destruct (stop_after_attempt 3 a) eqn:Hstop.
    + exists (Raise (RetryError e)), 1%nat, clk, calls, tr.
      rewrite Nat.add_1_r. split; [done|]. split; [done|]. lia.
    + apply Nat.leb_gt in Hstop.
      rewrite wait_first_attempts by lia. unfold bind.
      rewrite (sleep_run BackoffSleep 4 _ eq_refl).
      match goal with |- context [retry_loop _ _ fuel (S a) _ ?s2] =>
        destruct (IH (S a) s2) as (r & k & clk' & calls' & tr' & Hrun & Hr & Hk1 & Hk2);
          [lia|lia|lia|] end.
      exists r, (S k), clk', calls', tr'. rewrite Hrun.
      split; [|split; [done|lia]].
      f_equal. destruct s as [clk0 calls0 tr0 api io files out logf logd vch vcl].
      unfold retimed, set_api_calls. simpl.
      by replace (api + S k)%nat with (S (api + k)) by lia.
Qed.

(** Property X11.

    Whatever the service answers, one invocation of [clean_text_chunk]
    ends, by a result or by an exception, after one call to the service at
    least and three at most; it leaves the files and the log as they
    are. *)
Theorem clean_text_chunk_calls_bounded (E : env) (chunk : str) (n total : nat) (s : state) :
  fst (clean_text_chunk E chunk n total s) <> OutOfFuel
  /\ (api_calls s < api_calls (snd (clean_text_chunk E chunk n total s)))%nat
  /\ (api_calls (snd (clean_text_chunk E chunk n total s)) <= api_calls s + 3)%nat
  /\ chunk_files (snd (clean_text_chunk E chunk n total s)) = chunk_files s
  /\ log_data (snd (clean_text_chunk E chunk n total s)) = log_data s.
Proof.
  unfold clean_text_chunk, retry.
  destruct (retry_loop_calls E chunk n total 3 1 s)
    as (r & k & clk & calls & tr & -> & Hr & Hk1 & Hk2); [lia..|].
  split; [exact Hr|]. destruct s. simpl. repeat split; lia.
Qed.

(** ** FileProcessor: the loop around one chunk *)

(** What talks to the file system, waits or calls the service keeps
    every property of the document itself. *)
Section Document.

Variable P : state -> Prop.
Hypothesis HP : about_document P.
Variable E : env.

Ltac doc :=
  repeat first
    [ solve [auto]
    | apply stable_ret | apply stable_raise | apply stable_out_of_fuel
    | apply stable_gets
    | apply stable_bind; [|intros ?]
    | apply stable_try_except; [|intros ?]
    | apply stable_modify; intros [] Hs; exact (HP _ _ _ _ _ _ Hs)
    | match goal with
      | |- stable _ (match ?x with _ => _ end) => destruct x
      | |- stable _ (if ?x then _ else _) => destruct x
      end ].

Lemma document_io : stable P (io E).
Proof. unfold io. doc. Qed.

Lemma document_read_chunk_file (i : nat) : stable P (read_chunk_file E i).
Proof. unfold read_chunk_file. pose proof document_io. doc. Qed.

Lemma document_sleep (why : Q -> event) (d : Q) : stable P (sleep why d).
Proof. unfold sleep. doc. Qed.

Lemma document_gate (self : RateLimiter) : stable P (gate self).
Proof. unfold gate, time_time. pose proof (document_sleep GateSleep). doc. Qed.

Lemma document_clean_text_chunk (chunk : str) (i total : nat) :
  stable P (clean_text_chunk E chunk i total).
Proof.
  unfold clean_text_chunk, retry. apply stable_retry_loop; [apply document_sleep|].
  unfold wrapper, time_time, clean_text_chunk_body. pose proof (document_gate rate_limiter).
  doc.
Qed.

End Document.

Lemma about_log_data (L : Log.t) : about_document (fun s => log_data s = L).
Proof. by intros s clk calls tr api io Hs. Qed.

Lemma retry_always_raises {A} (fn : M A) :
  (forall s, exists e s', fn s = (Raise e, s')) ->
  forall s, exists e s', retry fn s = (Raise (RetryError e), s').
Proof.
  intros Hfn s. unfold retry. cbn [retry_loop]. unfold try_except, bind.
  change (stop_after_attempt 3 1) with false.
  change (stop_after_attempt 3 2) with false.
  change (stop_after_attempt 3 3) with true.
  rewrite wait_1, wait_2.
  destruct (Hfn s) as (e1 & s1 & ->).
  rewrite (sleep_run BackoffSleep 4 s1 eq_refl).
  match goal with |- context [fn ?s2] => destruct (Hfn s2) as (e2 & s3 & ->) end.
  rewrite (sleep_run BackoffSleep 4 s3 eq_refl).
  match goal with |- context [fn ?s4] => destruct (Hfn s4) as (e3 & s5 & ->) end.
  by eexists _, _.
Qed.

Lemma clean_text_chunk_outage (E : env) (chunk : str) (n total : nat) (s : state) :
  outage E ->
  exists e s', clean_text_chunk E chunk n total s = (Raise (RetryError e), s').
Proof.
  intros Hout. unfold clean_text_chunk. apply retry_always_raises. intros s0.
  destruct (attempt_fails E chunk n total s0 (Hout _)) as (e & clk & calls & tr & Hw & _).
  by eexists _, _.
Qed.

Lemma process_chunk_outage (E : env) (n total : nat) (s : state) :
  outage E ->
  exists e s', process_chunk E n total s = (Raise e, s') /\ log_data s' = log_data s.
Proof.
  intros Hout. unfold process_chunk.
  pose proof (document_read_chunk_file _ (about_log_data (log_data s)) E n s eq_refl) as Hread.
  unfold bind at 1.
  destruct (read_chunk_file E n s) as [[chunk|e|] s1] eqn:Hr; simpl in Hread.
  - destruct (clean_text_chunk_outage E chunk n total s1 Hout) as (e & s2 & Hc).
    pose proof (document_clean_text_chunk _ (about_log_data (log_data s)) E chunk n total
                  s1 Hread) as Hclean.
    rewrite Hc in Hclean. simpl in Hclean.
    unfold bind at 1. rewrite Hc. by eexists _, _.
  - by eexists _, _.
  - exfalso. revert Hr. unfold read_chunk_file, io, bind, gets, modify, ret, raise.
    destruct (io_fault E (io_ops s)); [discriminate|]. simpl.
    destruct (_ !! n); discriminate.
Qed.

Lemma while_true_outage (E : env) (fuel n total : nat) (s : state) :
  outage E ->
  exists s',
    while_true fuel E n total s = (OutOfFuel, s')
    /\ length (Log.errors (log_data s')) = (length (Log.errors (log_data s)) + fuel)%nat.
Proof.
  intros Hout. revert s. induction fuel as [|fuel IH]; intros s.
  - exists s. split; [done|]. lia.
  - cbn [while_true]. unfold bind at 1. unfold try_except. unfold bind at 1.
    destruct (process_chunk_outage E n total s Hout) as (e & s1 & -> & Hlog).
    unfold modify_log, bind, modify. rewrite (sleep_run PauseSleep 5 _ eq_refl).
    unfold ret. cbn beta iota.
    match goal with |- context [while_true fuel E n total ?s2] =>
      destruct (IH s2) as (s' & Hrun & Hlen) end.
    exists s'. split; [exact Hrun|].
    rewrite Hlen. destruct s1. simpl in *. rewrite Hlog.
    unfold Log.append_error. simpl. rewrite length_app. simpl. lia.
Qed.

(** Property X12.

    Under an outage the loop around a chunk never ends: whatever the
    number of rounds it is given, it uses them all, and every round adds
    one entry to the errors of the log. No exception leaves the loop, so
    the document is never marked failed. *)
Theorem while_true_never_ends_under_outage (E : env) (fuel n total : nat) (s : state) :
  outage E ->
  exists s',
    while_true fuel E n total s = (OutOfFuel, s')
    /\ length (Log.errors (log_data s')) = (length (Log.errors (log_data s)) + fuel)%nat.
Proof. apply while_true_outage. Qed.

Lemma overloaded_doc_outage (name text : str) : outage (overloaded_doc name text).
Proof. intros k. reflexivity. Qed.

Lemma while_true_never_ends_under_outage_witness :
  outage (overloaded_doc (lit "a") (lit "a"))
  /\ exists s',
       while_true 2 (overloaded_doc (lit "a") (lit "a")) 1 1 initial_state = (OutOfFuel, s')
       /\ length (Log.errors (log_data s')) = 2%nat.
Proof.
  split; [apply overloaded_doc_outage|].
  exact (while_true_never_ends_under_outage (overloaded_doc (lit "a") (lit "a")) 2 1 1
           initial_state (overloaded_doc_outage (lit "a") (lit "a"))).
Defined.

(** Property X13.

    No exception leaves the loop around a chunk, whatever the service and
    the file system do: the handler records the error, sleeps and goes
    round again. The loop ends by a processed chunk or not at all. *)
Theorem while_true_never_raises (E : env) (fuel n total : nat) (s : state) (e : exn) :
  fst (while_true fuel E n total s) <> Raise e.
Proof.
  revert s. induction fuel as [|fuel IH]; intros s; [discriminate|].
  cbn [while_true]. unfold bind at 1. unfold try_except. unfold bind at 1.
  destruct (process_chunk E n total s) as [[[]|e'|] s1].
  - discriminate.
  - unfold modify_log, bind, modify. rewrite (sleep_run PauseSleep 5 _ eq_refl).
    unfold ret. cbn beta iota. apply IH.
  - discriminate.
Qed.

(** What the [try] suite and its handler do leaves the log file as it is. *)
Section LogFile.

Variable P : state -> Prop.
Hypothesis HP : about_log_file P.
Variable E : env.

Lemma log_file_document : about_document P.
Proof. intros s clk calls tr api io Hs. by apply (HP s). Qed.

Ltac logf :=
  repeat first
    [ solve [auto]
    | apply stable_ret | apply stable_raise | apply stable_out_of_fuel
    | apply stable_gets
    | apply stable_bind; [|intros ?]
    | apply stable_try_except; [|intros ?]
    | apply stable_modify; intros s0 Hs0; apply (HP s0); [by destruct s0|exact Hs0]
    | match goal with
      | |- stable _ (match ?x with _ => _ end) => destruct x
      | |- stable _ (if ?x then _ else _) => destruct x
      end ].

Lemma log_file_write_chunk_file (i : nat) (content : str) :
  stable P (write_chunk_file E i content).
Proof. unfold write_chunk_file. pose proof (document_io P log_file_document E). logf. Qed.

Lemma log_file_process_chunk (i total : nat) : stable P (process_chunk E i total).
Proof.
  unfold process_chunk, load_cleaned_chunks, modify_log.
  pose proof (document_read_chunk_file P log_file_document E).
  pose proof (document_clean_text_chunk P log_file_document E).
  pose proof log_file_write_chunk_file. logf.
Qed.

Lemma log_file_while_true (fuel i total : nat) : stable P (while_true fuel E i total).
Proof.
  induction fuel as [|fuel IH]; simpl; [apply stable_out_of_fuel|].
  unfold modify_log. pose proof log_file_process_chunk.
  pose proof (document_sleep P log_file_document). logf.
Qed.

Lemma log_file_combine_chunks (numbers : list nat) (acc : str) :
  stable P (combine_chunks E numbers acc).
Proof.
  revert acc. induction numbers as [|i numbers IH]; intros acc; simpl.
  - apply stable_ret.
  - pose proof (document_read_chunk_file P log_file_document E). logf.
Qed.

Lemma log_file_process_chunks (fuel : nat) (chunks : list str) :
  stable P (process_chunks E fuel chunks).
Proof.
  unfold process_chunks, load_cleaned_chunks, modify_log, time_time.
  pose proof (document_io P log_file_document E).
  pose proof log_file_combine_chunks.
  apply stable_bind.
  { apply stable_for_each. intros [i c]. apply log_file_write_chunk_file. }
  intros ?. apply stable_bind; [logf|]. intros ?.
  apply stable_bind.
  { apply stable_for_each. intros i. apply log_file_while_true. }
  intros ?. logf.
Qed.

Lemma log_file_try_suite (fuel : nat) :
  stable P (try_except (process_body E fuel) process_except).
Proof.
  unfold process_body, process_except, read_file_with_fallback_encoding, modify_log.
  pose proof log_file_process_chunks. logf.
Qed.

End LogFile.

Lemma about_no_log : about_log_file no_log.
Proof. intros s s' Heq Hs. unfold no_log in *. by rewrite Heq. Qed.

Lemma stalls_bind_l {A B} (P Q : state -> Prop) (m : M A) (k : A -> M B) :
  stalls P m Q -> stalls P (bind m k) Q.
Proof. intros Hm s Hs. unfold bind. by destruct (Hm s Hs) as (s' & -> & HQ); exists s'. Qed.

Lemma stalls_bind_r {A B} (P : state -> Prop) (R : A -> state -> Prop) (Q : state -> Prop)
    (m : M A) (k : A -> M B) :
  returns P m R -> (forall a, stalls (R a) (k a) Q) -> stalls P (bind m k) Q.
Proof.
  intros Hm Hk s Hs. unfold bind. destruct (Hm s Hs) as (a & s' & -> & HR). by apply Hk.
Qed.

Lemma stalls_try_except {A} (P Q : state -> Prop) (m : M A) (h : exn -> M A) :
  stalls P m Q -> stalls P (try_except m h) Q.
Proof.
  intros Hm s Hs. unfold try_except. by destruct (Hm s Hs) as (s' & -> & HQ); exists s'.
Qed.

Lemma stalls_try_finally {A} (P Q : state -> Prop) (m : M A) (fin : M unit) :
  stalls P m Q -> stalls P (try_finally m fin) Q.
Proof.
  intros Hm s Hs. unfold try_finally. by destruct (Hm s Hs) as (s' & -> & HQ); exists s'.
Qed.

Lemma bind_ret {A B} (a : A) (k : A -> M B) : bind (ret a) k = k a.
Proof. reflexivity. Qed.

Lemma no_log_modify (f : state -> state) :
  (forall s, log_file (f s) = log_file s) ->
  returns no_log (modify f) (fun _ => no_log).
Proof. intros Hf. apply returns_modify. intros s Hs. unfold no_log in *. by rewrite Hf. Qed.

(** Property X14.

    A document with a chunk at least, read and chunked without fault,
    is never finished when the service is down for good: the worker sits
    in the loop around the first chunk, returns no pair, raises nothing
    and writes no log. *)
Theorem process_text_file_never_ends_under_outage (E : env) (fuel : nat) (text : str) :
  no_io_fault E -> outage E ->
  read_with E encodings = inr text ->
  chunk_text text default_chunk_size <> [] ->
  fst (run_worker fuel E) = OutOfFuel
  /\ log_file (snd (run_worker fuel E)) = None.
Proof.
  intros Hio Hout Hread Hne.
  assert (Hdoc : about_document no_log) by apply (log_file_document _ about_no_log).
  assert (Hstall : stalls no_log (process_text_file E fuel) no_log).
  { unfold process_text_file.
    eapply stalls_bind_r; [apply no_log_modify; by intros []|]. intros ?.
    eapply stalls_bind_r; [apply no_log_modify; by intros []|]. intros ?.
    eapply stalls_bind_r; [apply (returns_io E Hio _ Hdoc)|]. intros ?.
    eapply stalls_bind_r; [apply (returns_gets _ _ (fun _ => no_log)); done|]. intros ?.
    eapply stalls_bind_r; [apply no_log_modify; by intros []|]. intros ?.
    apply stalls_bind_l, stalls_try_finally, stalls_try_except.
    unfold process_body, read_file_with_fallback_encoding, modify_log. rewrite Hread, bind_ret.
    eapply stalls_bind_r; [apply no_log_modify; by intros []|]. intros ?.
    eapply stalls_bind_r; [apply no_log_modify; by intros []|]. intros ?.
    unfold process_chunks.
    eapply stalls_bind_r.
    { intros s Hs.
      destruct (returns_persist E Hio no_log (chunk_text text default_chunk_size) 1
                  (chunk_files s) Hdoc ltac:(by intros []) s ltac:(done))
        as (u & s' & Hrun & Hs' & _).
      exists u, s'. split; [exact Hrun|]. exact Hs'. }
    intros ?.
    eapply stalls_bind_r; [apply no_log_modify; by intros []|]. intros ?.
    apply stalls_bind_l.
    destruct (chunk_text text default_chunk_size) as [|c cs]; [done|].
    cbn [length seq for_each]. apply stalls_bind_l. intros s Hs.
    destruct (while_true_outage E fuel (0 + 1) (S (length cs)) s Hout) as (s' & Hrun & _).
    exists s'. split; [exact Hrun|].
    pose proof (log_file_while_true _ about_no_log E fuel (0 + 1) (S (length cs)) s Hs) as Hst.
    by rewrite Hrun in Hst. }
  destruct (Hstall initial_state eq_refl) as (s' & Hrun & Hs').
  unfold run_worker. by rewrite Hrun.
Qed.

Lemma process_text_file_never_ends_under_outage_witness :
  no_io_fault (overloaded_doc (lit "a") (lit "a"))
  /\ outage (overloaded_doc (lit "a") (lit "a"))
  /\ read_with (overloaded_doc (lit "a") (lit "a")) encodings = inr (lit "a")
  /\ chunk_text (lit "a") default_chunk_size <> []
  /\ fst (run_worker 2 (overloaded_doc (lit "a") (lit "a"))) = OutOfFuel
  /\ log_file (snd (run_worker 2 (overloaded_doc (lit "a") (lit "a")))) = None.
Proof.
  assert (Hio : no_io_fault (overloaded_doc (lit "a") (lit "a"))) by (by intros k).
  assert (Hne : chunk_text (lit "a") default_chunk_size <> []) by (by vm_compute).
  split; [exact Hio|]. split; [apply overloaded_doc_outage|]. split; [reflexivity|].
  split; [exact Hne|].
  exact (process_text_file_never_ends_under_outage (overloaded_doc (lit "a") (lit "a")) 2
           (lit "a") Hio (overloaded_doc_outage (lit "a") (lit "a")) eq_refl Hne).
Defined.

(** ** FileProcessor: the log that is written *)

Section Triple.

Context {A : Type}.
Variable P : state -> Prop.
Variable Qe : exn -> state -> Prop.
Variable Qo : state -> Prop.

Lemma triple_ret (a : A) (Qv : A -> state -> Prop) :
  (forall s, P s -> Qv a s) -> triple P (ret a) Qv Qe Qo.
Proof. intros H s Hs. by apply H. Qed.

Lemma triple_raise (e : exn) (Qv : A -> state -> Prop) :
  (forall s, P s -> Qe e s) -> triple P (@raise A e) Qv Qe Qo.
Proof. intros H s Hs. by apply H. Qed.

Lemma triple_gets (f : state -> A) (Qv : A -> state -> Prop) :
  (forall s, P s -> Qv (f s) s) -> triple P (gets f) Qv Qe Qo.
Proof. intros H s Hs. by apply H. Qed.

Lemma triple_bind {B} (R : A -> state -> Prop) (Qv : B -> state -> Prop)
    (m : M A) (k : A -> M B) :
  triple P m R Qe Qo -> (forall a, triple (R a) (k a) Qv Qe Qo) ->
  triple P (bind m k) Qv Qe Qo.
Proof.
  intros Hm Hk s Hs. unfold bind. specialize (Hm s Hs).
  destruct (m s) as [[a|e|] s']; [by apply Hk|done|done].
Qed.

Lemma triple_try_except (R : exn -> state -> Prop) (Qv : A -> state -> Prop)
    (m : M A) (h : exn -> M A) :
  triple P m Qv R Qo -> (forall e, triple (R e) (h e) Qv Qe Qo) ->
  triple P (try_except m h) Qv Qe Qo.
Proof.
  intros Hm Hh s Hs. unfold try_except. specialize (Hm s Hs).
  destruct (m s) as [[a|e|] s']; [done|by apply Hh|done].
Qed.

Lemma triple_try_finally (R : A -> state -> Prop) (Re : exn -> state -> Prop)
    (Qv : A -> state -> Prop) (m : M A) (fin : M unit) :
  triple P m R Re Qo ->
  (forall a, triple (R a) fin (fun _ => Qv a) Qe Qo) ->
  (forall e, triple (Re e) fin (fun _ => Qe e) Qe Qo) ->
  triple P (try_finally m fin) Qv Qe Qo.
Proof.
  intros Hm Hv He s Hs. unfold try_finally. specialize (Hm s Hs).
  destruct (m s) as [[a|e|] s']; [| |done].
  - specialize (Hv a s' Hm). by destruct (fin s') as [[[]|e'|] s''].
  - specialize (He e s' Hm). by destruct (fin s') as [[[]|e'|] s''].
Qed.

Lemma triple_stable (m : M A) :
  stable P m -> (forall e s, P s -> Qe e s) -> (forall s, P s -> Qo s) ->
  triple P m (fun _ => P) Qe Qo.
Proof.
  intros Hm He Ho s Hs. specialize (Hm s Hs).
  destruct (m s) as [[a|e|] s']; simpl in Hm; [done|by apply He|by apply Ho].
Qed.

Lemma triple_weaken (P' : state -> Prop) (Qv Qv' : A -> state -> Prop) (m : M A) :
  triple P' m Qv' Qe Qo -> (forall s, P s -> P' s) -> (forall a s, Qv' a s -> Qv a s) ->
  triple P m Qv Qe Qo.
Proof.
  intros Hm HP HQ s Hs. specialize (Hm s (HP s Hs)).
  destruct (m s) as [[a|e|] s']; [by apply HQ|done|done].
Qed.

End Triple.

Lemma triple_conseq {A} (P P' : state -> Prop) (Qv Qv' : A -> state -> Prop)
    (Qe Qe' : exn -> state -> Prop) (Qo Qo' : state -> Prop) (m : M A) :
  triple P' m Qv' Qe' Qo' ->
  (forall s, P s -> P' s) -> (forall a s, Qv' a s -> Qv a s) ->
  (forall e s, Qe' e s -> Qe e s) -> (forall s, Qo' s -> Qo s) ->
  triple P m Qv Qe Qo.
Proof.
  intros Hm HP HQv HQe HQo s Hs. specialize (Hm s (HP s Hs)).
  destruct (m s) as [[a|e|] s']; [by apply HQv|by apply HQe|by apply HQo].
Qed.

Lemma triple_modify (P : state -> Prop) (Qe : exn -> state -> Prop) (Qo : state -> Prop)
    (f : state -> state) (Qv : unit -> state -> Prop) :
  (forall s, P s -> Qv tt (f s)) -> triple P (modify f) Qv Qe Qo.
Proof. intros H s Hs. by apply H. Qed.

Lemma about_transforming (chunks : list str) (i p : nat) :
  about_document (transforming chunks i p).
Proof. by intros []. Qed.

Lemma about_recorded (chunks : list str) : about_document (recorded chunks).
Proof. by intros []. Qed.

Lemma transforming_pending (chunks : list str) (i p : nat) (s : state) :
  transforming chunks i p s -> transforming chunks i 0 s.
Proof.
  intros (Hlog & Hch & Htot & Hnum & c & Hc & Hle).
  split; [done|]. split; [done|]. split; [done|]. split; [done|].
  exists c. split; [done|]. lia.
Qed.

Section Transform.

Variable E : env.
Variable chunks : list str.

Lemma transforming_write_chunk_file (i p n : nat) (content : str) :
  stable (transforming chunks i p) (write_chunk_file E n content).
Proof.
  unfold write_chunk_file. apply stable_bind.
  - apply document_io, about_transforming.
  - intros _. apply stable_modify. by intros [].
Qed.

(** One round of the loop around chunk [i + 1]: when it goes through,
    the chunk has its entry; when it raises, nothing is recorded, though
    the counter may have moved. *)
Lemma triple_process_chunk (i : nat) :
  triple (transforming chunks i 0)
         (process_chunk E (i + 1) (length chunks))
         (fun _ => transforming chunks (S i) 0)
         (fun _ => transforming chunks i 0)
         (transforming chunks i 0).
Proof.
  unfold process_chunk.
  apply (triple_bind _ _ _ (fun _ => transforming chunks i 0)).
  { apply triple_stable; [apply document_read_chunk_file, about_transforming|done|done]. }
  intros chunk. apply (triple_bind _ _ _ (fun _ => transforming chunks i 0)).
  { apply triple_stable; [apply document_clean_text_chunk, about_transforming|done|done]. }
  intros [cleaned_chunk was_cleaned]. cbn [fst snd].
  apply (triple_bind _ _ _ (fun _ => transforming chunks i (if was_cleaned then 1 else 0))).
  { intros s Hs. destruct was_cleaned; [|exact Hs].
    unfold load_cleaned_chunks, bind, gets, modify, ret.
    destruct Hs as (Hlog & Hch & Htot & Hnum & c & Hc & Hle). rewrite Hc.
    destruct s as [clk calls tr api io files out logf logd vch vcl].
    split; [done|]. split; [done|]. split; [done|]. split; [done|].
    exists (c + 1)%nat. split; [done|]. simpl in *. lia. }
  intros ?.
  apply (triple_bind _ _ _ (fun _ => transforming chunks i (if was_cleaned then 1 else 0))).
  { apply triple_stable; [apply transforming_write_chunk_file| |];
      intros; by eapply transforming_pending. }
  intros ?. apply triple_modify.
  intros s (Hlog & Hch & Htot & Hnum & c & Hc & Hle).
  split; [done|]. split; [done|]. split; [done|]. split.
  - cbn [log_data set_log_data Log.chunks_info Log.append_chunk_info].
    rewrite map_app, Hnum, seq_S. cbn [map Log.chunk_number]. by rewrite Nat.add_comm.
  - exists c. split; [done|]. unfold cleaned_infos in *.
    cbn [log_data set_log_data Log.chunks_info Log.append_chunk_info].
    rewrite List.filter_app, length_app. cbn [List.filter Log.cleaned].
    destruct was_cleaned; simpl; lia.
Qed.

Lemma triple_while_true (fuel i : nat) :
  triple (transforming chunks i 0)
         (while_true fuel E (i + 1) (length chunks))
         (fun _ => transforming chunks (S i) 0)
         (fun _ _ => False)
         no_log.
Proof.
  induction fuel as [|fuel IH]; [by intros s (Hlog & _)|].
  cbn [while_true].
  apply (triple_bind _ _ _
           (fun done s => if done : bool then transforming chunks (S i) 0 s
                          else transforming chunks i 0 s)).
  - apply (triple_try_except _ _ _ (fun _ => transforming chunks i 0)).
    + apply (triple_bind _ _ _ (fun _ => transforming chunks (S i) 0)).
      * eapply triple_conseq; [apply triple_process_chunk| | | |].
        -- intros s Hs. exact Hs.
        -- intros a s Hs. exact Hs.
        -- intros e s Hs. exact Hs.
        -- by intros s (Hlog & _).
      * intros ?. by apply triple_ret.
    + intros e.
      apply (triple_bind _ _ _ (fun _ => transforming chunks i 0)).
      { apply triple_modify. intros s Hs. exact Hs. }
      intros ?. apply (triple_bind _ _ _ (fun _ => transforming chunks i 0)).
      { intros s Hs. rewrite (sleep_run PauseSleep 5 s eq_refl). by destruct s. }
      intros ?. by apply triple_ret.
  - intros [|]; [by apply triple_ret|exact IH].
Qed.

Lemma triple_transform_loop (fuel m i : nat) :
  triple (transforming chunks i 0)
         (for_each (seq i m) (fun i => while_true fuel E (i + 1) (length chunks)))
         (fun _ => transforming chunks (i + m) 0)
         (fun _ _ => False)
         no_log.
Proof.
  revert i. induction m as [|m IH]; intros i; simpl.
  - apply triple_ret. intros s Hs. by rewrite Nat.add_0_r.
  - apply (triple_bind _ _ _ (fun _ => transforming chunks (S i) 0)).
    + apply triple_while_true.
    + intros ?. eapply triple_conseq; [apply (IH (S i))| | | |].
      * intros s Hs. exact Hs.
      * intros u s Hs. by replace (i + S m)%nat with (S i + m)%nat by lia.
      * intros e s Hs. exact Hs.
      * intros s Hs. exact Hs.
Qed.

Lemma transforming_combine_chunks (i : nat) (numbers : list nat) (acc : str) :
  stable (transforming chunks i 0) (combine_chunks E numbers acc).
Proof.
  revert acc. induction numbers as [|k numbers IH]; intros acc; simpl.
  - apply stable_ret.
  - apply stable_bind; [apply stable_gets|]. intros files.
    destruct (files !! k); [|apply IH].
    apply stable_bind; [apply document_read_chunk_file, about_transforming|].
    intros ?. apply IH.
Qed.

End Transform.

Section Worker.

Variable E : env.

Lemma recorded_write_chunk_file (chunks : list str) (n : nat) (content : str) :
  stable (recorded chunks) (write_chunk_file E n content).
Proof.
  unfold write_chunk_file. apply stable_bind.
  - apply document_io, about_recorded.
  - intros ?. apply stable_modify. by intros [].
Qed.

(** The [try] suite from the chunk list on: if it goes through, the log
    in memory is that of a completed document. *)
Lemma triple_process_chunks (fuel : nat) (chunks : list str) :
  triple (recorded chunks) (process_chunks E fuel chunks)
         (fun _ => tried) (fun _ => failing) no_log.
Proof.
  assert (Hfailing : forall i s, transforming chunks i 0 s -> failing s).
  { intros i s (Hlog & _ & _ & Hnum & _). split; [exact Hlog|by exists i]. }
  unfold process_chunks.
  apply (triple_bind _ _ _ (fun _ => recorded chunks)).
  { apply triple_stable.
    - apply stable_for_each. intros [i c]. apply recorded_write_chunk_file.
    - intros e s (Hlog & Hinfo & _). split; [exact Hlog|]. exists O. by rewrite Hinfo.
    - by intros s (Hlog & _). }
  intros ?. apply (triple_bind _ _ _ (fun _ => transforming chunks 0 0)).
  { apply triple_modify. intros s (Hlog & Hinfo & Hch & Htot).
    split; [done|]. split; [done|]. split; [done|]. split.
    - cbn [log_data set_var_cleaned_chunks]. by rewrite Hinfo.
    - exists O. split; [done|]. unfold cleaned_infos.
      cbn [log_data set_var_cleaned_chunks]. by rewrite Hinfo. }
  intros ?. apply (triple_bind _ _ _ (fun _ => transforming chunks (length chunks) 0)).
  { eapply triple_conseq; [apply (triple_transform_loop E chunks fuel (length chunks) 0)| | | |].
    - intros s Hs. exact Hs.
    - intros u s Hs. exact Hs.
    - by intros e s Hs.
    - intros s Hs. exact Hs. }
  intros ?. apply (triple_bind _ _ _ (fun _ => transforming chunks (length chunks) 0)).
  { apply triple_stable; [apply transforming_combine_chunks| |].
    - intros e s Hs. by apply (Hfailing (length chunks)).
    - by intros s (Hlog & _). }
  intros cleaned_text. apply (triple_bind _ _ _ (fun _ => transforming chunks (length chunks) 0)).
  { apply triple_stable; [apply document_io, about_transforming| |].
    - intros e s Hs. by apply (Hfailing (length chunks)).
    - by intros s (Hlog & _). }
  intros ? s (Hlog & Hch & Htot & Hnum & c & Hc & Hle).
  unfold load_cleaned_chunks, modify_log, time_time, bind, gets, modify, ret.
  cbn [var_cleaned_chunks set_log_data set_output_file]. rewrite Hc.
  split; [exact Hlog|]. left. exists chunks, c.
  split; [exact Hch|]. split; [exact Hc|]. split; [done|].
  split; [reflexivity|]. split; [reflexivity|]. split; [exact Htot|].
  split; [exact Hnum|]. rewrite Nat.add_0_r in Hle. exact Hle.
Qed.

Lemma triple_process_body (fuel : nat) :
  triple started (process_body E fuel) (fun _ => tried) (fun _ => failing) no_log.
Proof.
  unfold process_body.
  apply (triple_bind _ _ _ (fun _ => started)).
  { apply triple_stable.
    - unfold read_file_with_fallback_encoding.
      destruct (read_with E encodings); [apply stable_raise|apply stable_ret].
    - intros e s (Hlog & Hinfo). split; [exact Hlog|]. exists O. by rewrite Hinfo.
    - by intros s (Hlog & _). }
  intros text.
  apply (triple_bind _ _ _
           (fun _ s => started s
                       /\ var_chunks s = Some (chunk_text text default_chunk_size))).
  { apply triple_modify. intros s (Hlog & Hinfo). by split. }
  intros ?.
  apply (triple_bind _ _ _ (fun _ => recorded (chunk_text text default_chunk_size))).
  { apply triple_modify. intros s ((Hlog & Hinfo) & Hch). by split. }
  intros ?. apply triple_process_chunks.
Qed.

Lemma triple_try_suite (fuel : nat) :
  triple started (try_except (process_body E fuel) process_except)
         (fun _ => tried) (fun _ _ => False) no_log.
Proof.
  apply (triple_try_except _ _ _ (fun _ => failing)).
  - apply triple_process_body.
  - intros e s [Hlog Hnum]. unfold process_except, modify_log, bind, modify.
    split; [exact Hlog|]. right. split; [reflexivity|]. split; [|exact Hnum].
    cbn [log_data set_log_data Log.errors Log.append_error Log.set_status].
    by intros [? ?]%app_eq_nil.
Qed.

Lemma triple_process_finally :
  triple tried (process_finally E) (fun _ => closed) (fun _ => no_log) no_log.
Proof.
  intros s (Hlog & Hcase).
  unfold process_finally, time_time, modify_log, io, bind, gets, modify, ret, raise.
  cbn [io_ops set_log_data set_io_ops].
  destruct (io_fault E (io_ops s)) as [e|]; [exact Hlog|].
  eexists. split; [reflexivity|]. split; [done|]. split; [done|].
  destruct Hcase
    as [(chunks & c & Hch & Hc & Hout & Hst & Hcl & Htot & Hnum & Hle)|(Hst & Herr & Hnum)].
  - left. exists chunks, c. by repeat split.
  - right. split; [exact Hst|]. split; [exact Herr|exact Hnum].
Qed.

Lemma triple_return :
  triple closed
         (let* cleaned_chunks := load_cleaned_chunks in
          let* chunks := load_chunks in
          ret (cleaned_chunks, length chunks))
         returned (fun _ => raised) no_log.
Proof.
  intros s (lg & Hlg & Het & Hpt & Hcase).
  unfold load_cleaned_chunks, load_chunks, bind, gets, ret, raise.
  destruct (var_cleaned_chunks s) as [c|] eqn:Hc.
  - destruct (var_chunks s) as [chs|] eqn:Hch.
    + intros lg' Hlg'. rewrite Hlg in Hlg'. injection Hlg' as <-.
      split; [done|]. split; [done|].
      destruct Hcase as [(chunks & c' & Hch' & Hc' & Hout & Hdone)|Hfail]; [|by right].
      injection Hch' as <-. injection Hc' as <-. left. by exists chs.
    + intros lg' Hlg'. rewrite Hlg in Hlg'. injection Hlg' as <-.
      split; [done|]. split; [done|].
      by destruct Hcase as [(chunks & c' & Hch' & _)|Hfail].
  - intros lg' Hlg'. rewrite Hlg in Hlg'. injection Hlg' as <-.
    split; [done|]. split; [done|].
    by destruct Hcase as [(chunks & c' & _ & Hc' & _)|Hfail].
Qed.

(** The worker as a whole, from a state without a log file. *)
Lemma triple_process_text_file (fuel : nat) :
  triple no_log (process_text_file E fuel) returned (fun _ => raised) no_log.
Proof.
  assert (Hraised : forall s, no_log s -> raised s).
  { intros s Hs lg Hlg. unfold no_log in Hs. congruence. }
  unfold process_text_file.
  apply (triple_bind _ _ _ (fun _ => no_log)); [by apply triple_modify|]. intros ?.
  apply (triple_bind _ _ _ (fun _ => no_log)); [by apply triple_modify|]. intros ?.
  apply (triple_bind _ _ _ (fun _ => no_log)).
  { apply triple_stable; [|by intros; apply Hraised|done].
    apply document_io, (log_file_document _ about_no_log). }
  intros ?. apply (triple_bind _ _ _ (fun _ => no_log)); [by apply triple_gets|].
  intros t0. apply (triple_bind _ _ _ (fun _ => started)).
  { apply triple_modify. intros s Hs. by split. }
  intros ?. apply (triple_bind _ _ _ (fun _ => closed)); [|intros ?; apply triple_return].
  apply (triple_try_finally _ _ _ (fun _ => tried) (fun _ _ => False)).
  - apply triple_try_suite.
  - intros ?. eapply triple_conseq; [apply triple_process_finally| | | |].
    + intros s Hs. exact Hs.
    + intros u s Hs. exact Hs.
    + intros e s Hs. by apply Hraised.
    + intros s Hs. exact Hs.
  - by intros e s Hs.
Qed.

End Worker.

(** Property X15.

    A log file, once written, is final: its status is completed, or it
    is failed with an error recorded; it is never still processing, and it
    holds the end time and the processing time. This holds for every
    behaviour of the service and of the file system. *)
Theorem persisted_log_is_final (E : env) (fuel : nat) (lg : Log.t) :
  log_file (snd (run_worker fuel E)) = Some lg ->
  (Log.status lg = lit "completed"
   \/ (Log.status lg = lit "failed" /\ Log.errors lg <> []))
  /\ Log.end_time lg <> None
  /\ Log.processing_time lg <> None.
Proof.
  intros Hlg. unfold run_worker in Hlg.
  pose proof (triple_process_text_file E fuel initial_state eq_refl) as Hrun.
  destruct (process_text_file E fuel initial_state) as [[r|e|] s']; simpl in Hlg.
  - destruct (Hrun lg Hlg) as (Het & Hpt & [(chunks & _ & _ & Hst & _)|Hfail]).
    + split; [by left|done].
    + destruct Hfail as (Hst & Herr & _). split; [by right|done].
  - destruct (Hrun lg Hlg) as (Het & Hpt & Hst & Herr & _). split; [by right|done].
  - unfold no_log in Hrun. congruence.
Qed.

Lemma persisted_log_is_final_witness :
  exists lg,
    log_file (snd (run_worker 1 (disk_full_doc (lit "a") (lit "a")))) = Some lg
    /\ (Log.status lg = lit "completed"
        \/ (Log.status lg = lit "failed" /\ Log.errors lg <> []))
    /\ Log.end_time lg <> None
    /\ Log.processing_time lg <> None.
Proof.
  destruct (log_file (snd (run_worker 1 (disk_full_doc (lit "a") (lit "a"))))) as [lg|] eqn:Hlg;
    [|by vm_compute in Hlg].
  exists lg. split; [reflexivity|].
  exact (persisted_log_is_final (disk_full_doc (lit "a") (lit "a")) 1 lg Hlg).
Defined.

(** Property X16.

    A log file that says completed belongs to a worker that returned:
    the pair it returned is the log's cleaned_chunks and total_chunks, the
    output file is written, and chunks_info holds one entry for each chunk,
    numbered 1 to total_chunks in order, however many rounds failed. The
    counter cleaned_chunks is not below the number of entries marked
    cleaned; it is above when a chunk was cleaned again after its result
    could not be written. *)
Theorem completed_log_matches_result (E : env) (fuel : nat) (lg : Log.t) :
  log_file (snd (run_worker fuel E)) = Some lg ->
  Log.status lg = lit "completed" ->
  exists c n,
    fst (run_worker fuel E) = Val (c, n)
    /\ Log.cleaned_chunks lg = Some c
    /\ Log.total_chunks lg = Some n
    /\ map Log.chunk_number (Log.chunks_info lg) = seq 1 n
    /\ (cleaned_infos lg <= c)%nat
    /\ output_file (snd (run_worker fuel E)) <> None.
Proof.
  intros Hlg Hst. unfold run_worker in *.
  pose proof (triple_process_text_file E fuel initial_state eq_refl) as Hrun.
  destruct (process_text_file E fuel initial_state) as [[r|e|] s']; simpl in Hlg |- *.
  - destruct (Hrun lg Hlg) as (_ & _ & [(chunks & Hr & Hout & _ & Hcl & Htot & Hnum & Hle)|Hfail]).
    + destruct r as [c n]. simpl in *. injection Hr as ->. by exists c, (length chunks).
    + destruct Hfail as [Hst' _]. rewrite Hst in Hst'. by vm_compute in Hst'.
  - destruct (Hrun lg Hlg) as (_ & _ & Hst' & _). rewrite Hst in Hst'. by vm_compute in Hst'.
  - unfold no_log in Hrun. congruence.
Qed.

Lemma completed_log_matches_result_witness :
  exists lg,
    log_file (snd (run_worker 1 (clean_doc (lit "a") (lit "Hello world")))) = Some lg
    /\ Log.status lg = lit "completed"
    /\ exists c n,
         fst (run_worker 1 (clean_doc (lit "a") (lit "Hello world"))) = Val (c, n)
         /\ Log.cleaned_chunks lg = Some c
         /\ Log.total_chunks lg = Some n
         /\ map Log.chunk_number (Log.chunks_info lg) = seq 1 n
         /\ (cleaned_infos lg <= c)%nat
         /\ output_file (snd (run_worker 1 (clean_doc (lit "a") (lit "Hello world")))) <> None.
Proof.
  destruct (log_file (snd (run_worker 1 (clean_doc (lit "a") (lit "Hello world")))))
    as [lg|] eqn:Hlg; [|by vm_compute in Hlg].
  assert (Hst : Log.status lg = lit "completed").
  { vm_compute in Hlg. injection Hlg as <-. reflexivity. }
  exists lg. split; [reflexivity|]. split; [exact Hst|].
  exact (completed_log_matches_result (clean_doc (lit "a") (lit "Hello world")) 1 lg Hlg Hst).
Defined.

(** ** FileProcessor: a document whose every call is answered *)

Lemma about_answering (E : env) (chunks : list str) (k c w l : nat) :
  about_calls (answering E chunks k c w l).
Proof. by intros []. Qed.

Lemma results_lookup (E : env) (chunks : list str) (i : nat) (c : str) :
  chunks !! i = Some c ->
  results E chunks !! i = Some (answer (universal_newlines c) (service E i)).
Proof. intros Hc. unfold results. by rewrite list_lookup_imap, Hc. Qed.

Lemma chunk_infos_lookup (E : env) (chunks : list str) (i : nat) (c : str) :
  chunks !! i = Some c ->
  chunk_infos E chunks !! i
  = Some (Log.ChunkInfo (i + 1) (len (universal_newlines c))
            (len (fst (answer (universal_newlines c) (service E i))))
            (snd (answer (universal_newlines c) (service E i)))).
Proof. intros Hc. unfold chunk_infos. by rewrite list_lookup_imap, Hc. Qed.

Lemma cleaned_count_snoc (rs : list (str * bool)) (r : str * bool) :
  cleaned_count (rs ++ [r]) = (cleaned_count rs + (if snd r then 1 else 0))%nat.
Proof.
  unfold cleaned_count. rewrite List.filter_app, length_app. simpl.
  by destruct (snd r).
Qed.

Section Answered.

Variable E : env.
Hypothesis Hio : no_io_fault E.

Lemma calls_io (P : state -> Prop) :
  about_calls P -> returns P (io E) (fun _ => P).
Proof.
  intros HP s Hs. unfold io, bind, gets, modify. cbn beta iota. rewrite Hio.
  eexists tt, _. split; [reflexivity|].
  destruct s as [c r t a i f o lf ld vc vcl].
  exact (HP (State c r t a i f o lf ld vc vcl) c r t (S i) Hs).
Qed.

Lemma calls_read_chunk_file (P : state -> Prop) (i : nat) (c : str) :
  about_calls P -> (forall s, P s -> chunk_files s !! i = Some c) ->
  returns P (read_chunk_file E i) (fun r s => r = universal_newlines c /\ P s).
Proof.
  intros HP Hfile. unfold read_chunk_file.
  eapply returns_bind; [by apply calls_io|]. intros ?.
  eapply returns_bind; [apply (returns_gets _ _ (fun f s => f = chunk_files s /\ P s)); by intros|].
  intros files s [Heq Hs]. subst files. rewrite (Hfile s Hs).
  by exists (universal_newlines c), s.
Qed.

Lemma calls_write_chunk_file (P Q : state -> Prop) (i : nat) (c : str) :
  about_calls P ->
  (forall s, P s -> Q (set_chunk_files (<[i := c]> (chunk_files s)) s)) ->
  returns P (write_chunk_file E i c) (fun _ => Q).
Proof.
  intros HP HQ. unfold write_chunk_file.
  eapply returns_bind; [by apply calls_io|]. intros ?.
  apply returns_modify. intros s Hs. by apply HQ.
Qed.

Variable chunks : list str.
Hypothesis Hans : answers E (length chunks).

Lemma answering_clean_text_chunk (i : nat) (chunk : str) (n total : nat) :
  (i < length chunks)%nat ->
  returns (answering E chunks i i i i)
          (clean_text_chunk E chunk n total)
          (fun r s => r = answer chunk (service E i)
                      /\ answering E chunks (S i) i i i s).
Proof.
  intros Hi s Hs. pose proof Hs as (Hapi & _).
  destruct (retry_loop_recovers E chunk n total 0 3 1 s) as (clk & calls & tr & Hr & _);
    [lia|lia|intros; lia| |].
  { rewrite Hapi, Nat.add_0_r. by apply Hans. }
  rewrite Nat.add_0_r, Hapi in Hr.
  eexists _, _. split; [exact Hr|]. split; [done|].
  destruct s as [c r t a i0 f o lf ld vc vcl]. simpl in Hapi. subst a.
  destruct Hs as (_ & Hrest). split; [simpl; lia|exact Hrest].
Qed.

(** One chunk of the transform loop: read, answered, counted, written
    back with the separator, recorded. *)
Lemma answering_process_chunk (i : nat) (c : str) :
  chunks !! i = Some c ->
  returns (answering E chunks i i i i)
          (process_chunk E (i + 1) (length chunks))
          (fun _ => answering E chunks (S i) (S i) (S i) (S i)).
Proof.
  intros Hc. pose proof (lookup_lt_Some _ _ _ Hc) as Hi. unfold process_chunk.
  eapply returns_bind.
  { apply (calls_read_chunk_file _ (i + 1) c); [apply about_answering|].
    intros s (_ & _ & _ & _ & _ & _ & _ & Hf). specialize (Hf i c Hc).
    rewrite Nat.ltb_irrefl in Hf. by rewrite Nat.add_1_r. }
  intros chunk. apply returns_pure. intros ->.
  eapply returns_bind; [by apply answering_clean_text_chunk|].
  intros result. apply returns_pure. intros ->.
  set (r := answer (universal_newlines c) (service E i)).
  apply (returns_bind _ (fun _ => answering E chunks (S i) (S i) i i)).
  { intros s (Hapi & Hch & Hcl & Hrest).
    assert (Hcount : cleaned_count (take (S i) (results E chunks))
                     = (cleaned_count (take i (results E chunks))
                        + (if snd r then 1 else 0))%nat).
    { rewrite (take_S_r _ _ _ (results_lookup E chunks i c Hc)). apply cleaned_count_snoc. }
    destruct (snd r) eqn:Hw.
    - unfold load_cleaned_chunks, bind, gets, modify, ret. rewrite Hcl.
      eexists tt, _. split; [reflexivity|].
      destruct s as [clk rl tr a i0 f o lf ld vc vcl].
      split; [exact Hapi|]. split; [exact Hch|]. split; [|exact Hrest].
      cbn [var_cleaned_chunks set_var_cleaned_chunks]. by rewrite Hcount.
    - exists tt, s. split; [reflexivity|].
      split; [exact Hapi|]. split; [exact Hch|]. split; [|exact Hrest].
      by rewrite Hcount, Hcl, Nat.add_0_r. }
  intros ?. eapply returns_bind.
  { apply (calls_write_chunk_file _ (answering E chunks (S i) (S i) (S i) i));
      [apply about_answering|].
    intros s (Hapi & Hch & Hcl & Htot & Herr & Hinfo & Hlog & Hf).
    do 7 (split; [assumption|]).
    intros j c' Hj. cbn [chunk_files set_chunk_files]. rewrite Nat.add_1_r.
    destruct (decide (j = i)) as [Heq|Hne].
    - subst j. rewrite lookup_insert_eq.
      pose proof (eq_trans (eq_sym Hc) Hj) as Hcc. injection Hcc as <-.
      by rewrite (proj2 (Nat.ltb_lt i (S i))) by lia.
    - rewrite lookup_insert_ne by lia.
      replace (j <? S i)%nat with (j <? i)%nat; [exact (Hf j c' Hj)|].
      destruct (Nat.ltb_spec j i), (Nat.ltb_spec j (S i)); try done; lia. }
  intros ?. apply returns_modify.
  intros s (Hapi & Hch & Hcl & Htot & Herr & Hinfo & Hlog & Hf).
  split; [exact Hapi|]. split; [exact Hch|]. split; [exact Hcl|].
  split; [exact Htot|]. split; [exact Herr|]. split; [|split; [exact Hlog|exact Hf]].
  cbn [log_data set_log_data Log.chunks_info Log.append_chunk_info].
  by rewrite Hinfo, (take_S_r _ _ _ (chunk_infos_lookup E chunks i c Hc)).
Qed.

Lemma answering_while_true (fuel i : nat) (c : str) :
  chunks !! i = Some c ->
  returns (answering E chunks i i i i)
          (while_true (S fuel) E (i + 1) (length chunks))
          (fun _ => answering E chunks (S i) (S i) (S i) (S i)).
Proof.
  intros Hc. cbn [while_true].
  eapply returns_bind.
  { apply returns_try_except. eapply returns_bind; [by apply (answering_process_chunk i c)|].
    intros ?.
    apply (returns_ret _ _ (fun b s => b = true /\ answering E chunks (S i) (S i) (S i) (S i) s)).
    by intros. }
  intros b. apply returns_pure. intros ->. by apply returns_ret.
Qed.

Lemma answering_transform_loop (fuel m i : nat) :
  (i + m = length chunks)%nat ->
  returns (answering E chunks i i i i)
          (for_each (seq i m) (fun i => while_true (S fuel) E (i + 1) (length chunks)))
          (fun _ => answering E chunks (i + m) (i + m) (i + m) (i + m)).
Proof.
  revert i. induction m as [|m IH]; intros i Hlen; simpl.
  - apply returns_ret. intros s. by rewrite Nat.add_0_r.
  - destruct (lookup_lt_is_Some_2 chunks i) as [c Hc]; [lia|].
    eapply returns_bind; [by apply (answering_while_true fuel i c)|].
    intros ?. replace (i + S m)%nat with (S i + m)%nat by lia. apply IH. lia.
Qed.

Lemma answering_combine (m i : nat) (acc : str) :
  (i + m = length chunks)%nat ->
  let n := length chunks in
  returns (answering E chunks n n n n)
          (combine_chunks E (seq (S i) m) acc)
          (fun r s => r = acc ++ read_back (map fst (take m (drop i (results E chunks))))
                      /\ answering E chunks n n n n s).
Proof.
  intros Hlen n. revert i acc Hlen. induction m as [|m IH]; intros i acc Hlen; simpl.
  - apply returns_ret. intros s Hs. split; [|done]. unfold read_back. simpl.
    by rewrite app_nil_r.
  - destruct (lookup_lt_is_Some_2 chunks i) as [c Hc]; [lia|].
    assert (Hfile : forall s, answering E chunks n n n n s ->
                              chunk_files s !! S i
                              = Some (fst (answer (universal_newlines c) (service E i))
                                      ++ separator)).
    { intros s (_ & _ & _ & _ & _ & _ & _ & Hf). rewrite (Hf i c Hc).
      by rewrite (proj2 (Nat.ltb_lt i n)) by (subst n; lia). }
    assert (Hstep : returns (answering E chunks n n n n)
                      (let* content := read_chunk_file E (S i) in
                       combine_chunks E (seq (S (S i)) m) (acc ++ content))
                      (fun r s => r = acc ++ read_back (map fst (take (S m)
                                                          (drop i (results E chunks))))
                                  /\ answering E chunks n n n n s)).
    { eapply returns_bind.
      { apply (calls_read_chunk_file _ (S i)
                 (fst (answer (universal_newlines c) (service E i)) ++ separator));
          [apply about_answering|exact Hfile]. }
      intros content. apply returns_pure. intros ->.
      eapply returns_weaken; [apply (IH (S i)); lia|done|].
      intros r s [-> Hs]. split; [|done].
      rewrite (drop_S _ _ _ (results_lookup E chunks i c Hc)).
      rewrite firstn_cons. cbn [map]. unfold read_back. cbn [map concat].
      by rewrite <- (app_assoc acc). }
    intros s Hs. unfold bind at 1. unfold gets at 1. cbv beta iota.
    rewrite (Hfile s Hs). exact (Hstep s Hs).
Qed.

Lemma calls_persist (F : state -> Prop) (l : list str) (k : nat) (m0 : gmap nat str) :
  about_calls F -> (forall s files, F s -> F (set_chunk_files files s)) ->
  returns (fun s => F s /\ chunk_files s = m0)
          (for_each (enumerate l k) (fun '(i, chunk) => write_chunk_file E i chunk))
          (fun _ s => F s
                      /\ (forall j c, l !! j = Some c -> chunk_files s !! (k + j)%nat = Some c)
                      /\ (forall i, (i < k)%nat -> chunk_files s !! i = m0 !! i)).
Proof.
  intros HF Hset. revert k m0. induction l as [|x l IH]; intros k m0; simpl.
  - apply returns_ret. intros s [Hs <-]. split; [done|]. split; [|done].
    intros j c Hj. by rewrite lookup_nil in Hj.
  - eapply returns_bind.
    { apply (calls_write_chunk_file _ (fun s => F s /\ chunk_files s = <[k := x]> m0)).
      - intros s clk calls tr io [Hs Hm]. split; [by apply HF|exact Hm].
      - intros s [Hs <-]. split; [by apply Hset|done]. }
    intros ?. eapply returns_weaken; [apply (IH (S k) (<[k := x]> m0))|done|].
    intros ? s (Hs & Hl & Hk). split; [done|]. split.
    + intros [|j] c Hj; simpl in Hj.
      * injection Hj as <-. rewrite Nat.add_0_r, Hk by lia. apply lookup_insert_eq.
      * replace (k + S j)%nat with (S k + j)%nat by lia. by apply Hl.
    + intros i Hi. rewrite Hk by lia. apply lookup_insert_ne. lia.
Qed.

(** Lines 196-259 when nothing fails and every call is answered. *)
Lemma answered_process_chunks (fuel : nat) (m0 : gmap nat str) :
  returns (fun s => answered_chunked chunks s /\ chunk_files s = m0)
          (process_chunks E (S fuel) chunks)
          (fun _ => answered_done E chunks).
Proof.
  unfold process_chunks.
  eapply returns_bind.
  { apply (calls_persist (answered_chunked chunks) chunks 1 m0); by intros []. }
  intros ?. eapply returns_bind.
  { apply (returns_modify _ _ (fun _ => answering E chunks 0 0 0 0)).
    intros s ((Hapi & Hv & Ht & He & Hi & Hl) & Hfiles & _).
    split; [exact Hapi|]. split; [exact Hv|]. split; [reflexivity|].
    split; [exact Ht|]. split; [exact He|]. split; [exact Hi|]. split; [exact Hl|].
    intros j c Hj. exact (Hfiles j c Hj). }
  intros ?. eapply returns_bind; [apply (answering_transform_loop fuel (length chunks) 0); lia|].
  intros ?. cbn [Nat.add].
  eapply returns_bind; [apply (answering_combine (length chunks) 0 []); lia|].
  intros cleaned_text. apply returns_pure. intros ->.
  rewrite drop_0, firstn_all2 by (unfold results; rewrite length_imap; lia). cbn [app].
  eapply returns_bind; [apply calls_io, about_answering|].
  intros ?. intros s (Hapi & Hv & Hc & Ht & He & Hi & Hl & _).
  rewrite firstn_all2 in Hc by (unfold results; rewrite length_imap; lia).
  rewrite firstn_all2 in Hi by (unfold chunk_infos; rewrite length_imap; lia).
  unfold load_cleaned_chunks, modify_log, time_time, bind, gets, modify, ret.
  cbn [var_cleaned_chunks set_log_data set_output_file]. rewrite Hc.
  eexists tt, _. split; [reflexivity|]. by repeat split.
Qed.

End Answered.

Section AnsweredWorker.

Variable E : env.
Hypothesis Hio : no_io_fault E.
Variable text : str.
Hypothesis Hread : read_with E encodings = inr text.
Hypothesis Hans : answers E (length (chunk_text text default_chunk_size)).

Lemma answered_process_body (fuel : nat) (m0 : gmap nat str) :
  returns (fun s => answered_start s /\ chunk_files s = m0)
          (process_body E (S fuel))
          (fun _ => answered_done E (chunk_text text default_chunk_size)).
Proof.
  unfold process_body, read_file_with_fallback_encoding. rewrite Hread, bind_ret.
  set (chunks := chunk_text text default_chunk_size) in *.
  eapply returns_bind; [|intros ?; eapply returns_bind;
                          [|intros ?; apply (answered_process_chunks E Hio chunks Hans fuel m0)]].
  - apply (returns_modify _ _ (fun _ s => var_chunks s = Some chunks
      /\ answered_start s /\ chunk_files s = m0)).
    intros s Hs. by split.
  - apply returns_modify. intros s (Hv & (Hapi & He & Hi & Hl) & Hm). by repeat split.
Qed.

Lemma answered_process_finally :
  let chunks := chunk_text text default_chunk_size in
  returns (answered_done E chunks) (process_finally E)
          (fun _ s => api_calls s = length chunks
                      /\ var_chunks s = Some chunks
                      /\ var_cleaned_chunks s = Some (cleaned_count (results E chunks))
                      /\ output_file s = Some (read_back (map fst (results E chunks)))
                      /\ exists lg, log_file s = Some lg /\ answered_log E chunks lg).
Proof.
  intros chunks s (Hapi & Hv & Hc & Ho & Hl & Hst & Hcl & Ht & He & Hi).
  unfold process_finally, modify_log, io, bind, time_time, gets, modify.
  cbn [io_ops set_log_data set_io_ops]. rewrite Hio.
  eexists tt, _. split; [reflexivity|].
  split; [exact Hapi|]. split; [exact Hv|]. split; [exact Hc|]. split; [exact Ho|].
  eexists. split; [reflexivity|]. by repeat split.
Qed.

(** The whole of [process_text_file] on an answered document. *)
Lemma answered_process_text_file (fuel : nat) (m0 : gmap nat str) :
  let chunks := chunk_text text default_chunk_size in
  returns (fun s => api_calls s = O /\ log_file s = None /\ chunk_files s = m0)
          (process_text_file E (S fuel))
          (fun r s =>
             r = (cleaned_count (results E chunks), length chunks)
             /\ api_calls s = length chunks
             /\ output_file s = Some (read_back (map fst (results E chunks)))
             /\ exists lg, log_file s = Some lg /\ answered_log E chunks lg).
Proof.
  intros chunks. unfold process_text_file.
  assert (Habout : about_calls (fun s => api_calls s = O /\ log_file s = None
                                        /\ chunk_files s = m0)) by (by intros []).
  apply (returns_bind _ (fun _ s => api_calls s = O /\ log_file s = None /\ chunk_files s = m0));
    [apply returns_modify; by intros []|intros ?].
  apply (returns_bind _ (fun _ s => api_calls s = O /\ log_file s = None /\ chunk_files s = m0));
    [apply returns_modify; by intros []|intros ?].
  apply (returns_bind _ (fun _ s => api_calls s = O /\ log_file s = None /\ chunk_files s = m0));
    [by apply calls_io|intros ?].
  apply (returns_bind _ (fun _ s => api_calls s = O /\ log_file s = None /\ chunk_files s = m0));
    [by apply returns_gets|intros t0].
  apply (returns_bind _ (fun _ s => answered_start s /\ chunk_files s = m0)).
  { apply returns_modify. intros s (Hapi & Hl & Hm). by repeat split. }
  intros ?. eapply returns_bind.
  { eapply returns_try_finally.
    - apply returns_try_except. apply (answered_process_body fuel m0).
    - intros ?. apply answered_process_finally. }
  intros ?. intros s (Hapi & Hv & Hc & Ho & lg & Hlg & Hfacts).
  unfold load_cleaned_chunks, load_chunks, bind, gets, ret. rewrite Hc, Hv.
  eexists _, _. split; [reflexivity|]. split; [done|]. split; [done|]. split; [done|].
  by exists lg.
Qed.

End AnsweredWorker.

Lemma answered_run (E : env) (fuel : nat) (text : str) :
  no_io_fault E ->
  read_with E encodings = inr text ->
  answers E (length (chunk_text text default_chunk_size)) ->
  exists s' lg,
    run_worker (S fuel) E
    = (Val (cleaned_count (results E (chunk_text text default_chunk_size)),
            length (chunk_text text default_chunk_size)), s')
    /\ api_calls s' = length (chunk_text text default_chunk_size)
    /\ output_file s'
       = Some (read_back (map fst (results E (chunk_text text default_chunk_size))))
    /\ log_file s' = Some lg
    /\ answered_log E (chunk_text text default_chunk_size) lg.
Proof.
  intros Hio Hread Hans.
  destruct (answered_process_text_file E Hio text Hread Hans fuel ∅ initial_state)
    as (r & s' & Hrun & -> & Hapi & Hout & lg & Hlg & Hfacts); [done|].
  by exists s', lg.
Qed.

(** Property X17.

    The pipeline on a document that is read and written without fault
    and whose every call is answered, by a text or by a rejection: one call
    is made for each chunk, on the chunk as read back from its file; the
    output file holds, in order, what reading back each result gives, the
    result being the stripped text or the rejected chunk itself, written
    with the separator after it and read in text mode, so that a carriage
    return in a text comes out as a newline; the pair returned counts the
    chunks answered by a text and all the chunks; the log says completed,
    without error, with these two counts and one entry for each chunk. *)
Theorem answered_document_run (E : env) (fuel : nat) (text : str) :
  no_io_fault E ->
  read_with E encodings = inr text ->
  answers E (length (chunk_text text default_chunk_size)) ->
  exists s' lg,
    run_worker (S fuel) E
    = (Val (cleaned_count (results E (chunk_text text default_chunk_size)),
            length (chunk_text text default_chunk_size)), s')
    /\ api_calls s' = length (chunk_text text default_chunk_size)
    /\ output_file s'
       = Some (read_back (map fst (results E (chunk_text text default_chunk_size))))
    /\ log_file s' = Some lg
    /\ answered_log E (chunk_text text default_chunk_size) lg.
Proof. apply answered_run. Qed.

(** A document whose answer holds a carriage return and a newline: the
    pair comes out of the output file as one newline. *)
Lemma answered_document_run_witness :
  no_io_fault (crlf_doc (lit "a") (lit "Hello world"))
  /\ read_with (crlf_doc (lit "a") (lit "Hello world")) encodings = inr (lit "Hello world")
  /\ answers (crlf_doc (lit "a") (lit "Hello world"))
             (length (chunk_text (lit "Hello world") default_chunk_size))
  /\ exists s' lg,
       run_worker 1 (crlf_doc (lit "a") (lit "Hello world")) = (Val (1, 1)%nat, s')
       /\ api_calls s' = 1%nat
       /\ output_file s' = Some (lit "a" ++ NL :: lit "b" ++ separator)
       /\ log_file s' = Some lg
       /\ answered_log (crlf_doc (lit "a") (lit "Hello world"))
                       (chunk_text (lit "Hello world") default_chunk_size) lg.
Proof.
  assert (Hio : no_io_fault (crlf_doc (lit "a") (lit "Hello world"))) by (by intros k).
  assert (Hans : answers (crlf_doc (lit "a") (lit "Hello world"))
                         (length (chunk_text (lit "Hello world") default_chunk_size)))
    by (by intros k Hk).
  split; [exact Hio|]. split; [reflexivity|]. split; [exact Hans|].
  exact (answered_document_run (crlf_doc (lit "a") (lit "Hello world")) 0
           (lit "Hello world") Hio eq_refl Hans).
Defined.

(** When no result holds a carriage return, what is read back is the
    results rejoined. *)
Lemma read_back_rejoin (rs : list str) : Forall no_cr rs -> read_back rs = rejoin rs.
Proof.
  intros Hrs. unfold read_back, rejoin. f_equal. apply map_ext_in.
  intros r Hr. apply universal_newlines_id, no_cr_app; [|apply no_cr_separator].
  rewrite Forall_forall in Hrs. by apply Hrs, list_elem_of_In.
Qed.

(** Property X18.

    A document of white space only is read, chunked into nothing and
    completed without a single call to the service: the worker returns
    (0, 0), the output file is empty and the log says completed with no
    chunk. The batch summary still counts it as a failed file, since
    nothing was cleaned. *)
Theorem blank_document_run (E : env) (fuel : nat) (text : str) :
  no_io_fault E ->
  read_with E encodings = inr text ->
  forallb isspace text = true ->
  (exists s' lg,
     run_worker (S fuel) E = (Val (O, O), s')
     /\ api_calls s' = O
     /\ output_file s' = Some []
     /\ log_file s' = Some lg
     /\ Log.status lg = lit "completed"
     /\ Log.total_chunks lg = Some O
     /\ Log.chunks_info lg = [])
  /\ main [E] (S fuel) = Val (Summary.Make 1 0 1 0 0 0).
Proof.
  intros Hio Hread Hblank.
  pose proof (chunk_text_blank text default_chunk_size Hblank) as Hnone.
  destruct (answered_run E fuel text Hio Hread) as (s' & lg & Hrun & Hapi & Hout & Hlg & Hfacts).
  { rewrite Hnone. intros k Hk. simpl in Hk. lia. }
  rewrite Hnone in *. destruct Hfacts as (Hst & _ & Htot & _ & Hinfo).
  split.
  - by exists s', lg.
  - unfold main. cbn [map]. by rewrite Hrun.
Qed.

Lemma blank_document_run_witness :
  no_io_fault (blank_doc (lit "a"))
  /\ read_with (blank_doc (lit "a")) encodings = inr (lit " " ++ [NL])
  /\ forallb isspace (lit " " ++ [NL]) = true
  /\ (exists s' lg,
        run_worker 1 (blank_doc (lit "a")) = (Val (O, O), s')
        /\ api_calls s' = O
        /\ output_file s' = Some []
        /\ log_file s' = Some lg
        /\ Log.status lg = lit "completed"
        /\ Log.total_chunks lg = Some O
        /\ Log.chunks_info lg = [])
  /\ main [blank_doc (lit "a")] 1 = Val (Summary.Make 1 0 1 0 0 0).
Proof.
  assert (Hio : no_io_fault (blank_doc (lit "a"))) by (by intros k).
  split; [exact Hio|]. split; [reflexivity|]. split; [reflexivity|].
  exact (blank_document_run (blank_doc (lit "a")) 0 (lit " " ++ [NL]) Hio eq_refl eq_refl).
Defined.

(** The counter [cleaned_chunks] can pass the number of chunks: when the
    result of a cleaned chunk cannot be written, the loop cleans the chunk
    again and counts it again. *)
Example cleaned_again_counted_twice :
  fst (run_worker 2 (write_fault_doc (lit "a") (lit "Hello world"))) = Val (2, 1)%nat
  /\ (Log.status <$> log_file (snd (run_worker 2 (write_fault_doc (lit "a") (lit "Hello world")))))
     = Some (lit "completed")
  /\ (cleaned_infos <$> log_file (snd (run_worker 2 (write_fault_doc (lit "a") (lit "Hello world")))))
     = Some 1%nat
  /\ main [write_fault_doc (lit "a") (lit "Hello world")] 2
     = Val (Summary.Make 1 1 0 1 2 (-1)).
Proof. by vm_compute. Qed.

(** ** What the batch makes of rejected and of cleaned documents *)

Lemma always_rejects_answers (E : env) (n : nat) : always_rejects E -> answers E n.
Proof.
  intros Hrej k _. destruct (Hrej k) as (msg & -> & Hcf). simpl. by rewrite Hcf.
Qed.


Lemma cleaned_count_none (E : env) (chunks : list str) :
  always_rejects E -> cleaned_count (results E chunks) = O.
Proof.
  intros Hrej. unfold cleaned_count. rewrite filter_all_false; [done|].
  apply Forall_forall. intros r Hr. apply list_elem_of_lookup in Hr as [i Hi].
  unfold results in Hi. rewrite list_lookup_imap in Hi.
  destruct (chunks !! i) as [c|]; [|discriminate]. injection Hi as <-.
  by destruct (Hrej i) as (msg & -> & _).
Qed.


(** A document that completes with every chunk rejected is counted as
    failed, although its log says [completed]. *)
Lemma completed_document_counted_failed (E : env) (fuel : nat) (text : str) :
  no_io_fault E -> always_rejects E -> read_with E encodings = inr text ->
  (exists s, main [E] (S fuel) = Val s
             /\ Summary.successful_files s = 0 /\ Summary.failed_files s = 1)
  /\ (exists lg, log_file (snd (run_worker (S fuel) E)) = Some lg
                 /\ Log.status lg = lit "completed").
Proof.
  intros Hio Hrej Hread.
  destruct (answered_run E fuel text Hio Hread (always_rejects_answers E _ Hrej))
    as (s' & lg & Hrun & _ & _ & Hlg & Hst & _).
  rewrite (cleaned_count_none E _ Hrej) in Hrun.
  split.
  - unfold main, summarize. cbn [map]. rewrite Hrun. cbn [fst collect].
    eexists. by repeat split.
  - rewrite Hrun. by exists lg.
Qed.


(** With real codecs the reader never comes to its last line: latin-1,
    the second encoding of the list, decodes every byte sequence, so an
    environment in which it does not fail to decode never has every
    encoding fail; a read that fails does so with what [open] or [read]
    raised. *)
Lemma reader_never_exhausts_encodings (E : env) (e : exn) :
  open_read E latin_1 <> UnicodeDecodeError ->
  read_with E encodings = inl e ->
  exists enc, open_read E enc = ReadRaises e.
Proof.
  intros Hlatin. unfold encodings. cbn [read_with].
  destruct (open_read E utf_8) as [c| |e0] eqn:H8; [discriminate| |intros [= <-]; by exists utf_8].
  destruct (open_read E latin_1) as [c| |e1] eqn:H1; [discriminate|done|].
  intros [= <-]. by exists latin_1.
Qed.





(** ** main: the totals of the summary *)

Lemma list_sum_cons (a : nat) (l : list nat) : list_sum (a :: l) = (a + list_sum l)%nat.
Proof. reflexivity. Qed.

Lemma collect_totals (results : list (nat * nat)) (acc : tally) :
  collect (map Val results) acc
  = Val (Tally (successful_files acc
                + len (List.filter (fun r => (0 <? fst r)%nat) results))
               (total_chunks acc + Z.of_nat (list_sum (map snd results)))
               (total_cleaned_chunks acc + Z.of_nat (list_sum (map fst results)))).
Proof.
  revert acc. induction results as [|[cleaned total] results IH]; intros acc.
  - destruct acc as [a b c]. cbn [map collect]. unfold len. simpl.
    by rewrite !Z.add_0_r.
  - cbn [map collect]. rewrite IH. cbn [successful_files total_chunks total_cleaned_chunks].
    change (list_sum (map snd ((cleaned, total) :: results)))
      with (total + list_sum (map snd results))%nat.
    change (list_sum (map fst ((cleaned, total) :: results)))
      with (cleaned + list_sum (map fst results))%nat.
    change (List.filter (fun r : nat * nat => (0 <? fst r)%nat) ((cleaned, total) :: results))
      with (if (0 <? cleaned)%nat
            then (cleaned, total) :: List.filter (fun r : nat * nat => (0 <? fst r)%nat) results
            else List.filter (fun r : nat * nat => (0 <? fst r)%nat) results).
    f_equal. f_equal; [|rewrite list_sum_cons; cbn [fst snd]; lia..].
    destruct cleaned as [|cleaned].
    + change (Z.of_nat 0 >? 0) with false. by change (0 <? 0)%nat with false.
    + replace (Z.of_nat (S cleaned) >? 0) with true by (symmetry; apply Z.gtb_lt; lia).
      change (0 <? S cleaned)%nat with true. cbv iota.
      rewrite len_cons. lia.
Qed.

(** Property X19.

    When every worker returns its pair, the summary adds up: the files
    are the successful ones and the failed ones, neither count negative;
    the chunk totals are the sums of the pairs' components; the chunks not
    cleaned are the difference of the two totals. *)
Theorem main_totals (docs : list env) (fuel : nat) (results : list (nat * nat)) :
  map (fun E => fst (run_worker fuel E)) docs = map Val results ->
  exists s,
    main docs fuel = Val s
    /\ Summary.total_files s = len docs
    /\ Summary.successful_files s + Summary.failed_files s = Summary.total_files s
    /\ 0 <= Summary.successful_files s
    /\ 0 <= Summary.failed_files s
    /\ Summary.total_chunks s = Z.of_nat (list_sum (map snd results))
    /\ Summary.total_cleaned_chunks s = Z.of_nat (list_sum (map fst results))
    /\ Summary.not_cleaned_chunks s
       = Summary.total_chunks s - Summary.total_cleaned_chunks s.
Proof.
  intros Hres. unfold main, summarize. rewrite Hres, collect_totals.
  cbn [successful_files total_chunks total_cleaned_chunks].
  eexists. split; [reflexivity|].
  cbn [Summary.total_files Summary.successful_files Summary.failed_files
       Summary.total_chunks Summary.total_cleaned_chunks Summary.not_cleaned_chunks].
  assert (Hlen : length docs = length results).
  { apply (f_equal (@length _)) in Hres. by rewrite !length_map in Hres. }
  pose proof (List.filter_length_le (fun r : nat * nat => (0 <? fst r)%nat) results) as Hle.
  unfold len. rewrite length_map.
  repeat split; lia.
Qed.

Lemma main_totals_witness :
  map (fun E => fst (run_worker 1 E))
      [clean_doc (lit "a") (lit "Hello world"); rejected_doc (lit "c") (lit "Hello again")]
  = map Val [(1, 1)%nat; (0, 1)%nat]
  /\ exists s,
       main [clean_doc (lit "a") (lit "Hello world");
             rejected_doc (lit "c") (lit "Hello again")] 1 = Val s
       /\ Summary.total_files s = 2
       /\ Summary.total_chunks s = 2
       /\ Summary.total_cleaned_chunks s = 1
       /\ Summary.not_cleaned_chunks s = 1.
Proof.
  assert (Hres : map (fun E => fst (run_worker 1 E))
                     [clean_doc (lit "a") (lit "Hello world");
                      rejected_doc (lit "c") (lit "Hello again")]
                 = map Val [(1, 1)%nat; (0, 1)%nat]) by (by vm_compute).
  split; [exact Hres|].
  destruct (main_totals _ 1 _ Hres) as (s & Hmain & Hfiles & _ & _ & _ & Hch & Hcl & Hnot).
  exists s. split; [exact Hmain|]. split; [exact Hfiles|]. split; [exact Hch|].
  split; [exact Hcl|]. rewrite Hnot, Hch, Hcl. reflexivity.
Defined.

Lemma collect_swap (x y : res (nat * nat)) (futures : list (res (nat * nat)))
    (acc t : tally) :
  collect (x :: y :: futures) acc = Val t -> collect (y :: x :: futures) acc = Val t.
Proof.
  cbn [collect]. destruct x as [[c1 n1]| |]; [|discriminate|discriminate].
  destruct y as [[c2 n2]| |]; [|discriminate|discriminate].
  cbn [successful_files total_chunks total_cleaned_chunks].
  intros <-. f_equal. f_equal; [|lia|lia].
  destruct (Z.of_nat c1 >? 0), (Z.of_nat c2 >? 0); lia.
Qed.

Lemma collect_permutation (futures futures' : list (res (nat * nat))) :
  futures ≡ₚ futures' ->
  forall acc t, collect futures acc = Val t -> collect futures' acc = Val t.
Proof.
  induction 1 as [|x l l' Hperm IH|x y l|l l' l'' H1 IH1 H2 IH2]; intros acc t.
  - done.
  - cbn [collect]. destruct x as [[c n]| |]; [apply IH|done|done].
  - apply collect_swap.
  - intros Hc. by apply IH2, IH1.
Qed.

(** Property X20.

    The summary does not depend on the order in which the workers
    complete: two orders of the same documents give the same summary, or
    none in either order. *)
Theorem main_order_independent (docs docs' : list env) (fuel : nat) (s : Summary.t) :
  docs ≡ₚ docs' ->
  main docs fuel = Val s <-> main docs' fuel = Val s.
Proof.
  assert (Hone : forall d d' : list env, d ≡ₚ d' ->
                   main d fuel = Val s -> main d' fuel = Val s).
  { intros d d' Hperm. unfold main, summarize.
    pose proof (fmap_Permutation (fun E => fst (run_worker fuel E)) _ _ Hperm) as Hf.
    change (fmap ?f ?l) with (map f l) in Hf.
    pose proof (collect_permutation _ _ Hf (Tally 0 0 0)) as Hc.
    destruct (collect (map (fun E => fst (run_worker fuel E)) d) (Tally 0 0 0))
      as [t| |] eqn:Ht; [|discriminate|discriminate].
    rewrite (Hc t eq_refl). intros <-.
    assert (Hlen : len (map (fun E => fst (run_worker fuel E)) d')
                   = len (map (fun E => fst (run_worker fuel E)) d)).
    { unfold len. by rewrite (Permutation_length Hf). }
    by rewrite Hlen. }
  intros Hperm. split; apply Hone; [done|by symmetry].
Qed.

Lemma main_order_independent_witness :
  [clean_doc (lit "a") (lit "Hello world"); rejected_doc (lit "c") (lit "Hello again")]
  ≡ₚ [rejected_doc (lit "c") (lit "Hello again"); clean_doc (lit "a") (lit "Hello world")]
  /\ (main [clean_doc (lit "a") (lit "Hello world");
            rejected_doc (lit "c") (lit "Hello again")] 1
      = Val (Summary.Make 2 1 1 2 1 1)
      <-> main [rejected_doc (lit "c") (lit "Hello again");
                clean_doc (lit "a") (lit "Hello world")] 1
          = Val (Summary.Make 2 1 1 2 1 1)).
Proof.
  assert (Hperm : [clean_doc (lit "a") (lit "Hello world");
                   rejected_doc (lit "c") (lit "Hello again")]
                  ≡ₚ [rejected_doc (lit "c") (lit "Hello again");
                      clean_doc (lit "a") (lit "Hello world")]) by apply perm_swap.
  split; [exact Hperm|].
  exact (main_order_independent _ _ 1 (Summary.Make 2 1 1 2 1 1) Hperm).
Defined.

Lemma all_val_results (futures : list (res (nat * nat))) :
  Forall (fun f => exists r, f = Val r) futures -> exists results, futures = map Val results.
Proof.
  induction 1 as [|f futures [r ->] _ [results ->]].
  - by exists [].
  - by exists (r :: results).
Qed.

(** Property X21.

    [main] comes to its summary exactly when every worker returns a
    pair: one worker that raises, or does not end, leaves the batch
    without summary. *)
Theorem main_summary_iff_all_return (docs : list env) (fuel : nat) :
  (exists s, main docs fuel = Val s)
  <-> Forall (fun E => exists r, fst (run_worker fuel E) = Val r) docs.
Proof.
  split.
  - intros [s Hs]. apply summarize_val in Hs.
    apply Forall_forall. intros E HE. rewrite Forall_forall in Hs.
    apply Hs, list_elem_of_In.
    apply (in_map (fun E => fst (run_worker fuel E))). by apply list_elem_of_In.
  - intros Hall.
    destruct (all_val_results (map (fun E => fst (run_worker fuel E)) docs)) as [results Hres].
    { apply Forall_forall. intros f Hf.
      apply list_elem_of_In, in_map_iff in Hf as (E & <- & HE). rewrite Forall_forall in Hall.
      apply Hall. by apply list_elem_of_In. }
    unfold main, summarize. rewrite Hres, collect_totals. by eexists.
Qed.

(** ** get_user_input: what is handed to the workers *)

Lemma starts_with_app (needle hay rest : str) :
  starts_with needle hay = true -> starts_with needle (hay ++ rest) = true.
Proof.
  revert hay. induction needle as [|a needle IH]; intros hay; [done|].
  destruct hay as [|b hay]; [done|]. simpl.
  intros [Hab Hrest]%andb_true_iff. by rewrite Hab, IH.
Qed.

Lemma endswith_app (suffix front s : str) :
  endswith suffix s = true -> endswith suffix (front ++ s) = true.
Proof. unfold endswith. rewrite rev_app_distr. apply starts_with_app. Qed.

Lemma is_txt_app (front name : str) : is_txt name = true -> is_txt (front ++ name) = true.
Proof. unfold is_txt, lower. rewrite map_app. apply endswith_app. Qed.

Lemma is_txt_path_join (folder name : str) :
  is_txt name = true -> is_txt (path_join folder name) = true.
Proof.
  intros Hname. unfold path_join.
  destruct (starts_with [SLASH] name); [done|].
  destruct (negb (truthy folder) || endswith [SLASH] folder); [by apply is_txt_app|].
  change (folder ++ SLASH :: name) with (folder ++ [SLASH] ++ name).
  rewrite app_assoc. by apply is_txt_app.
Qed.

(** Property X22.

    Whatever is typed and whatever the file system holds, when
    [get_user_input] returns, the list of files it returns is not empty
    and the name of each file ends in [.txt], in any case of the letters. *)
Theorem get_user_input_txt_files (F : file_system) (inputs : list str)
    (files : list str) (folder : str) :
  get_user_input F inputs = inr (files, folder) ->
  files <> [] /\ Forall (fun path => is_txt path = true) files.
Proof.
  induction inputs as [|line inputs IH]; [discriminate|]. cbn [get_user_input].
  destruct (isfile F (strip line) && is_txt (strip line)) eqn:Hfile.
  - intros [= <- <-]. apply andb_true_iff in Hfile as [_ Htxt].
    split; [done|]. by repeat constructor.
  - destruct (isdir F (strip line)); [|exact IH].
    destruct (listdir F (strip line)) as [e|names]; [discriminate|].
    destruct (truthy (map (path_join (strip line)) (List.filter is_txt names))) eqn:Hsome;
      [|exact IH].
    intros [= <- <-]. split; [by apply truthy_true|].
    apply Forall_forall. intros path Hin.
    apply list_elem_of_In, in_map_iff in Hin as (name & <- & Hname).
    apply filter_In in Hname as [_ Htxt]. by apply is_txt_path_join.
Qed.

Lemma get_user_input_txt_files_witness :
  get_user_input docs_fs [lit " nowhere "; lit "docs/notes.md"; lit " docs "]
  = inr ([lit "docs/a.txt"; lit "docs/old.TXT"], lit "docs")
  /\ [lit "docs/a.txt"; lit "docs/old.TXT"] <> []
  /\ Forall (fun path => is_txt path = true) [lit "docs/a.txt"; lit "docs/old.TXT"].
Proof.
  assert (Hrun : get_user_input docs_fs [lit " nowhere "; lit "docs/notes.md"; lit " docs "]
                 = inr ([lit "docs/a.txt"; lit "docs/old.TXT"], lit "docs"))
    by (by vm_compute).
  split; [exact Hrun|].
  exact (get_user_input_txt_files docs_fs _ _ _ Hrun).
Defined.

(** ** FileProcessor: the numbers of the chunks *)

Lemma triple_of_returns {A} (P : state -> Prop) (m : M A) (Q : A -> state -> Prop)
    (Qe : exn -> state -> Prop) (Qo : state -> Prop) :
  returns P m Q -> triple P m Q Qe Qo.
Proof. intros Hm s Hs. by destruct (Hm s Hs) as (a & s' & -> & HQ). Qed.

(** What does not write a chunk file keeps what holds of the chunk
    files. *)
Section ChunkFiles.

Variable P : state -> Prop.
Hypothesis HP : about_chunk_files P.
Variable E : env.

Lemma chunk_files_document : about_document P.
Proof. intros s clk calls tr api io Hs. by apply (HP s). Qed.

Ltac cf :=
  repeat first
    [ solve [auto]
    | apply stable_ret | apply stable_raise | apply stable_out_of_fuel
    | apply stable_gets
    | apply stable_bind; [|intros ?]
    | apply stable_try_except; [|intros ?]
    | apply stable_modify; intros s0 Hs0;
      apply (HP s0); [by destruct s0|by destruct s0|exact Hs0]
    | match goal with
      | |- stable _ (match ?x with _ => _ end) => destruct x
      | |- stable _ (if ?x then _ else _) => destruct x
      end ].

Lemma chunk_files_combine_chunks (numbers : list nat) (acc : str) :
  stable P (combine_chunks E numbers acc).
Proof.
  revert acc. induction numbers as [|i numbers IH]; intros acc; simpl.
  - apply stable_ret.
  - pose proof (document_read_chunk_file P chunk_files_document E). cf.
Qed.

Lemma chunk_files_process_except (e : exn) : stable P (process_except e).
Proof. unfold process_except, modify_log. cf. Qed.

Lemma chunk_files_process_finally : stable P (process_finally E).
Proof.
  unfold process_finally, modify_log, time_time.
  pose proof (document_io P chunk_files_document E). cf.
Qed.

Lemma chunk_files_return :
  stable P (let* cleaned_chunks := load_cleaned_chunks in
            let* chunks := load_chunks in
            ret (cleaned_chunks, length chunks)).
Proof. unfold load_cleaned_chunks, load_chunks. cf. Qed.

(** What follows the transform loop in the [try] suite. *)
Lemma chunk_files_recombine (numbers : list nat) :
  stable P (let* cleaned_text := combine_chunks E numbers [] in
            io E >>
            modify (set_output_file (Some cleaned_text)) >>
            modify_log (Log.set_status (lit "completed")) >>
            let* t := time_time in
            modify_log (Log.set_end_time t) >>
            modify_log (fun l => Log.set_processing_time (t - Log.start_time l)%Q l) >>
            let* c := load_cleaned_chunks in
            modify_log (Log.set_cleaned_chunks c)).
Proof.
  unfold load_cleaned_chunks, modify_log, time_time.
  pose proof (document_io P chunk_files_document E).
  pose proof chunk_files_combine_chunks. cf.
Qed.

End ChunkFiles.

Lemma about_files_numbered (j : nat) : about_chunk_files (files_numbered j).
Proof. intros s s' Heq _ Hs k. rewrite Heq. apply Hs. Qed.

Lemma about_files_numbered_within (lo hi : nat) :
  about_chunk_files (files_numbered_within lo hi).
Proof.
  intros s s' Heq Hc (j & Hj & Hs). exists j. split; [done|].
  by apply (about_files_numbered j s).
Qed.

Lemma about_files_written (n : nat) : about_chunk_files (files_written n).
Proof.
  intros s s' Heq Hc [Hs|Hs]; [left|right].
  - unfold not_counting. by rewrite Hc.
  - by apply (about_files_numbered n s).
Qed.

(** The worker as a whole, given what its [try] suite and its [return]
    do. *)
Lemma triple_worker_chunk_files (E : env) (fuel : nat) (P Q : state -> Prop)
    (R : nat * nat -> state -> Prop) :
  about_chunk_files P -> about_chunk_files Q ->
  (forall s, P s -> P (set_var_cleaned_chunks None s)) ->
  (forall s, P s -> Q s) ->
  triple P (process_body E fuel) (fun _ => Q) (fun _ => Q) Q ->
  triple Q (let* cleaned_chunks := load_cleaned_chunks in
            let* chunks := load_chunks in
            ret (cleaned_chunks, length chunks)) R (fun _ => Q) Q ->
  triple P (process_text_file E fuel) R (fun _ => Q) Q.
Proof.
  intros HP HQ Hnone HPQ Hbody Hret. unfold process_text_file.
  assert (Hmod : forall f : state -> state,
            (forall s, chunk_files (f s) = chunk_files s) ->
            (forall s, var_cleaned_chunks (f s) = var_cleaned_chunks s) ->
            triple P (modify f) (fun _ => P) (fun _ => Q) Q).
  { intros f Hf Hc. apply triple_modify. intros s Hs. by apply (HP s). }
  apply (triple_bind _ _ _ (fun _ => P)); [apply Hmod; by intros []|]. intros ?.
  apply (triple_bind _ _ _ (fun _ => P)); [by apply triple_modify|]. intros ?.
  apply (triple_bind _ _ _ (fun _ => P)).
  { apply triple_stable; [|by intros; apply HPQ|exact HPQ].
    by apply document_io, chunk_files_document. }
  intros ?. apply (triple_bind _ _ _ (fun _ => P)); [by apply triple_gets|]. intros t0.
  apply (triple_bind _ _ _ (fun _ => P)); [apply Hmod; by intros []|]. intros ?.
  apply (triple_bind _ _ _ (fun _ => Q)).
  - apply (triple_try_finally _ _ _ (fun _ => Q) (fun _ => Q)).
    + apply (triple_try_except _ _ _ (fun _ => Q)); [exact Hbody|].
      intros e. apply triple_stable; [by apply chunk_files_process_except|done|done].
    + intros ?. apply triple_stable; [by apply chunk_files_process_finally|done|done].
    + intros ?. apply triple_stable; [by apply chunk_files_process_finally|done|done].
  - intros ?. exact Hret.
Qed.

(** *** The files that exist *)

Section Numbered.

Variable E : env.

Lemma numbered_write_next (j : nat) (content : str) :
  triple (files_numbered j) (write_chunk_file E (S j) content)
         (fun _ => files_numbered (S j)) (fun _ => files_numbered j) (files_numbered j).
Proof.
  unfold write_chunk_file.
  apply (triple_bind _ _ _ (fun _ => files_numbered j)).
  { apply triple_stable; [|done|done].
    apply document_io, chunk_files_document, about_files_numbered. }
  intros ?. apply triple_modify. intros s Hs k.
  cbn [chunk_files set_chunk_files].
  destruct (decide (k = S j)) as [->|Hne].
  - rewrite lookup_insert_eq. split; [lia|by eexists].
  - rewrite lookup_insert_ne by done. rewrite (Hs k). lia.
Qed.

Lemma numbered_persist (l : list str) (j : nat) :
  triple (files_numbered j)
         (for_each (enumerate l (S j)) (fun '(i, chunk) => write_chunk_file E i chunk))
         (fun _ => files_numbered (j + length l))
         (fun _ => files_numbered_within j (j + length l))
         (files_numbered_within j (j + length l)).
Proof.
  revert j. induction l as [|x l IH]; intros j; cbn [enumerate for_each length].
  - apply triple_ret. intros s Hs. by rewrite Nat.add_0_r.
  - apply (triple_bind _ _ _ (fun _ => files_numbered (S j))).
    + eapply triple_conseq; [apply numbered_write_next| | | |].
      * intros s Hs. exact Hs.
      * intros u s Hs. exact Hs.
      * intros e s Hs. exists j. split; [lia|exact Hs].
      * intros s Hs. exists j. split; [lia|exact Hs].
    + intros ?. eapply triple_conseq; [apply (IH (S j))| | | |].
      * intros s Hs. exact Hs.
      * intros u s Hs. by replace (j + S (length l))%nat with (S j + length l)%nat by lia.
      * intros e s (i & Hi & Hs). exists i. split; [lia|exact Hs].
      * intros s (i & Hi & Hs). exists i. split; [lia|exact Hs].
Qed.

Lemma numbered_write_in (n k : nat) (content : str) :
  (1 <= k <= n)%nat -> stable (files_numbered n) (write_chunk_file E k content).
Proof.
  intros Hk. unfold write_chunk_file. apply stable_bind.
  - apply document_io, chunk_files_document, about_files_numbered.
  - intros ?. apply stable_modify. intros s Hs i.
    cbn [chunk_files set_chunk_files].
    destruct (decide (i = k)) as [->|Hne].
    + rewrite lookup_insert_eq. split; [lia|by eexists].
    + rewrite lookup_insert_ne by done. apply Hs.
Qed.

Lemma numbered_process_chunk (n k total : nat) :
  (1 <= k <= n)%nat -> stable (files_numbered n) (process_chunk E k total).
Proof.
  intros Hk. unfold process_chunk.
  pose proof (chunk_files_document _ (about_files_numbered n)) as Hdoc.
  apply stable_bind; [by apply document_read_chunk_file|]. intros chunk.
  apply stable_bind; [by apply document_clean_text_chunk|]. intros result.
  apply stable_bind.
  { destruct (snd result); [|apply stable_ret].
    unfold load_cleaned_chunks. apply stable_bind.
    - apply stable_bind; [apply stable_gets|]. intros [c|]; [apply stable_ret|apply stable_raise].
    - intros c. apply stable_modify. by intros []. }
  intros ?. apply stable_bind; [by apply numbered_write_in|].
  intros ?. apply stable_modify. by intros [].
Qed.

Lemma numbered_while_true (n fuel k total : nat) :
  (1 <= k <= n)%nat -> stable (files_numbered n) (while_true fuel E k total).
Proof.
  intros Hk. induction fuel as [|fuel IH]; cbn [while_true]; [apply stable_out_of_fuel|].
  pose proof (chunk_files_document _ (about_files_numbered n)) as Hdoc.
  apply stable_bind.
  - apply stable_try_except.
    + apply stable_bind; [by apply numbered_process_chunk|]. intros ?. apply stable_ret.
    + intros e. apply stable_bind; [apply stable_modify; by intros []|]. intros ?.
      apply stable_bind; [by apply document_sleep|]. intros ?. apply stable_ret.
  - intros [|]; [apply stable_ret|exact IH].
Qed.

Lemma numbered_transform_loop (n fuel total m i : nat) :
  (i + m <= n)%nat ->
  stable (files_numbered n)
         (for_each (seq i m) (fun i => while_true fuel E (i + 1) total)).
Proof.
  revert i. induction m as [|m IH]; intros i Hi; cbn [seq for_each]; [apply stable_ret|].
  apply stable_bind; [apply numbered_while_true; lia|].
  intros ?. apply IH. lia.
Qed.

(** The [try] suite from the chunk list on. *)
Lemma numbered_process_chunks (fuel : nat) (chunks : list str) :
  triple (files_numbered 0) (process_chunks E fuel chunks)
         (fun _ => files_numbered (length chunks))
         (fun _ => files_numbered_within 0 (length chunks))
         (files_numbered_within 0 (length chunks)).
Proof.
  assert (Hwithin : forall s, files_numbered (length chunks) s ->
                              files_numbered_within 0 (length chunks) s).
  { intros s Hs. exists (length chunks). split; [lia|exact Hs]. }
  unfold process_chunks.
  apply (triple_bind _ _ _ (fun _ => files_numbered (length chunks)));
    [apply (numbered_persist chunks 0)|]. intros ?.
  apply (triple_bind _ _ _ (fun _ => files_numbered (length chunks))).
  { apply triple_modify. by intros []. }
  intros ?. apply (triple_bind _ _ _ (fun _ => files_numbered (length chunks))).
  { apply triple_stable; [|by intros; apply Hwithin|exact Hwithin].
    apply numbered_transform_loop. lia. }
  intros ?. apply triple_stable; [|by intros; apply Hwithin|exact Hwithin].
  apply chunk_files_recombine, about_files_numbered.
Qed.

Lemma numbered_process_body (fuel : nat) (text : str) :
  read_with E encodings = inr text ->
  triple (files_numbered 0) (process_body E fuel)
         (fun _ => files_numbered_within 0 (length (chunk_text text default_chunk_size)))
         (fun _ => files_numbered_within 0 (length (chunk_text text default_chunk_size)))
         (files_numbered_within 0 (length (chunk_text text default_chunk_size))).
Proof.
  intros Hread. unfold process_body, read_file_with_fallback_encoding, modify_log.
  rewrite Hread, bind_ret.
  apply (triple_bind _ _ _ (fun _ => files_numbered 0)).
  { apply triple_modify. by intros []. }
  intros ?. apply (triple_bind _ _ _ (fun _ => files_numbered 0)).
  { apply triple_modify. by intros []. }
  intros ?. eapply triple_conseq; [apply numbered_process_chunks| | | |].
  - intros s Hs. exact Hs.
  - intros u s Hs. exists (length (chunk_text text default_chunk_size)). split; [lia|exact Hs].
  - intros e s Hs. exact Hs.
  - intros s Hs. exact Hs.
Qed.

(** Whatever fails, the chunk files that exist when the worker stops are
    numbered from 1 without a gap, and there are no more of them than
    chunks. *)
Lemma numbered_run (fuel : nat) (text : str) :
  read_with E encodings = inr text ->
  files_numbered_within 0 (length (chunk_text text default_chunk_size))
                        (snd (run_worker fuel E)).
Proof.
  intros Hread. set (n := length (chunk_text text default_chunk_size)).
  assert (Hstart : forall s, files_numbered 0 s -> files_numbered_within 0 n s).
  { intros s Hs. exists O. split; [lia|exact Hs]. }
  assert (Hrun : triple (files_numbered 0) (process_text_file E fuel)
                        (fun _ => files_numbered_within 0 n)
                        (fun _ => files_numbered_within 0 n) (files_numbered_within 0 n)).
  { apply (triple_worker_chunk_files E fuel (files_numbered 0) (files_numbered_within 0 n)).
    - apply about_files_numbered.
    - apply about_files_numbered_within.
    - by intros [].
    - exact Hstart.
    - by apply numbered_process_body.
    - apply triple_stable; [|done|done].
      apply chunk_files_return. }
  unfold run_worker. specialize (Hrun initial_state).
  destruct (process_text_file E fuel initial_state) as [[r|e|] s']; apply Hrun.
  all: intros k; cbn [initial_state chunk_files]; rewrite lookup_empty; split;
    [by intros [? ?]|lia].
Qed.

End Numbered.

(** *** The files the chunks are written to *)

Lemma write_chunk_file_run (E : env) (k : nat) (content : str) (s : state) :
  no_io_fault E ->
  exists s', write_chunk_file E k content s = (Val tt, s')
             /\ chunk_files s' = <[k := content]> (chunk_files s).
Proof.
  intros Hio. unfold write_chunk_file, io, bind, gets, modify. simpl. rewrite Hio.
  eexists. split; [reflexivity|]. by destruct s.
Qed.

Lemma persist_run (E : env) (l : list str) (k : nat) (s : state) :
  no_io_fault E ->
  exists s',
    for_each (enumerate l k) (fun '(i, chunk) => write_chunk_file E i chunk) s = (Val tt, s')
    /\ forall i, chunk_files s' !! i
                 = if decide (k <= i < k + length l)%nat then l !! (i - k)%nat
                   else chunk_files s !! i.
Proof.
  intros Hio. revert k s. induction l as [|x l IH]; intros k s; cbn [enumerate for_each length].
  - exists s. split; [reflexivity|]. intros i. destruct (decide _); [lia|done].
  - destruct (write_chunk_file_run E k x s Hio) as (s1 & Hrun1 & Hfiles1).
    destruct (IH (S k) s1) as (s2 & Hrun2 & Hfiles2).
    exists s2. split; [unfold bind; by rewrite Hrun1|].
    intros i. rewrite Hfiles2, Hfiles1.
    destruct (decide (S k <= i < S k + length l)%nat) as [Hi|Hi].
    + destruct (decide (k <= i < k + S (length l))%nat); [|lia].
      by replace (i - k)%nat with (S (i - S k)) by lia.
    + destruct (decide (i = k)) as [->|Hne].
      * rewrite lookup_insert_eq. destruct (decide _); [|lia].
        by rewrite Nat.sub_diag.
      * rewrite lookup_insert_ne by done. destruct (decide _); [lia|done].
Qed.

(** The loop of lines 198 to 201, started without a chunk file, leaves
    the chunks each under its number. *)
Lemma persist_holds (E : env) (chunks : list str) :
  no_io_fault E ->
  exists s',
    for_each (enumerate chunks 1) (fun '(i, chunk) => write_chunk_file E i chunk) initial_state
    = (Val tt, s')
    /\ files_hold chunks s'.
Proof.
  intros Hio. destruct (persist_run E chunks 1 initial_state Hio) as (s' & Hrun & Hfiles).
  exists s'. split; [exact Hrun|]. intros k. rewrite Hfiles.
  destruct k as [|k].
  - destruct (decide _); [lia|]. cbn [initial_state chunk_files]. apply lookup_empty.
  - destruct (decide _) as [Hk|Hk].
    + by replace (S k - 1)%nat with k by lia.
    + cbn [initial_state chunk_files]. rewrite lookup_empty. symmetry.
      apply lookup_ge_None. lia.
Qed.


(** *** A run that returns *)

Lemma triple_and {A} (P P' : state -> Prop) (m : M A) (Qv Qv' : A -> state -> Prop)
    (Qe Qe' : exn -> state -> Prop) (Qo Qo' : state -> Prop) :
  triple P m Qv Qe Qo -> triple P' m Qv' Qe' Qo' ->
  triple (fun s => P s /\ P' s) m (fun a s => Qv a s /\ Qv' a s)
         (fun e s => Qe e s /\ Qe' e s) (fun s => Qo s /\ Qo' s).
Proof.
  intros H H' s [Hs Hs']. specialize (H s Hs). specialize (H' s Hs').
  by destruct (m s) as [[a|e|] s1].
Qed.

Section Written.

Variable E : env.

Lemma not_counting_persist (l : list str) (k : nat) :
  stable not_counting
         (for_each (enumerate l k) (fun '(i, chunk) => write_chunk_file E i chunk)).
Proof.
  revert k. induction l as [|x l IH]; intros k; cbn [enumerate for_each]; [apply stable_ret|].
  apply stable_bind; [|intros ?; apply IH].
  unfold write_chunk_file. apply stable_bind.
  - apply document_io. by intros s clk calls tr api io Hs.
  - intros ?. apply stable_modify. by intros [].
Qed.

(** The [try] suite from the chunk list on: the counter is bound once
    every chunk has its file. *)
Lemma written_process_chunks (fuel : nat) (chunks : list str) :
  triple (fun s => files_numbered 0 s /\ not_counting s) (process_chunks E fuel chunks)
         (fun _ => files_written (length chunks))
         (fun _ => files_written (length chunks))
         (files_written (length chunks)).
Proof.
  assert (Hwritten : forall s, files_numbered (length chunks) s ->
                               files_written (length chunks) s) by (intros s Hs; by right).
  unfold process_chunks.
  apply (triple_bind _ _ _ (fun _ => files_numbered (length chunks))).
  { eapply triple_conseq.
    - apply triple_and; [apply (numbered_persist E chunks 0)|].
      apply (triple_stable not_counting (fun _ => not_counting) not_counting);
        [apply not_counting_persist|done|done].
    - intros s Hs. exact Hs.
    - intros u s [Hs _]. exact Hs.
    - intros e s [_ Hs]. by left.
    - intros s [_ Hs]. by left. }
  intros ?. apply (triple_bind _ _ _ (fun _ => files_numbered (length chunks))).
  { apply triple_modify. by intros []. }
  intros ?. apply (triple_bind _ _ _ (fun _ => files_numbered (length chunks))).
  { apply triple_stable; [|by intros; apply Hwritten|exact Hwritten].
    apply numbered_transform_loop. lia. }
  intros ?. eapply triple_conseq.
  - apply (triple_stable (files_numbered (length chunks))
             (fun _ => files_written (length chunks)) (files_written (length chunks)));
      [|by intros; apply Hwritten|exact Hwritten].
    apply chunk_files_recombine, about_files_numbered.
  - intros s Hs. exact Hs.
  - intros u s Hs. by apply Hwritten.
  - intros e s Hs. exact Hs.
  - intros s Hs. exact Hs.
Qed.

Lemma written_process_body (fuel : nat) (text : str) :
  read_with E encodings = inr text ->
  triple (fun s => files_numbered 0 s /\ not_counting s) (process_body E fuel)
         (fun _ => files_written (length (chunk_text text default_chunk_size)))
         (fun _ => files_written (length (chunk_text text default_chunk_size)))
         (files_written (length (chunk_text text default_chunk_size))).
Proof.
  intros Hread. unfold process_body, read_file_with_fallback_encoding, modify_log.
  rewrite Hread, bind_ret.
  apply (triple_bind _ _ _ (fun _ s => files_numbered 0 s /\ not_counting s)).
  { apply triple_modify. by intros []. }
  intros ?. apply (triple_bind _ _ _ (fun _ s => files_numbered 0 s /\ not_counting s)).
  { apply triple_modify. by intros []. }
  intros ?. apply written_process_chunks.
Qed.

(** The [return] of line 274 needs the counter. *)
Lemma written_return (n : nat) :
  triple (files_written n)
         (let* cleaned_chunks := load_cleaned_chunks in
          let* chunks := load_chunks in
          ret (cleaned_chunks, length chunks))
         (fun _ => files_numbered n) (fun _ => files_written n) (files_written n).
Proof.
  intros s Hs. unfold load_cleaned_chunks, load_chunks, bind, gets, ret, raise.
  destruct (var_cleaned_chunks s) as [c|] eqn:Hc; [|exact Hs].
  destruct (var_chunks s) as [chs|]; [|exact Hs].
  destruct Hs as [Hs|Hs]; [|exact Hs]. unfold not_counting in Hs. congruence.
Qed.

(** A run that returns leaves one chunk file for each chunk. *)
Lemma written_run (fuel : nat) (text : str) (r : nat * nat) :
  read_with E encodings = inr text ->
  fst (run_worker fuel E) = Val r ->
  files_numbered (length (chunk_text text default_chunk_size)) (snd (run_worker fuel E)).
Proof.
  intros Hread. set (n := length (chunk_text text default_chunk_size)).
  assert (Hrun : triple (fun s => files_numbered 0 s /\ not_counting s)
                        (process_text_file E fuel)
                        (fun _ => files_numbered n)
                        (fun _ => files_written n) (files_written n)).
  { apply (triple_worker_chunk_files E fuel (fun s => files_numbered 0 s /\ not_counting s)
             (files_written n)).
    - intros s s' Heq Hc [Hs Hn]. split; [by apply (about_files_numbered 0 s)|].
      unfold not_counting. by rewrite Hc.
    - apply about_files_written.
    - intros s [Hs _]. split; [|reflexivity]. by destruct s.
    - intros s [_ Hs]. by left.
    - by apply written_process_body.
    - apply written_return. }
  unfold run_worker. specialize (Hrun initial_state).
  destruct (process_text_file E fuel initial_state) as [[r'|e|] s']; cbn [fst snd];
    [|discriminate|discriminate].
  intros _. apply Hrun. split; [|reflexivity].
  intros k. cbn [initial_state chunk_files]. rewrite lookup_empty. split;
    [by intros [? ?]|lia].
Qed.

End Written.

(** *** The numbers in the log *)

Lemma log_numbered_run (E : env) (fuel : nat) (lg : Log.t) :
  log_file (snd (run_worker fuel E)) = Some lg ->
  exists i, map Log.chunk_number (Log.chunks_info lg) = seq 1 i
            /\ (Log.status lg = lit "completed" -> Log.total_chunks lg = Some i).
Proof.
  intros Hlg. unfold run_worker in Hlg.
  assert (Hfailed : log_failed lg ->
            exists i, map Log.chunk_number (Log.chunks_info lg) = seq 1 i
                      /\ (Log.status lg = lit "completed" -> Log.total_chunks lg = Some i)).
  { intros (Hst & _ & i & Hi). exists i. split; [exact Hi|].
    intros Hc. rewrite Hst in Hc. by vm_compute in Hc. }
  pose proof (triple_process_text_file E fuel initial_state eq_refl) as Hrun.
  destruct (process_text_file E fuel initial_state) as [[r|e|] s']; simpl in Hlg.
  - destruct (Hrun lg Hlg) as (_ & _ & [(chunks & _ & _ & _ & _ & Htot & Hnum & _)|Hfail]).
    + exists (length chunks). by split.
    + by apply Hfailed.
  - destruct (Hrun lg Hlg) as (_ & _ & Hfail). by apply Hfailed.
  - unfold no_log in Hrun. congruence.
Qed.

(** Claim C5: for every text and target size, no chunk [chunk_text]
    returns is empty after trimming, and the empty document has no
    chunk. The numbers used downstream are 1, 2, ... without a gap over
    the chunks kept: the loop of lines 198 to 201, when no file operation
    fails, writes the chunk at position [k] of the list to the file
    numbered [k + 1] and no other file; whatever the service and the file
    system do, the chunk files that exist when the worker stops are those
    numbered 1 to some [j], with [j] at most the number of chunks, and
    those numbered 1 to the number of chunks when the worker returns; and
    the entries of [chunks_info] in a persisted log are numbered
    1, 2, ..., one for each chunk when the log is completed. *)
Theorem chunk_text_nonempty_contiguous (T : str) (S : Z) (E : env) (fuel : nat) :
  Forall (fun chunk => strip chunk <> []) (chunk_text T S)
  /\ chunk_text [] S = []
  /\ (no_io_fault E ->
      exists s',
        for_each (enumerate (chunk_text T S) 1) (fun '(i, chunk) => write_chunk_file E i chunk)
                 initial_state
        = (Val tt, s')
        /\ files_hold (chunk_text T S) s')
  /\ (read_with E encodings = inr T ->
      files_numbered_within 0 (length (chunk_text T default_chunk_size))
                            (snd (run_worker fuel E))
      /\ forall r, fst (run_worker fuel E) = Val r ->
           files_numbered (length (chunk_text T default_chunk_size))
                          (snd (run_worker fuel E)))
  /\ (forall lg, log_file (snd (run_worker fuel E)) = Some lg ->
      exists i, map Log.chunk_number (Log.chunks_info lg) = seq 1 i
                /\ (Log.status lg = lit "completed" -> Log.total_chunks lg = Some i)).
Proof.
  split; [|split; [|split; [|split]]].
  - unfold chunk_text. apply Forall_forall. intros chunk Hin.
    apply list_elem_of_In, filter_In in Hin as [_ Hin]. by apply truthy_true.
  - unfold chunk_text, chunk_text_raw. simpl. unfold chunk_step. simpl.
    by rewrite andb_false_r.
  - intros Hio. by apply persist_holds.
  - intros Hread. split.
    + by apply numbered_run.
    + intros r Hr. by apply (written_run E fuel T r).
  - intros lg Hlg. by apply (log_numbered_run E fuel).
Qed.

Lemma chunk_text_nonempty_contiguous_witness :
  length (chunk_text two_chunk_text default_chunk_size) = 2%nat
  /\ Forall (fun chunk => strip chunk <> []) (chunk_text two_chunk_text default_chunk_size)
  /\ (exists s',
        for_each (enumerate (chunk_text two_chunk_text default_chunk_size) 1)
                 (fun '(i, chunk) => write_chunk_file (clean_doc (lit "a") two_chunk_text) i chunk)
                 initial_state
        = (Val tt, s')
        /\ files_hold (chunk_text two_chunk_text default_chunk_size) s')
  /\ files_numbered (length (chunk_text two_chunk_text default_chunk_size))
                    (snd (run_worker 1 (clean_doc (lit "a") two_chunk_text)))
  /\ exists lg i,
       log_file (snd (run_worker 1 (clean_doc (lit "a") two_chunk_text))) = Some lg
       /\ map Log.chunk_number (Log.chunks_info lg) = seq 1 i
       /\ Log.total_chunks lg = Some i.
Proof.
  destruct (chunk_text_nonempty_contiguous two_chunk_text default_chunk_size
              (clean_doc (lit "a") two_chunk_text) 1)
    as (Hstrip & _ & Hpersist & Hfiles & Hlog).
  split; [by vm_compute|]. split; [exact Hstrip|].
  split; [apply Hpersist; by intros k|].
  destruct (Hfiles eq_refl) as [_ Hreturned].
  destruct (fst (run_worker 1 (clean_doc (lit "a") two_chunk_text))) as [r| |] eqn:Hr;
    [|by vm_compute in Hr|by vm_compute in Hr].
  split; [exact (Hreturned r eq_refl)|].
  destruct (log_file (snd (run_worker 1 (clean_doc (lit "a") two_chunk_text))))
    as [lg|] eqn:Hlg; [|by vm_compute in Hlg].
  assert (Hst : Log.status lg = lit "completed").
  { vm_compute in Hlg. injection Hlg as <-. reflexivity. }
  destruct (Hlog lg eq_refl) as (i & Hnum & Htot).
  exists lg, i. split; [reflexivity|]. split; [exact Hnum|exact (Htot Hst)].
Defined.
